(** * A shallow embedding of [train_gpt2.py]

    The file follows the layout of the Python source: the exceptions the
    interpreter and the tensor library raise, the token loader
    ([DataLoaderLite]), tensors and the parameter store, the module tree of
    the network ([GPT], [Block], [CausalSelfAttention], [MLP]), checkpoint
    alignment ([GPT.from_pretrained]), the attention forward pass and the
    top-k selection of the generation loop.  Definitions come first, the
    verified properties follow in the second half. *)

From Stdlib Require Import String Ascii DecimalString.
From Stdlib Require Import List Arith Lia Bool ZArith.
From Stdlib Require Import Reals Lra.
Import ListNotations.

Set Implicit Arguments.

(* ================================================================== *)
(** * Part I: the embedding                                            *)
(* ================================================================== *)

(** ** Exceptions and the error monad *)

(** The exception classes that the modelled code paths can raise. *)
Inductive exn : Type :=
| AssertionError
| KeyError
| NameError
| AttributeError
| RuntimeError
| ZeroDivisionError
| TypeError
| ValueError.

Inductive result (A : Type) : Type :=
| Ok (a : A)
| Raise (e : exn).

Arguments Ok {A} a.
Arguments Raise {A} e.

Definition bind {A B : Type} (m : result A) (k : A -> result B) : result B :=
  match m with
  | Ok a => k a
  | Raise e => Raise e
  end.

Definition py_assert (b : bool) : result unit :=
  if b then Ok tt else Raise AssertionError.

Definition is_ok {A : Type} (m : result A) : bool :=
  match m with Ok _ => true | Raise _ => false end.

Declare Scope result_scope.
Delimit Scope result_scope with result.
Notation "x <- m ;; k" := (bind m (fun x => k))
  (at level 61, m at next level, right associativity) : result_scope.
Notation "m ;;; k" := (bind m (fun _ => k))
  (at level 61, right associativity) : result_scope.
Open Scope result_scope.

(** ** Slices and views of one-dimensional data *)

Section Slices.
Context {A : Type}.

(** [l[start:stop]] for non-negative bounds: Python clamps both to the
    length of [l] and yields the empty list when [stop <= start]. *)
Definition py_slice (l : list A) (start stop : nat) : list A :=
  firstn (stop - start) (skipn start l).

(** [l[:-1]]: everything but the last element; empty on the empty list. *)
Definition drop_last (l : list A) : list A :=
  firstn (length l - 1) l.

(** [l[1:]]. *)
Definition drop_first (l : list A) : list A := skipn 1 l.

(** Row-major split of a flat buffer into [rows] rows of [cols] items. *)
Fixpoint chunks (cols rows : nat) (l : list A) : list (list A) :=
  match rows with
  | O => []
  | S r => firstn cols l :: chunks cols r (skipn cols l)
  end.

(** [t.view(B, T)] on a one-dimensional tensor with sizes [B], [T] >= 0:
    a shape error unless the element count is exactly [B*T]. *)
Definition view2 (l : list A) (B T : nat) : result (list (list A)) :=
  if length l =? B * T then Ok (chunks T B l) else Raise RuntimeError.
End Slices.

(** ** DataLoaderLite *)

Module DataLoaderLite.

(** The object's fields.  [B] and [T] are the two sizes of the batch
    shape; token ids are Python integers. *)
Record t : Type := mk {
  B : nat;
  T : nat;
  tokens : list Z;
  current_position : nat
}.

(** [__init__(self, B, T)].  Reading and tokenising [input.txt] is done
    by external collaborators; [corpus] is the token list they return.
    The second [print] evaluates [len(self.tokens) // (B * T)], which
    raises when [B * T] is zero.  Nothing else can fail: the length of
    the corpus is not inspected. *)
Definition init (corpus : list Z) (B T : nat) : result t :=
  if B * T =? 0 then Raise ZeroDivisionError
  else Ok (mk B T corpus 0).

(** [next_batch(self)].  Both views are taken before the cursor moves,
    so an exception leaves the loader unchanged. *)
Definition next_batch (ld : t)
  : result (list (list Z) * list (list Z) * t) :=
  let B := B ld in
  let T := T ld in
  let pos := current_position ld in
  let buf := py_slice (tokens ld) pos (pos + B * T + 1) in
  x <- view2 (drop_last buf) B T ;;
  y <- view2 (drop_first buf) B T ;;
  let pos := pos + B * T in
  let pos :=
    if length (tokens ld) <? pos + (B * T + 1) then 0 else pos in
  Ok (x, y, mk B T (tokens ld) pos).

(** The loader after [n] successive calls of [next_batch], the batches
    being dropped. *)
Fixpoint advance (n : nat) (ld : t) : result t :=
  match n with
  | O => Ok ld
  | S n' =>
      r <- next_batch ld ;;
      advance n' (snd r)
  end.

(** The input half of the batch a call returns. *)
Definition next_input (ld : t) : result (list (list Z)) :=
  r <- next_batch ld ;; Ok (fst (fst r)).

(** A full [B] x [T] tensor. *)
Definition full_shape (ld : t) (x : list (list Z)) : Prop :=
  length x = B ld /\ Forall (fun row => length row = T ld) x.

End DataLoaderLite.

(** The batches that [n] successive calls of [next_batch] return, as the
    training loop consumes them, with the loader after the last call. *)
Fixpoint batches (n : nat) (ld : DataLoaderLite.t)
  : result (list (list (list Z) * list (list Z)) * DataLoaderLite.t) :=
  match n with
  | O => Ok ([], ld)
  | S n' =>
      r <- DataLoaderLite.next_batch ld ;;
      rs <- batches n' (snd r) ;;
      Ok (fst r :: fst rs, snd rs)
  end.

(** All tokens of a list of [B] x [T] tensors, in reading order. *)
Definition flatten (xs : list (list (list Z))) : list Z :=
  concat (map (@concat Z) xs).

(** ** Scalars

    Tensor elements are floating-point numbers.  The embedding keeps the
    special values of IEEE arithmetic (the two infinities and NaN) and
    their propagation rules, and computes on finite values with exact real
    arithmetic: rounding, overflow and the sign of zero are not modelled. *)

Inductive scalar : Type :=
| Fin (r : R)
| PInf
| NInf
| NaN.

(** ** Tensors and the parameter store

    A tensor has a shape and a row-major element function.  Parameters and
    buffers are objects with identity: they live in a store and modules
    hold handles to them, so that two modules can share one tensor. *)

Record tensor : Type := mkTensor {
  shape : list nat;
  elem : nat -> scalar
}.

Definition handle : Type := nat.
Definition store : Type := list tensor.

Definition read (st : store) (h : handle) : option tensor := nth_error st h.

(** In-place update of the tensor behind a handle. *)
Fixpoint write (st : store) (h : handle) (v : tensor) : store :=
  match st, h with
  | [], _ => []
  | _ :: st', O => v :: st'
  | x :: st', S h' => x :: write st' h' v
  end.

(** Computations that allocate or mutate tensors and may raise.  The store
    survives an exception: what was written before it stays written. *)
Definition M (A : Type) : Type := store -> result A * store.

Definition ret {A : Type} (a : A) : M A := fun st => (Ok a, st).

Definition raise {A : Type} (e : exn) : M A := fun st => (Raise e, st).

Definition lift {A : Type} (r : result A) : M A := fun st => (r, st).

Definition bindM {A B : Type} (m : M A) (k : A -> M B) : M B :=
  fun st =>
    match m st with
    | (Ok a, st') => k a st'
    | (Raise e, st') => (Raise e, st')
    end.

Declare Scope store_scope.
Delimit Scope store_scope with store.
Notation "x <~ m ;; k" := (bindM m (fun x => k))
  (at level 61, m at next level, right associativity) : store_scope.
Notation "m ;;~ k" := (bindM m (fun _ => k))
  (at level 61, right associativity) : store_scope.
Open Scope store_scope.

(** A new tensor; its handle is the next free index of the store. *)
Definition alloc (v : tensor) : M handle :=
  fun st => (Ok (length st), st ++ [v]).

(** The default initialisers of the tensor library draw random values; the
    oracle [rng] gives the contents of the tensor allocated at a handle. *)
Definition rng_oracle : Type := handle -> nat -> scalar.

Definition alloc_random (rng : rng_oracle) (sh : list nat) : M handle :=
  fun st => (Ok (length st), st ++ [mkTensor sh (rng (length st))]).

Definition alloc_const (c : scalar) (sh : list nat) : M handle :=
  alloc (mkTensor sh (fun _ => c)).

(** [mapM] over a list, left to right. *)
Fixpoint mapM {A B : Type} (f : A -> M B) (l : list A) : M (list B) :=
  match l with
  | [] => ret []
  | a :: l' => b <~ f a ;; bs <~ mapM f l' ;; ret (b :: bs)
  end.

(** [tensor.t()]: the transpose of a matrix, the tensor itself below two
    dimensions, an error above. *)
Definition transpose (v : tensor) : result tensor :=
  match shape v with
  | [] | [_] => Ok v
  | [r; c] =>
      Ok (mkTensor [c; r] (fun idx => elem v ((idx mod r) * c + idx / r)))
  | _ => Raise RuntimeError
  end.

(** Element [(i, j)] of a matrix. *)
Definition elem2 (v : tensor) (i j : nat) : scalar :=
  match shape v with
  | [_; c] => elem v (i * c + j)
  | _ => elem v 0
  end.

(** [dst.copy_(src)] for equal shapes: the elements of [src] are written
    into [dst], whose identity and shape stay. *)
Definition copy_ (dst src : tensor) : tensor :=
  mkTensor (shape dst) (elem src).

Definition shape_eqb (s1 s2 : list nat) : bool :=
  if list_eq_dec Nat.eq_dec s1 s2 then true else false.

(** ** Strings and ordered dictionaries *)

Open Scope string_scope.

(** [s.endswith(suffix)]. *)
Definition endswith (s suffix : string) : bool :=
  let n := String.length s in
  let m := String.length suffix in
  (m <=? n)%nat && String.eqb (String.substring (n - m) m s) suffix.

(** A dictionary in insertion order; its keys are pairwise distinct. *)
Definition dict (V : Type) : Type := list (string * V).

Definition keys {V : Type} (d : dict V) : list string := map fst d.

Fixpoint get {V : Type} (d : dict V) (k : string) : option V :=
  match d with
  | [] => None
  | (k', v) :: d' => if String.eqb k' k then Some v else get d' k
  end.

(** [d[k]]. *)
Definition getitem {V : Type} (d : dict V) (k : string) : result V :=
  match get d k with
  | Some v => Ok v
  | None => Raise KeyError
  end.

Definition str_in (s : string) (l : list string) : bool :=
  existsb (String.eqb s) l.

(** ** The module tree *)

Module Linear.
Record t : Type := mk { weight : handle; bias : option handle }.

(** [nn.Linear(in_features, out_features, bias)]: the weight has shape
    [[out_features; in_features]]. *)
Definition init (rng : rng_oracle) (in_features out_features : nat)
  (with_bias : bool) : M t :=
  w <~ alloc_random rng [out_features; in_features] ;;
  if with_bias then
    b <~ alloc_random rng [out_features] ;;
    ret (mk w (Some b))
  else ret (mk w None).

Definition state_dict (prefix : string) (m : t) : dict handle :=
  (prefix ++ "weight", weight m) ::
  match bias m with
  | Some b => [(prefix ++ "bias", b)]
  | None => []
  end.
End Linear.

Module Embedding.
Record t : Type := mk { weight : handle }.

Definition init (rng : rng_oracle) (num_embeddings embedding_dim : nat)
  : M t :=
  w <~ alloc_random rng [num_embeddings; embedding_dim] ;;
  ret (mk w).

Definition state_dict (prefix : string) (m : t) : dict handle :=
  [(prefix ++ "weight", weight m)].
End Embedding.

Module LayerNorm.
Record t : Type := mk { weight : handle; bias : handle }.

Definition init (normalized_shape : nat) : M t :=
  w <~ alloc_const (Fin 1) [normalized_shape] ;;
  b <~ alloc_const (Fin 0) [normalized_shape] ;;
  ret (mk w b).

Definition state_dict (prefix : string) (m : t) : dict handle :=
  [(prefix ++ "weight", weight m); (prefix ++ "bias", bias m)].
End LayerNorm.

Module GPTConfig.
Record t : Type := mk {
  block_size : nat;
  vocab_size : nat;
  n_layer : nat;
  n_head : nat;
  n_embd : nat
}.

(** The defaults of the dataclass. *)
Definition default : t := mk 1024 50257 12 12 768.
End GPTConfig.

(** [a % b == 0] on non-negative integers; the remainder by zero raises. *)
Definition mod_is_zero (a b : nat) : result bool :=
  if (b =? 0)%nat then Raise ZeroDivisionError else Ok (a mod b =? 0)%nat.

(** [torch.tril(torch.ones(n, n))]. *)
Definition tril_ones (n : nat) : tensor :=
  mkTensor [1; 1; n; n]
    (fun idx => if (idx mod n <=? idx / n)%nat then Fin 1 else Fin 0).

Module CausalSelfAttention.
Record t : Type := mk {
  c_attn : Linear.t;
  c_proj : Linear.t;
  n_head : nat;
  n_embd : nat;
  bias : handle     (* the causal mask, a buffer *)
}.

Definition init (rng : rng_oracle) (config : GPTConfig.t) : M t :=
  ok <~ lift (mod_is_zero (GPTConfig.n_embd config) (GPTConfig.n_head config)) ;;
  lift (py_assert ok) ;;~
  c_attn <~ Linear.init rng (GPTConfig.n_embd config)
              (3 * GPTConfig.n_embd config) true ;;
  c_proj <~ Linear.init rng (GPTConfig.n_embd config)
              (GPTConfig.n_embd config) true ;;
  mask <~ alloc (tril_ones (GPTConfig.block_size config)) ;;
  ret (mk c_attn c_proj (GPTConfig.n_head config)
         (GPTConfig.n_embd config) mask).

(** Own parameters and buffers first, then the children in the order of
    their assignment. *)
Definition state_dict (prefix : string) (m : t) : dict handle :=
  (((prefix ++ "bias")%string, bias m) ::
   Linear.state_dict (prefix ++ "c_attn.")%string (c_attn m) ++
   Linear.state_dict (prefix ++ "c_proj.")%string (c_proj m))%list.
End CausalSelfAttention.

Module MLP.
Record t : Type := mk { c_fc : Linear.t; c_proj : Linear.t }.

Definition init (rng : rng_oracle) (config : GPTConfig.t) : M t :=
  c_fc <~ Linear.init rng (GPTConfig.n_embd config)
            (4 * GPTConfig.n_embd config) true ;;
  c_proj <~ Linear.init rng (4 * GPTConfig.n_embd config)
              (GPTConfig.n_embd config) true ;;
  ret (mk c_fc c_proj).

Definition state_dict (prefix : string) (m : t) : dict handle :=
  (Linear.state_dict (prefix ++ "c_fc.")%string (c_fc m) ++
   Linear.state_dict (prefix ++ "c_proj.")%string (c_proj m))%list.
End MLP.

Module Block.
Record t : Type := mk {
  ln_1 : LayerNorm.t;
  attn : CausalSelfAttention.t;
  ln_2 : LayerNorm.t;
  mlp : MLP.t
}.

Definition init (rng : rng_oracle) (config : GPTConfig.t) : M t :=
  ln_1 <~ LayerNorm.init (GPTConfig.n_embd config) ;;
  attn <~ CausalSelfAttention.init rng config ;;
  ln_2 <~ LayerNorm.init (GPTConfig.n_embd config) ;;
  mlp <~ MLP.init rng config ;;
  ret (mk ln_1 attn ln_2 mlp).

Definition state_dict (prefix : string) (m : t) : dict handle :=
  (LayerNorm.state_dict (prefix ++ "ln_1.")%string (ln_1 m) ++
   CausalSelfAttention.state_dict (prefix ++ "attn.")%string (attn m) ++
   LayerNorm.state_dict (prefix ++ "ln_2.")%string (ln_2 m) ++
   MLP.state_dict (prefix ++ "mlp.")%string (mlp m))%list.
End Block.

(** Any module of the tree, as the visitor of [nn.Module.apply] sees it. *)
Inductive nnmodule : Type :=
| MLinear (m : Linear.t)
| MEmbedding (m : Embedding.t)
| MLayerNorm (m : LayerNorm.t)
| MGELU
| MCausalSelfAttention (m : CausalSelfAttention.t)
| MMLP (m : MLP.t)
| MBlock (m : Block.t)
| MModuleList (l : list Block.t)
| MModuleDict
| MGPT.

(** ** Name resolution

    What a name can be bound to, as far as the modelled code cares: a
    function that can serve as the visitor of [apply], or anything else. *)
Inductive pyobj : Type :=
| Callable (f : nnmodule -> M unit)
| Opaque.

Definition namespace : Type := dict pyobj.

(** A name in a function body is looked up in the locals of the function,
    then in the globals of its module, then in the builtins.  The body of
    a class is not a scope of the functions defined in it. *)
Definition lookup_name (locals globals builtins : namespace) (name : string)
  : result pyobj :=
  match get locals name with
  | Some o => Ok o
  | None =>
      match get globals name with
      | Some o => Ok o
      | None =>
          match get builtins name with
          | Some o => Ok o
          | None => Raise NameError
          end
      end
  end.

Definition opaque_names (l : list string) : namespace :=
  map (fun s => (s, Opaque)) l.

(** Every name the file binds at module level, at any point of its
    execution: imports, classes and the variables of the script. *)
Definition module_globals : namespace :=
  opaque_names
    ["math"; "dataclass"; "torch"; "nn"; "F";
     "CausalSelfAttention"; "MLP"; "Block"; "GPTConfig"; "GPT";
     "tiktoken"; "DataLoaderLite"; "device"; "train_loader";
     "model"; "optimizer"; "i"; "x"; "y"; "logits"; "loss"; "sys";
     "num_return_sequences"; "max_length"; "enc"; "tokens";
     "probs"; "topk_probs"; "topk_indices"; "ix"; "xcol"; "decoded"].

(** The builtins the file refers to. *)
Definition builtins : namespace :=
  opaque_names
    ["isinstance"; "print"; "open"; "len"; "range"; "any"; "float";
     "dict"; "super"; "hasattr"].

(** ** GPT *)

Definition string_of_nat (n : nat) : string :=
  NilEmpty.string_of_uint (Nat.to_uint n).

(** [torch.nn.Module.__getattr__] finds parameters, buffers and
    sub-modules; together with the instance fields set in [__init__] and
    the methods of [nn.Module] that the file calls, these are the
    attributes of a module object. *)
Definition module_attributes (m : nnmodule) : list string :=
  (["training"; "forward"; "apply"; "state_dict"; "parameters"; "to";
    "eval"; "register_buffer"] ++
   match m with
   | MLinear _ => ["weight"; "bias"; "in_features"; "out_features"]
   | MEmbedding _ => ["weight"; "num_embeddings"; "embedding_dim"]
   | MLayerNorm _ => ["weight"; "bias"; "normalized_shape"; "eps"]
   | MGELU => ["approximate"]
   | MCausalSelfAttention _ => ["c_attn"; "c_proj"; "n_head"; "n_embd"; "bias"]
   | MMLP _ => ["c_fc"; "gelu"; "c_proj"]
   | MBlock _ => ["ln_1"; "attn"; "ln_2"; "mlp"]
   | MModuleList _ => []
   | MModuleDict => ["wte"; "wpe"; "h"; "ln_f"]
   | MGPT => ["config"; "transformer"; "lm_head"; "_init_weights";
              "from_pretrained"]
   end)%list.

Definition getattr (m : nnmodule) (name : string) : result pyobj :=
  if str_in name (module_attributes m) then Ok Opaque
  else Raise AttributeError.

Definition deref (h : handle) : M tensor :=
  fun st =>
    match read st h with
    | Some v => (Ok v, st)
    | None => (Raise RuntimeError, st)
    end.

Definition assign (h : handle) (v : tensor) : M unit :=
  fun st => (Ok tt, write st h v).

Module GPT.
Record t : Type := mk {
  config : GPTConfig.t;
  wte : Embedding.t;
  wpe : Embedding.t;
  h : list Block.t;
  ln_f : LayerNorm.t;
  lm_head : Linear.t
}.

(** The modules [self.apply] visits, children before parents, the
    children of a module in the order in which they were registered. *)
Definition block_modules (b : Block.t) : list nnmodule :=
  [MLayerNorm (Block.ln_1 b);
   MLinear (CausalSelfAttention.c_attn (Block.attn b));
   MLinear (CausalSelfAttention.c_proj (Block.attn b));
   MCausalSelfAttention (Block.attn b);
   MLayerNorm (Block.ln_2 b);
   MLinear (MLP.c_fc (Block.mlp b));
   MGELU;
   MLinear (MLP.c_proj (Block.mlp b));
   MMLP (Block.mlp b);
   MBlock b].

Definition modules (self : t) : list nnmodule :=
  ([MEmbedding (wte self); MEmbedding (wpe self)] ++
   flat_map block_modules (h self) ++
   [MModuleList (h self); MLayerNorm (ln_f self); MModuleDict;
    MLinear (lm_head self); MGPT])%list.

(** [self.apply(fn)]. *)
Definition apply (fn : pyobj) (self : t) : M unit :=
  match fn with
  | Callable f => mapM f (modules self) ;;~ ret tt
  | Opaque => raise TypeError
  end.

(** [_init_weights(self, module)].  Its first statement evaluates
    [isinstance(module. nn.Linear)]: the single argument is the
    attribute chain [module.nn.Linear], and [isinstance] wants two
    arguments. *)
Definition _init_weights (module : nnmodule) : M unit :=
  lift (getattr module "nn") ;;~
  raise TypeError.

(** The first part of [__init__]: the sub-modules and the weight
    sharing [self.transformer.wte.weight = self.lm_head.weight]. *)
Definition build (rng : rng_oracle) (config : GPTConfig.t) : M t :=
  wte <~ Embedding.init rng (GPTConfig.vocab_size config)
           (GPTConfig.n_embd config) ;;
  wpe <~ Embedding.init rng (GPTConfig.block_size config)
           (GPTConfig.n_embd config) ;;
  h <~ mapM (fun _ => Block.init rng config)
         (seq 0 (GPTConfig.n_layer config)) ;;
  ln_f <~ LayerNorm.init (GPTConfig.n_embd config) ;;
  lm_head <~ Linear.init rng (GPTConfig.n_embd config)
               (GPTConfig.vocab_size config) false ;;
  let wte := Embedding.mk (Linear.weight lm_head) in
  ret (mk config wte wpe h ln_f lm_head).

(** The names local to [__init__]. *)
Definition init_locals : namespace :=
  opaque_names ["self"; "config"; "__class__"].

(** [__init__(self, config)]: the last statement is
    [self.apply(_init_weights)], whose argument is a bare name. *)
Definition init (rng : rng_oracle) (config : GPTConfig.t) : M t :=
  self <~ build rng config ;;
  fn <~ lift (lookup_name init_locals module_globals builtins
                "_init_weights") ;;
  apply fn self ;;~
  ret self.

(** [self.state_dict()]: names in registration order, each with the
    tensor it denotes.  A shared tensor is listed under each of its
    names. *)
Definition state_dict (self : t) : dict handle :=
  (Embedding.state_dict "transformer.wte." (wte self) ++
   Embedding.state_dict "transformer.wpe." (wpe self) ++
   flat_map
     (fun ib =>
        Block.state_dict
          ("transformer.h." ++ string_of_nat (fst ib) ++ ".")%string
          (snd ib))
     (combine (seq 0 (length (h self))) (h self)) ++
   LayerNorm.state_dict "transformer.ln_f." (ln_f self) ++
   Linear.state_dict "lm_head." (lm_head self))%list.

(** *** Checkpoint alignment *)

Definition model_types : list string :=
  ["gpt2"; "gpt2-medium"; "gpt2-large"; "gpt2-xl"].

(** [n_layer], [n_head] and [n_embd] per model type. *)
Definition config_args : dict (nat * nat * nat) :=
  [("gpt2", (12, 12, 768));
   ("gpt2-medium", (24, 16, 1024));
   ("gpt2-large", (36, 20, 1280));
   ("gpt2-xl", (48, 25, 1600))].

(** The configuration [from_pretrained] builds the model with. *)
Definition pretrained_config (model_type : string) : result GPTConfig.t :=
  py_assert (str_in model_type model_types) ;;;
  args <- getitem config_args model_type ;;
  let '(n_layer, n_head, n_embd) := args in
  let vocab_size := 50257 in
  let block_size := 1024 in
  Ok (GPTConfig.mk block_size vocab_size n_layer n_head n_embd).

Definition transposed : list string :=
  ["attn.c_attn.weight"; "attn.c_proj.weight"; "mlp.c_fc.weight";
   "mlp.c_proj.weight"].

(** [any(k.endswith(w) for w in transposed)]. *)
Definition is_transposed (k : string) : bool :=
  existsb (endswith k) transposed.

(** The body of the copy loop for one key [k] of the foreign state
    dictionary. *)
Definition copy_param (sd : dict handle) (sd_hf : dict tensor) (k : string)
  : M unit :=
  if is_transposed k then
    src <~ lift (getitem sd_hf k) ;;
    hd <~ lift (getitem sd k) ;;
    dst <~ deref hd ;;
    lift (py_assert (shape_eqb (rev (shape src)) (shape dst))) ;;~
    src_t <~ lift (transpose src) ;;
    assign hd (copy_ dst src_t)
  else
    src <~ lift (getitem sd_hf k) ;;
    hd <~ lift (getitem sd k) ;;
    dst <~ deref hd ;;
    lift (py_assert (shape_eqb (shape src) (shape dst))) ;;~
    assign hd (copy_ dst src).

(** The model's parameter names: the mask buffers are discarded. *)
Definition sd_keys (sd : dict handle) : list string :=
  filter (fun k => negb (endswith k ".attn.bias")) (keys sd).

(** The foreign parameter names: two kinds of buffers are ignored. *)
Definition sd_keys_hf (sd_hf : dict tensor) : list string :=
  filter (fun k => negb (endswith k ".attn.bias"))
    (filter (fun k => negb (endswith k ".attn.masked_bias")) (keys sd_hf)).

(** The alignment of [from_pretrained]: from the two state dictionaries
    to the end of the copy loop. *)
Definition align (sd : dict handle) (sd_hf : dict tensor) : M unit :=
  lift (py_assert
          (length (sd_keys_hf sd_hf) =? length (sd_keys sd))%nat) ;;~
  mapM (copy_param sd sd_hf) (sd_keys_hf sd_hf) ;;~
  ret tt.

(** [from_pretrained(cls, model_type)].  The model hub is an external
    collaborator: [hub] gives the state dictionary of the checkpoint. *)
Definition from_pretrained (rng : rng_oracle) (hub : string -> dict tensor)
  (model_type : string) : M t :=
  config <~ lift (pretrained_config model_type) ;;
  model <~ init rng config ;;
  align (state_dict model) (hub model_type) ;;~
  ret model.
End GPT.

Close Scope string_scope.

(** ** Arithmetic on scalars

    The special values follow IEEE 754: NaN is absorbing, opposite
    infinities cancel to NaN, an infinity times zero is NaN, a non-zero
    finite value over zero is an infinity and zero over zero is NaN. *)

Definition Rltb (x y : R) : bool := if Rlt_dec x y then true else false.
Definition Reqb (x y : R) : bool := if Req_EM_T x y then true else false.

Definition is_finite (a : scalar) : bool :=
  match a with Fin _ => true | _ => false end.

(** [a == 0]. *)
Definition is_zero (a : scalar) : bool :=
  match a with Fin r => Reqb r 0 | _ => false end.

Definition sneg (a : scalar) : scalar :=
  match a with
  | Fin r => Fin (- r)
  | PInf => NInf
  | NInf => PInf
  | NaN => NaN
  end.

Definition sadd (a b : scalar) : scalar :=
  match a, b with
  | NaN, _ | _, NaN => NaN
  | PInf, NInf | NInf, PInf => NaN
  | PInf, _ | _, PInf => PInf
  | NInf, _ | _, NInf => NInf
  | Fin x, Fin y => Fin (x + y)
  end.

Definition ssub (a b : scalar) : scalar := sadd a (sneg b).

(** An infinity with the sign of [r] times that of [inf]; NaN when [r] is
    zero. *)
Definition signed_inf (inf : scalar) (r : R) : scalar :=
  if Reqb r 0 then NaN
  else if Rltb r 0 then sneg inf else inf.

Definition smul (a b : scalar) : scalar :=
  match a, b with
  | NaN, _ | _, NaN => NaN
  | Fin x, Fin y => Fin (x * y)
  | Fin x, inf => signed_inf inf x
  | inf, Fin y => signed_inf inf y
  | PInf, PInf | NInf, NInf => PInf
  | PInf, NInf | NInf, PInf => NInf
  end.

Definition sdiv (a b : scalar) : scalar :=
  match a, b with
  | NaN, _ | _, NaN => NaN
  | Fin x, Fin y =>
      if Reqb y 0 then signed_inf PInf x else Fin (x / y)
  | Fin _, _ => Fin 0
  | inf, Fin y => if Rltb y 0 then sneg inf else inf
  | _, _ => NaN
  end.

Definition sexp (a : scalar) : scalar :=
  match a with
  | Fin r => Fin (exp r)
  | PInf => PInf
  | NInf => Fin 0
  | NaN => NaN
  end.

(** The maximum of two values; NaN wins. *)
Definition smax (a b : scalar) : scalar :=
  match a, b with
  | NaN, _ | _, NaN => NaN
  | PInf, _ | _, PInf => PInf
  | NInf, c | c, NInf => c
  | Fin x, Fin y => Fin (Rmax x y)
  end.

(** ** Tensor operations on rows *)

(** The sum of the products of two rows, accumulated from zero. *)
Fixpoint dot_acc (acc : scalar) (u v : list scalar) : scalar :=
  match u, v with
  | a :: u', b :: v' => dot_acc (sadd acc (smul a b)) u' v'
  | _, _ => acc
  end.

Definition dot (u v : list scalar) : scalar := dot_acc (Fin 0) u v.

Fixpoint map2 {A B C : Type} (f : A -> B -> C) (l : list A) (l' : list B)
  : list C :=
  match l, l' with
  | a :: l, b :: l' => f a b :: map2 f l l'
  | _, _ => []
  end.

(** [F.linear(row, W, b)]: one output per row of [W]. *)
Definition linear (W : list (list scalar)) (b : list scalar)
  (row : list scalar) : list scalar :=
  map2 (fun w bo => sadd (dot row w) bo) W b.

(** [F.softmax(row, dim=-1)], in its numerically stable form: the maximum
    of the row is subtracted before the exponential. *)
Definition softmax (row : list scalar) : list scalar :=
  let m := fold_right smax NInf row in
  let e := map (fun a => sexp (ssub a m)) row in
  let s := fold_left sadd e (Fin 0) in
  map (fun a => sdiv a s) e.

(** The rows of a matrix and the entries of a vector held in the store. *)
Definition rows_of (r c : nat) (v : tensor) : list (list scalar) :=
  map (fun i => map (fun j => elem v (i * c + j)) (seq 0 c)) (seq 0 r).

Definition entries_of (n : nat) (v : tensor) : list scalar :=
  map (elem v) (seq 0 n).

(** ** The forward pass of causal self-attention *)

Module Attention.

(** What [forward] reads from the module and the store, once the shapes
    have been found compatible. *)
Record params : Type := mkParams {
  W_attn : list (list scalar);
  b_attn : list scalar;
  W_proj : list (list scalar);
  b_proj : list scalar;
  n_embd : nat;
  n_head : nat;
  head_size : nat;                (* C // n_head *)
  masked : nat -> nat -> bool     (* bias[:,:,:T,:T] == 0 at (t, j) *)
}.

(** Weight and bias of a linear layer applied to rows of width [C]. *)
Definition load_linear (st : store) (l : Linear.t) (C : nat)
  : result (list (list scalar) * list scalar * nat) :=
  match read st (Linear.weight l) with
  | None => Raise RuntimeError
  | Some w =>
      match shape w with
      | [out; inn] =>
          if negb (C =? inn) then Raise RuntimeError
          else
            match Linear.bias l with
            | None =>
                Ok (rows_of out inn w, repeat (Fin 0) out, out)
            | Some hb =>
                match read st hb with
                | None => Raise RuntimeError
                | Some b =>
                    if shape_eqb (shape b) [out]
                    then Ok (rows_of out inn w, entries_of out b, out)
                    else Raise RuntimeError
                end
            end
      | _ => Raise RuntimeError
      end
  end.

(** The mask buffer sliced to [T] rows and columns and broadcast to the
    attention matrix: a sliced axis must have length [T] or one. *)
Definition load_mask (st : store) (hmask : handle) (T : nat)
  : result (nat -> nat -> bool) :=
  match read st hmask with
  | None => Raise RuntimeError
  | Some m =>
      match shape m with
      | [1; 1; r; c] =>
          if ((T <=? r) || (r =? 1)) && ((T <=? c) || (c =? 1)) then
            Ok (fun t j =>
                  is_zero (elem m ((if T <=? r then t else 0) * c
                                   + (if T <=? c then j else 0))))
          else Raise RuntimeError
      | _ => Raise RuntimeError
      end
  end.

(** The shape checks of [forward], in the order in which the operations
    perform them, for an input of size [(B, T, C)]. *)
Definition load (st : store) (self : CausalSelfAttention.t) (B T C : nat)
  : result params :=
  (* qkv = self.c_attn(x) *)
  a <- load_linear st (CausalSelfAttention.c_attn self) C ;;
  let '(Wa, ba, out) := a in
  (* q, k, v = qkv.split(self.n_embd, dim=2): a chunk size of zero is
     refused unless the axis is empty, and then gives one chunk *)
  let n := CausalSelfAttention.n_embd self in
  if (n =? 0) && negb (out =? 0) then Raise RuntimeError
  else if negb ((2 * n <? out) && (out <=? 3 * n)) then Raise ValueError
  else
  (* .view(B, T, self.n_head, C // self.n_head) *)
  let nh := CausalSelfAttention.n_head self in
  if nh =? 0 then Raise ZeroDivisionError
  else
  let hs := C / nh in
  if negb ((B * T =? 0) || ((n =? nh * hs) && (out - 2 * n =? nh * hs)))
  then Raise RuntimeError
  (* 1.0 / math.sqrt(k.size(-1)) *)
  else if hs =? 0 then Raise ZeroDivisionError
  else
  (* att.masked_fill(self.bias[:,:,:T,:T] == 0, float('-inf')) *)
  mask <- load_mask st (CausalSelfAttention.bias self) T ;;
  (* y.transpose(1, 2).contiguous().view(B, T, C) *)
  if negb ((B * T =? 0) || (nh * hs =? C)) then Raise RuntimeError
  else
  (* y = self.c_proj(y) *)
  p <- load_linear st (CausalSelfAttention.c_proj self) C ;;
  let '(Wp, bp, _) := p in
  Ok (mkParams Wa ba Wp bp n nh hs mask).

Section Forward.
Variable p : params.

(** The three chunks of [qkv] at one position. *)
Definition q_row (row : list scalar) : list scalar :=
  firstn (n_embd p) (linear (W_attn p) (b_attn p) row).
Definition k_row (row : list scalar) : list scalar :=
  firstn (n_embd p) (skipn (n_embd p) (linear (W_attn p) (b_attn p) row)).
Definition v_row (row : list scalar) : list scalar :=
  firstn (n_embd p)
    (skipn (2 * n_embd p) (linear (W_attn p) (b_attn p) row)).

(** The part of a row that belongs to head [hd]. *)
Definition head_slice (hd : nat) (row : list scalar) : list scalar :=
  firstn (head_size p) (skipn (hd * head_size p) row).

(** [1.0 / math.sqrt(k.size(-1))]. *)
Definition scale : scalar := Fin (1 / sqrt (INR (head_size p))).

(** Row [t] of the masked attention scores of one head. *)
Definition masked_scores (q k : list (list scalar)) (t : nat)
  : list scalar :=
  map (fun j =>
         if masked p t j then NInf
         else smul (dot (nth t q []) (nth j k [])) scale)
    (seq 0 (length k)).

(** Row [t] of [att @ v]. *)
Definition weighted_sum (a : list scalar) (v : list (list scalar))
  : list scalar :=
  map (fun d => dot a (map (fun vj => nth d vj (Fin 0)) v))
    (seq 0 (head_size p)).

(** The output of head [hd] at each position. *)
Definition head_output (q k v : list (list scalar)) (hd : nat)
  : list (list scalar) :=
  let qh := map (head_slice hd) q in
  let kh := map (head_slice hd) k in
  let vh := map (head_slice hd) v in
  map (fun t => weighted_sum (softmax (masked_scores qh kh t)) vh)
    (seq 0 (length q)).

(** One sequence of the batch: [T] rows of [C] features. *)
Definition attend (x : list (list scalar)) : list (list scalar) :=
  let q := map q_row x in
  let k := map k_row x in
  let v := map v_row x in
  let heads := map (head_output q k v) (seq 0 (n_head p)) in
  let y := map (fun t => flat_map (fun yh => nth t yh []) heads)
             (seq 0 (length x)) in
  map (linear (W_proj p) (b_proj p)) y.
End Forward.

(** [forward(self, x)] for [x] of size [(B, T, C)].  The sizes are read
    off the nested lists.  A list with no sequence or no position has
    lost its other sizes, so that only inputs with [B > 0] and [T > 0]
    are represented faithfully; the properties of this function are
    stated for those. *)
Definition forward (st : store) (self : CausalSelfAttention.t)
  (x : list (list (list scalar))) : result (list (list (list scalar))) :=
  let B := length x in
  let T := length (hd [] x) in
  let C := length (hd [] (hd [] x)) in
  p <- load st self B T C ;;
  Ok (map (attend p) x).

(** [x] is a tensor of size [(B, T, C)]. *)
Definition has_size (B T C : nat) (x : list (list (list scalar))) : Prop :=
  length x = B /\
  Forall (fun s => length s = T /\ Forall (fun row => length row = C) s) x.

End Attention.

(** ** Top-k selection in the generation loop *)

Module Sampler.

(** [a < b] in the order of [torch.topk], where NaN is the greatest
    value. *)
Definition scalar_ltb (a b : scalar) : bool :=
  match a, b with
  | NaN, _ => false
  | _, NaN => true
  | PInf, _ => false
  | _, PInf => true
  | _, NInf => false
  | NInf, _ => true
  | Fin x, Fin y => Rltb x y
  end.

Fixpoint insert_desc (x : scalar * nat) (l : list (scalar * nat))
  : list (scalar * nat) :=
  match l with
  | [] => [x]
  | y :: l' =>
      if scalar_ltb (fst y) (fst x) then x :: y :: l'
      else y :: insert_desc x l'
  end.

Definition sort_desc (l : list (scalar * nat)) : list (scalar * nat) :=
  fold_right insert_desc [] l.

(** [torch.topk(row, k, dim=-1)] on one row of the distribution: the [k]
    largest values in decreasing order and their positions; [k] larger
    than the row is an error. *)
Definition topk (row : list scalar) (k : nat)
  : result (list scalar * list nat) :=
  if length row <? k then Raise RuntimeError
  else
    let top := firstn k (sort_desc (combine row (seq 0 (length row)))) in
    Ok (map fst top, map snd top).

(** The selection of the next token of one row, from [torch.topk] to
    [torch.gather].  [draw] is the random choice [torch.multinomial]
    makes among the candidates. *)
Definition select_token (draw : list scalar -> result nat)
  (probs : list scalar) : result nat :=
  r <- topk probs 50 ;;
  let '(topk_probs, topk_indices) := r in
  ix <- draw topk_probs ;;
  match nth_error topk_indices ix with
  | Some tok => Ok tok
  | None => Raise RuntimeError
  end.

End Sampler.

(** ** The forward pass of a block

    Layer normalisation and the activation are library functions,
    evaluated by the formulas of their documentation. *)

Definition ssqrt (a : scalar) : scalar :=
  match a with
  | Fin r => if Rltb r 0 then NaN else Fin (sqrt r)
  | PInf => PInf
  | NInf => NaN
  | NaN => NaN
  end.

Definition stanh (a : scalar) : scalar :=
  match a with
  | Fin r => Fin (tanh r)
  | PInf => Fin 1
  | NInf => Fin (-1)
  | NaN => NaN
  end.

(** [nn.GELU(approximate='tanh')]:
    [0.5 * x * (1 + tanh(sqrt(2/pi) * (x + 0.044715 * x^3)))]. *)
Definition gelu (x : scalar) : scalar :=
  smul (smul (Fin (5 / 10)) x)
    (sadd (Fin 1)
       (stanh (smul (Fin (sqrt (2 / PI)))
                 (sadd x (smul (Fin (44715 / 1000000))
                            (smul (smul x x) x)))))).

(** The sum of a row, accumulated from zero. *)
Definition ssum (l : list scalar) : scalar := fold_left sadd l (Fin 0).

(** [F.layer_norm(row, (n,), w, b, eps=1e-5)] on one row: the mean and
    the biased variance are taken over the row. *)
Definition layer_norm (w b row : list scalar) : list scalar :=
  let n := Fin (INR (length row)) in
  let mean := sdiv (ssum row) n in
  let centred := map (fun a => ssub a mean) row in
  let var := sdiv (ssum (map (fun a => smul a a) centred)) n in
  let denom := ssqrt (sadd var (Fin (1 / 100000))) in
  map2 (fun a wb => sadd (smul (sdiv a denom) (fst wb)) (snd wb))
    centred (combine w b).

Module Forward.

(** Activations of size [(B, T, C)]. *)
Definition tensor3 : Type := list (list (list scalar)).

(** The size of the last axis. *)
Definition width (x : tensor3) : nat := length (hd [] (hd [] x)).

(** A vector of [C] entries held in the store. *)
Definition load_vector (st : store) (h : handle) (C : nat)
  : result (list scalar) :=
  match read st h with
  | None => Raise RuntimeError
  | Some v =>
      if shape_eqb (shape v) [C] then Ok (entries_of C v)
      else Raise RuntimeError
  end.

(** [nn.LayerNorm.forward]: the last axis of the input must have the
    normalised shape, which is the shape of the weight. *)
Definition LayerNorm_forward (st : store) (ln : LayerNorm.t) (x : tensor3)
  : result tensor3 :=
  w <- load_vector st (LayerNorm.weight ln) (width x) ;;
  b <- load_vector st (LayerNorm.bias ln) (width x) ;;
  Ok (map (map (layer_norm w b)) x).

(** [MLP.forward(self, x)]. *)
Definition MLP_forward (st : store) (m : MLP.t) (x : tensor3)
  : result tensor3 :=
  (* x = self.c_fc(x) *)
  fc <- Attention.load_linear st (MLP.c_fc m) (width x) ;;
  let '(W1, b1, out1) := fc in
  (* x = self.gelu(x); x = self.c_proj(x) *)
  pr <- Attention.load_linear st (MLP.c_proj m) out1 ;;
  let '(W2, b2, _) := pr in
  Ok (map (map (fun row => linear W2 b2 (map gelu (linear W1 b1 row)))) x).

(** Two sizes of the last axis that [+] accepts: equal, or one of them
    one, which is then repeated. *)
Definition broadcastable (n m : nat) : bool :=
  (n =? m) || (m =? 1) || (n =? 1).

Definition add_rows (r1 r2 : list scalar) : list scalar :=
  if length r1 =? length r2 then map2 sadd r1 r2
  else if length r2 =? 1 then map (fun a => sadd a (hd NaN r2)) r1
  else map (sadd (hd NaN r1)) r2.

(** [x + y] for two tensors with the same first two axes. *)
Definition add (x y : tensor3) : result tensor3 :=
  if broadcastable (width x) (width y)
  then Ok (map2 (map2 add_rows) x y)
  else Raise RuntimeError.

(** [Block.forward(self, x)]. *)
Definition Block_forward (st : store) (b : Block.t) (x : tensor3)
  : result tensor3 :=
  (* x = x + self.attn(self.ln_1(x)) *)
  a <- LayerNorm_forward st (Block.ln_1 b) x ;;
  y <- Attention.forward st (Block.attn b) a ;;
  x <- add x y ;;
  (* x = x + self.mlp(self.ln_2(x)) *)
  a <- LayerNorm_forward st (Block.ln_2 b) x ;;
  y <- MLP_forward st (Block.mlp b) a ;;
  add x y.

End Forward.

(** ** The forward pass of the model, up to the logits *)

Module GPTForward.
Import Forward.

(** [F.embedding(ids, weight)] for a list of indices: one row of the
    weight per index.  An index outside the table raises; the class of
    that exception depends on the device, and [oob] stands for it. *)
Definition embedding (oob : exn) (st : store) (e : Embedding.t)
  (ids : list Z) : result (list (list scalar)) :=
  match read st (Embedding.weight e) with
  | None => Raise RuntimeError
  | Some w =>
      match shape w with
      | [N; n] =>
          if forallb (fun i => (0 <=? i)%Z && (i <? Z.of_nat N)%Z) ids
          then Ok (map (fun i =>
                          map (fun j => elem w (Z.to_nat i * n + j))
                            (seq 0 n))
                     ids)
          else Raise oob
      | _ => Raise RuntimeError
      end
  end.

(** The same for indices of size [(B, T)]. *)
Fixpoint embedding2 (oob : exn) (st : store) (e : Embedding.t)
  (idx : list (list Z)) : result tensor3 :=
  match idx with
  | [] => Ok []
  | ids :: idx' =>
      s <- embedding oob st e ids ;;
      x <- embedding2 oob st e idx' ;;
      Ok (s :: x)
  end.

(** [tok_emb + pos_emb]: the position embeddings are repeated over the
    batch. *)
Definition add_positions (tok : tensor3) (pos : list (list scalar))
  : result tensor3 :=
  if broadcastable (width tok) (length (hd [] pos))
  then Ok (map (fun s => map2 add_rows s pos) tok)
  else Raise RuntimeError.

(** [for block in self.transformer.h: x = block(x)]. *)
Fixpoint blocks_forward (st : store) (h : list Block.t) (x : tensor3)
  : result tensor3 :=
  match h with
  | [] => Ok x
  | b :: h' =>
      x <- Block_forward st b x ;;
      blocks_forward st h' x
  end.

(** [nn.Linear.forward] on the last axis. *)
Definition Linear_forward (st : store) (l : Linear.t) (x : tensor3)
  : result tensor3 :=
  r <- Attention.load_linear st l (width x) ;;
  let '(W, c, _) := r in
  Ok (map (map (linear W c)) x).

(** Lines 106 to 118 of [GPT.forward(self, idx, targets)]: from the
    token indices of size [(B, T)] to the logits; the cross-entropy of
    lines 119 to 121 is not part of this definition.  The sizes are
    read off the nested lists, so that the properties below are about
    batches with at least one sequence. *)
Definition logits (oob : exn) (st : store) (self : GPT.t)
  (idx : list (list Z)) : result tensor3 :=
  let T := length (hd [] idx) in
  py_assert (T <=? GPTConfig.block_size (GPT.config self)) ;;;
  (* pos = torch.arange(0, T); pos_emb = self.transformer.wpe(pos) *)
  pos_emb <- embedding oob st (GPT.wpe self) (map Z.of_nat (seq 0 T)) ;;
  (* tok_emb = self.transformer.wte(idx) *)
  tok_emb <- embedding2 oob st (GPT.wte self) idx ;;
  x <- add_positions tok_emb pos_emb ;;
  x <- blocks_forward st (GPT.h self) x ;;
  x <- LayerNorm_forward st (GPT.ln_f self) x ;;
  Linear_forward st (GPT.lm_head self) x.

End GPTForward.

(* ================================================================== *)
(** * Part II: verified properties                                     *)
(* ================================================================== *)

(** ** Slices and views *)

Section SliceFacts.
Context {A : Type}.
Implicit Types l : list A.

Lemma py_slice_length l start stop :
  stop <= length l -> length (py_slice l start stop) = stop - start.
Proof.
  intros H. unfold py_slice.
  rewrite length_firstn, length_skipn. lia.
Qed.

Lemma drop_last_py_slice l start stop :
  start < stop -> stop <= length l ->
  drop_last (py_slice l start stop) = py_slice l start (stop - 1).
Proof.
  intros H1 H2. unfold drop_last.
  rewrite py_slice_length by assumption.
  unfold py_slice. rewrite firstn_firstn.
  f_equal. lia.
Qed.

Lemma drop_first_py_slice l start stop :
  drop_first (py_slice l start stop) = py_slice l (S start) stop.
Proof.
  unfold drop_first, py_slice.
  rewrite skipn_firstn_comm, skipn_skipn.
  f_equal. lia.
Qed.

Lemma chunks_length cols rows l : length (chunks cols rows l) = rows.
Proof.
  revert l. induction rows as [|r IH]; intros l; simpl; [easy | now rewrite IH].
Qed.

Lemma chunks_rows cols rows l :
  length l = rows * cols ->
  Forall (fun row => length row = cols) (chunks cols rows l).
Proof.
  revert l. induction rows as [|r IH]; intros l H; simpl.
  - constructor.
  - constructor.
    + rewrite length_firstn. simpl in H. lia.
    + apply IH. rewrite length_skipn. simpl in H. lia.
Qed.

Lemma concat_chunks cols rows l :
  length l = rows * cols -> concat (chunks cols rows l) = l.
Proof.
  revert l. induction rows as [|r IH]; intros l H; simpl.
  - simpl in H. now destruct l.
  - rewrite IH.
    + apply firstn_skipn.
    + rewrite length_skipn. simpl in H. lia.
Qed.

Lemma nth_py_slice l start stop k d :
  k < stop - start ->
  nth k (py_slice l start stop) d = nth (start + k) l d.
Proof.
  intros H. unfold py_slice.
  rewrite nth_firstn.
  destruct (Nat.ltb_spec k (stop - start)); [|lia].
  now rewrite nth_skipn.
Qed.
End SliceFacts.

(** ** DataLoaderLite *)

Module DataLoaderLiteFacts.
Import DataLoaderLite.

(** The window invariant: a full read of [B*T+1] tokens fits at the
    cursor. *)
Definition window_fits (ld : t) : Prop :=
  current_position ld + B ld * T ld + 1 <= length (tokens ld).

(** The cursor after a call, as the source computes it. *)
Definition next_position (ld : t) : nat :=
  if length (tokens ld) <? current_position ld + B ld * T ld + (B ld * T ld + 1)
  then 0 else current_position ld + B ld * T ld.

Lemma next_batch_ok ld :
  window_fits ld ->
  next_batch ld =
    Ok (chunks (T ld) (B ld)
          (py_slice (tokens ld) (current_position ld)
             (current_position ld + B ld * T ld)),
        chunks (T ld) (B ld)
          (py_slice (tokens ld) (S (current_position ld))
             (current_position ld + B ld * T ld + 1)),
        mk (B ld) (T ld) (tokens ld) (next_position ld)).
Proof.
  unfold window_fits, next_batch, next_position, view2. intros H.
  rewrite drop_last_py_slice by lia.
  rewrite drop_first_py_slice.
  rewrite !py_slice_length by lia.
  replace (current_position ld + B ld * T ld + 1 - 1 - current_position ld)
    with (B ld * T ld) by lia.
  replace (current_position ld + B ld * T ld + 1 - S (current_position ld))
    with (B ld * T ld) by lia.
  rewrite Nat.eqb_refl. cbn [bind].
  now replace (current_position ld + B ld * T ld + 1 - 1)
    with (current_position ld + B ld * T ld) by lia.
Qed.

Lemma next_position_fits ld :
  window_fits ld ->
  window_fits (mk (B ld) (T ld) (tokens ld) (next_position ld)).
Proof.
  unfold window_fits, next_position. intros H.
  cbn [B T tokens current_position].
  destruct (Nat.ltb_spec (length (tokens ld))
              (current_position ld + B ld * T ld + (B ld * T ld + 1))); lia.
Qed.

Lemma advance_fits n : forall ld,
  window_fits ld ->
  exists ld', advance n ld = Ok ld' /\ window_fits ld' /\
              B ld' = B ld /\ T ld' = T ld /\ tokens ld' = tokens ld.
Proof.
  induction n as [|n IH]; intros ld H; cbn [advance].
  - now exists ld.
  - rewrite next_batch_ok by assumption. cbn [bind snd].
    destruct (IH _ (next_position_fits H)) as (ld' & E & F & HB & HT & Htok).
    now exists ld'.
Qed.

(** The cursor comes back to zero after finitely many calls: by
    induction on the number of tokens left after the cursor. *)
Lemma advance_wraps : forall m ld,
  length (tokens ld) - current_position ld <= m ->
  window_fits ld -> 0 < B ld * T ld ->
  exists n, 0 < n /\
    advance n ld = Ok (mk (B ld) (T ld) (tokens ld) 0).
Proof.
  induction m as [|m IH]; intros ld Hm Hfit Hpos.
  - unfold window_fits in Hfit. lia.
  - destruct (Nat.ltb_spec (length (tokens ld))
                (current_position ld + B ld * T ld + (B ld * T ld + 1)))
      as [Hlt|Hge].
    + exists 1. split; [lia|]. cbn [advance].
      rewrite next_batch_ok by assumption. cbn [bind snd].
      unfold next_position.
      destruct (Nat.ltb_spec (length (tokens ld))
                  (current_position ld + B ld * T ld + (B ld * T ld + 1)));
        [reflexivity | lia].
    + set (ld1 := mk (B ld) (T ld) (tokens ld) (next_position ld)).
      assert (Hnext : next_position ld = current_position ld + B ld * T ld).
      { unfold next_position.
        destruct (Nat.ltb_spec (length (tokens ld))
                    (current_position ld + B ld * T ld + (B ld * T ld + 1)));
          [lia | reflexivity]. }
      destruct (IH ld1) as (n & Hn & E).
      * unfold ld1. cbn. rewrite Hnext. unfold window_fits in Hfit. lia.
      * apply next_position_fits; assumption.
      * exact Hpos.
      * exists (S n). split; [lia|]. cbn [advance].
        rewrite next_batch_ok by assumption. cbn [bind snd].
        exact E.
Qed.

(** C6.  With a full window at the cursor, [next_batch] returns the
    window [tokens[c : c+B*T]] as input and [tokens[c+1 : c+B*T+1]] as
    target, both viewed as [B] rows of [T] tokens, the target being the
    input moved by one token; the cursor advances by [B*T] and is reset
    to zero exactly when the following read would pass the end of the
    corpus.  From there finitely many calls bring the cursor back to
    zero, where the call returns the input of the first window again. *)
Theorem next_batch_windows ld :
  window_fits ld ->
  (exists x y ld',
      next_batch ld = Ok (x, y, ld') /\
      x = chunks (T ld) (B ld)
            (py_slice (tokens ld) (current_position ld)
               (current_position ld + B ld * T ld)) /\
      y = chunks (T ld) (B ld)
            (py_slice (tokens ld) (current_position ld + 1)
               (current_position ld + B ld * T ld + 1)) /\
      full_shape ld x /\ full_shape ld y /\
      (forall k d, k + 1 < B ld * T ld ->
         nth k (concat y) d = nth (k + 1) (concat x) d) /\
      (forall k d, k < B ld * T ld ->
         nth k (concat y) d = nth (current_position ld + k + 1) (tokens ld) d) /\
      B ld' = B ld /\ T ld' = T ld /\ tokens ld' = tokens ld /\
      (length (tokens ld) < current_position ld + B ld * T ld + (B ld * T ld + 1) ->
         current_position ld' = 0) /\
      (current_position ld + B ld * T ld + (B ld * T ld + 1) <= length (tokens ld) ->
         current_position ld' = current_position ld + B ld * T ld)) /\
  (0 < B ld * T ld ->
   exists n ld',
      0 < n /\ advance n ld = Ok ld' /\ current_position ld' = 0 /\
      next_input ld' = next_input (mk (B ld) (T ld) (tokens ld) 0) /\
      next_input ld' =
        Ok (chunks (T ld) (B ld) (py_slice (tokens ld) 0 (B ld * T ld)))).
Proof.
  intros Hfit. pose proof Hfit as Hfit'. unfold window_fits in Hfit'.
  split.
  - eexists _, _, _. split; [apply next_batch_ok; assumption|].
    replace (current_position ld + 1) with (S (current_position ld)) by lia.
    assert (Lx : length (py_slice (tokens ld) (current_position ld)
                           (current_position ld + B ld * T ld)) = B ld * T ld).
    { rewrite py_slice_length by lia. lia. }
    assert (Ly : length (py_slice (tokens ld) (S (current_position ld))
                           (current_position ld + B ld * T ld + 1)) = B ld * T ld).
    { rewrite py_slice_length by lia. lia. }
    repeat split; cbn [B T tokens current_position].
    + apply chunks_length.
    + now apply chunks_rows.
    + apply chunks_length.
    + now apply chunks_rows.
    + intros k d Hk. rewrite !concat_chunks by assumption.
      rewrite !nth_py_slice by lia. f_equal. lia.
    + intros k d Hk. rewrite concat_chunks by assumption.
      rewrite nth_py_slice by lia. f_equal. lia.
    + intros H. unfold next_position.
      destruct (Nat.ltb_spec (length (tokens ld))
                  (current_position ld + B ld * T ld + (B ld * T ld + 1)));
        [reflexivity | lia].
    + intros H. unfold next_position.
      destruct (Nat.ltb_spec (length (tokens ld))
                  (current_position ld + B ld * T ld + (B ld * T ld + 1)));
        [lia | reflexivity].
  - intros Hpos.
    destruct (@advance_wraps (length (tokens ld)) ld) as (n & Hn & E);
      [lia | assumption | assumption |].
    exists n, (mk (B ld) (T ld) (tokens ld) 0).
    repeat split; try assumption.
    unfold next_input. rewrite next_batch_ok.
    + reflexivity.
    + unfold window_fits. cbn. lia.
Qed.

Lemma next_batch_windows_witness :
  let ld := mk 2 2 [10; 11; 12; 13; 14; 15; 16; 17; 18; 19]%Z 0 in
  next_batch ld = Ok ([[10; 11]; [12; 13]]%Z, [[11; 12]; [13; 14]]%Z,
                      mk 2 2 (tokens ld) 4) /\
  exists n ld', 0 < n /\ advance n ld = Ok ld' /\ current_position ld' = 0 /\
                next_input ld' = Ok [[10; 11]; [12; 13]]%Z.
Proof.
  intros ld.
  assert (Hfit : window_fits ld) by (unfold window_fits; cbn; lia).
  destruct (next_batch_windows Hfit) as [_ Hwrap].
  split; [reflexivity|].
  destruct Hwrap as (n & ld' & Hn & E & Hc & _ & Hin); [cbn; lia|].
  exists n, ld'. repeat split; assumption.
Defined.

(** C9.  When the corpus holds at least [B*T+1] tokens, the loader the
    constructor returns and every loader reached from it by calls of
    [next_batch] keep the cursor inside the corpus with a full window
    after it, and the next call returns full [B] x [T] input and target
    tensors. *)
Theorem cursor_invariant corpus nB nT ld0 n :
  init corpus nB nT = Ok ld0 ->
  nB * nT + 1 <= length corpus ->
  exists ld,
    advance n ld0 = Ok ld /\
    0 <= current_position ld /\
    current_position ld + nB * nT + 1 <= length corpus /\
    exists x y ld',
      next_batch ld = Ok (x, y, ld') /\
      length x = nB /\ Forall (fun row => length row = nT) x /\
      length y = nB /\ Forall (fun row => length row = nT) y.
Proof.
  unfold init. intros Hinit Hlen.
  destruct (nB * nT =? 0); [discriminate|].
  injection Hinit as <-.
  destruct (@advance_fits n (mk nB nT corpus 0))
    as (ld & E & F & HB & HT & Htok).
  { unfold window_fits. cbn. lia. }
  cbn in HB, HT, Htok.
  exists ld. split; [assumption|]. split; [lia|].
  pose proof F as F'. unfold window_fits in F'.
  rewrite HB, HT, Htok in F'. split; [assumption|].
  destruct (next_batch_windows F)
    as [(x & y & ld' & E' & _ & _ & [Lx Rx] & [Ly Ry] & _) _].
  exists x, y, ld'. rewrite HB in Lx, Ly. rewrite HT in Rx, Ry.
  repeat split; assumption.
Qed.

Lemma cursor_invariant_witness :
  exists ld0,
    init [1; 2; 3; 4; 5; 6; 7]%Z 1 3 = Ok ld0 /\
    exists ld, advance 5 ld0 = Ok ld /\
               current_position ld + 1 * 3 + 1 <= 7.
Proof.
  exists (mk 1 3 [1; 2; 3; 4; 5; 6; 7]%Z 0). split; [reflexivity|].
  destruct (@cursor_invariant [1; 2; 3; 4; 5; 6; 7]%Z 1 3 _ 5 eq_refl)
    as (ld & E & _ & H & _).
  - cbn. lia.
  - exists ld. split; [exact E | exact H].
Defined.

(** C7, as the source has it.  The constructor does not look at the
    length of the corpus: it returns a loader with the cursor at zero
    for every corpus as soon as [B*T] is not zero.  When the corpus has
    fewer than [B*T+1] tokens, it is the first call of [next_batch] that
    fails, with the shape error of the view. *)
Theorem init_ignores_corpus_length corpus nB nT :
  0 < nB * nT ->
  init corpus nB nT = Ok (mk nB nT corpus 0) /\
  (length corpus < nB * nT + 1 ->
   next_batch (mk nB nT corpus 0) = Raise RuntimeError).
Proof.
  intros Hpos. split.
  - unfold init. destruct (Nat.eqb_spec (nB * nT) 0); [lia | reflexivity].
  - intros Hshort. unfold next_batch, view2. cbn [B T tokens current_position].
    unfold drop_last, py_slice. cbn [skipn Nat.add Nat.sub].
    rewrite !length_firstn. rewrite Nat.sub_0_r.
    destruct (Nat.eqb_spec
                (Nat.min (Nat.min (nB * nT + 1) (length corpus) - 1)
                   (Nat.min (nB * nT + 1) (length corpus))) (nB * nT));
      [lia | reflexivity].
Qed.

Lemma init_ignores_corpus_length_witness :
  init [1; 2; 3]%Z 2 2 = Ok (mk 2 2 [1; 2; 3]%Z 0) /\
  next_batch (mk 2 2 [1; 2; 3]%Z 0) = Raise RuntimeError.
Proof.
  destruct (@init_ignores_corpus_length [1; 2; 3]%Z 2 2) as [H1 H2].
  - cbn. lia.
  - split; [exact H1 | apply H2; cbn; lia].
Defined.

(** C7 as stated fails: a corpus of three tokens, shorter than the
    [B*T+1 = 129] tokens of one window of the training script, is
    accepted by the constructor. *)
Lemma init_accepts_short_corpus :
  length [1; 2; 3]%Z < 4 * 32 + 1 /\
  is_ok (init [1; 2; 3]%Z 4 32) = true.
Proof. split; [cbn; lia | reflexivity]. Qed.

End DataLoaderLiteFacts.

(** ** The store and dictionaries *)

Lemma read_write_same st h v :
  read st h <> None -> read (write st h v) h = Some v.
Proof.
  unfold read. revert h. induction st as [|x st IH]; intros [|h] H; cbn in *;
    try congruence. now apply IH.
Qed.

Lemma read_write_other st h h' v :
  h <> h' -> read (write st h v) h' = read st h'.
Proof.
  unfold read. revert h h'.
  induction st as [|x st IH]; intros [|h] [|h'] H; cbn; try congruence.
  apply IH. congruence.
Qed.

Lemma get_app {V : Type} (d1 d2 : dict V) k :
  get (d1 ++ d2) k =
  match get d1 k with Some v => Some v | None => get d2 k end.
Proof.
  induction d1 as [|[k' v] d1 IH]; cbn; [reflexivity|].
  now destruct (String.eqb k' k).
Qed.

Lemma get_none {V : Type} (d : dict V) k :
  ~ In k (keys d) -> get d k = None.
Proof.
  induction d as [|[k' v] d IH]; cbn; intros H; [reflexivity|].
  destruct (String.eqb_spec k' k) as [->|_]; [tauto|].
  apply IH. tauto.
Qed.

Lemma get_some_in {V : Type} (d : dict V) k v :
  get d k = Some v -> In k (keys d).
Proof.
  induction d as [|[k' v'] d IH]; cbn; [discriminate|].
  destruct (String.eqb_spec k' k) as [->|_]; [now left|].
  intros H. right. now apply IH.
Qed.

Lemma get_in {V : Type} (d : dict V) k :
  In k (keys d) -> exists v, get d k = Some v.
Proof.
  intros H. destruct (get d k) as [v|] eqn:E; [now exists v|].
  exfalso. revert H E.
  induction d as [|[k' v'] d IH]; cbn; [tauto|].
  destruct (String.eqb_spec k' k) as [->|Hne]; [discriminate|].
  intros [H|H] E; [congruence | now apply IH].
Qed.

Lemma forallb_false_ex {A : Type} (f : A -> bool) (l : list A) :
  forallb f l = false -> exists x, In x l /\ f x = false.
Proof.
  induction l as [|a l IH]; cbn; [discriminate|].
  destruct (f a) eqn:E; cbn.
  - intros H. destruct (IH H) as (x & Hx & Fx). exists x. tauto.
  - intros _. exists a. tauto.
Qed.

Lemma str_in_In s l : str_in s l = true <-> In s l.
Proof.
  unfold str_in. rewrite existsb_exists. split.
  - intros (x & Hx & E). apply String.eqb_eq in E. now subst.
  - intros H. exists s. split; [assumption | apply String.eqb_refl].
Qed.

(** A loop raises as soon as its body raises on one of the items,
    whatever the store is when the item is reached. *)
Lemma mapM_raises {A B : Type} (f : A -> M B) (l : list A) (a : A) :
  In a l ->
  (forall st, is_ok (fst (f a st)) = false) ->
  forall st, is_ok (fst (mapM f l st)) = false.
Proof.
  intros Hin Hf. induction l as [|x l IH]; [destruct Hin|].
  intros st. cbn [mapM]. unfold bindM at 1.
  destruct Hin as [->|Hin].
  - specialize (Hf st). destruct (f a st) as [[b|e] st1]; [discriminate|reflexivity].
  - destruct (f x st) as [[b|e] st1]; [|reflexivity].
    unfold bindM at 1. specialize (IH Hin st1).
    destruct (mapM f l st1) as [[bs|e] st2]; [discriminate|reflexivity].
Qed.

(** ** Construction of the model *)

Module GPTFacts.
Import GPT.
Local Open Scope string_scope.

(** The weight-tying alias: the token embedding and the output
    projection hold the same tensor. *)
Definition tied (self : t) : Prop :=
  Embedding.weight (wte self) = Linear.weight (lm_head self).

Lemma lookup_init_weights :
  lookup_name init_locals module_globals builtins "_init_weights"
  = Raise NameError.
Proof. reflexivity. Qed.

(** [__init__] stops at the lookup of the visitor's name, whatever the
    first part has built. *)
Lemma init_unfold rng config st :
  init rng config st =
  match build rng config st with
  | (Ok _, st') => (Raise NameError, st')
  | (Raise e, st') => (Raise e, st')
  end.
Proof.
  unfold init, bindM. destruct (build rng config st) as [[self|e] st'].
  - unfold lift. now rewrite lookup_init_weights.
  - reflexivity.
Qed.

Lemma build_default rng st :
  is_ok (fst (build rng GPTConfig.default st)) = true.
Proof. vm_compute. reflexivity. Qed.

(** What the first part of [__init__] returns. *)
Lemma build_inv rng config st self st' :
  build rng config st = (Ok self, st') ->
  exists w wpe h ln_f,
    self = mk config (Embedding.mk w) wpe h ln_f (Linear.mk w None) /\
    read st' w <> None.
Proof.
  unfold build. intros H.
  unfold bindM at 1 in H.
  destruct (Embedding.init rng _ _ st) as [[wte0|e] s1]; [|discriminate].
  unfold bindM at 1 in H.
  destruct (Embedding.init rng _ _ s1) as [[wpe0|e] s2]; [|discriminate].
  unfold bindM at 1 in H.
  destruct (mapM _ _ s2) as [[h0|e] s3]; [|discriminate].
  unfold bindM at 1 in H.
  destruct (LayerNorm.init _ s3) as [[ln0|e] s4]; [|discriminate].
  cbn in H. injection H as <- <-.
  exists (length s4), wpe0, h0, ln0. split; [reflexivity|].
  unfold read. rewrite nth_error_app2 by lia.
  rewrite Nat.sub_diag. discriminate.
Qed.

(** C1, evaluated on the source.  The claim asks for an initialisation
    pass at construction.  The constructor never gets that far: its last
    statement looks up the bare name [_init_weights], which is bound in
    no scope of [__init__], so that no configuration yields a model; for
    the default configuration the exception is [NameError].  The method
    of that name would not run either: on every module of the tree it
    raises at its first statement. *)
Theorem init_never_returns :
  (forall rng config st, is_ok (fst (init rng config st)) = false) /\
  (forall rng st, fst (init rng GPTConfig.default st) = Raise NameError) /\
  (forall module st, _init_weights module st = (Raise AttributeError, st)).
Proof.
  split; [|split].
  - intros rng config st. rewrite init_unfold.
    now destruct (build rng config st) as [[self|e] st'].
  - intros rng st. rewrite init_unfold.
    pose proof (build_default rng st) as H.
    destruct (build rng GPTConfig.default st) as [[self|e] st'];
      [reflexivity | discriminate].
  - intros module st. now destruct module.
Qed.

(** *** Weight tying *)

Lemma get_skip {V : Type} (d d' : dict V) k :
  Forall (fun kv => String.eqb (fst kv) k = false) d ->
  get (d ++ d')%list k = get d' k.
Proof.
  induction 1 as [|[k' v] d Hk _ IH]; cbn; [reflexivity|].
  cbn in Hk. now rewrite Hk.
Qed.

Lemma block_keys_not_lm_head prefix b :
  Forall (fun kv => String.eqb (fst kv) "lm_head.weight" = false)
    (Block.state_dict ("transformer.h." ++ prefix) b).
Proof.
  destruct b as [ln1 [[wa [ba|]] [wp [bp|]] nh ne mb] ln2
                   [[wf [bf|]] [wj [bj|]]]];
    cbn; repeat constructor.
Qed.

Lemma state_dict_lm_head self :
  Linear.bias (lm_head self) = None ->
  get (state_dict self) "lm_head.weight"
  = Some (Linear.weight (lm_head self)).
Proof.
  intros Hb. unfold state_dict.
  cbn [Embedding.state_dict app].
  cbn [get String.eqb Ascii.eqb Bool.eqb].
  rewrite get_skip.
  - cbn [LayerNorm.state_dict app get String.eqb Ascii.eqb Bool.eqb].
    unfold Linear.state_dict. rewrite Hb. cbn. reflexivity.
  - apply Forall_flat_map, Forall_forall. intros [i b] _.
    apply block_keys_not_lm_head.
Qed.

(** What lines 79 to 91 leave behind when they run to their end: the
    object holds one tensor under the two names, the two fields being
    the same handle, which is live in the store and is the one both
    names of the state dictionary denote.  A write through either field
    is read back through the other, and a copy the alignment loop makes
    under either name is read back through both.  The constructor then
    raises at line 94. *)
Lemma build_ties_weights rng config st self st' :
  build rng config st = (Ok self, st') ->
  tied self /\
  read st' (Linear.weight (lm_head self)) <> None /\
  get (state_dict self) "transformer.wte.weight"
    = Some (Linear.weight (lm_head self)) /\
  get (state_dict self) "lm_head.weight"
    = Some (Linear.weight (lm_head self)) /\
  (forall s v,
      read s (Linear.weight (lm_head self)) <> None ->
      read (write s (Linear.weight (lm_head self)) v)
        (Embedding.weight (wte self)) = Some v /\
      read (write s (Embedding.weight (wte self)) v)
        (Linear.weight (lm_head self)) = Some v) /\
  init rng config st = (Raise NameError, st') /\
  (forall sd_hf k s s',
      k = "lm_head.weight" \/ k = "transformer.wte.weight" ->
      copy_param (state_dict self) sd_hf k s = (Ok tt, s') ->
      exists src,
        get sd_hf k = Some src /\
        option_map elem (read s' (Embedding.weight (wte self)))
          = Some (elem src) /\
        option_map elem (read s' (Linear.weight (lm_head self)))
          = Some (elem src)).
Proof.
  intros Hbuild.
  destruct (build_inv _ _ _ Hbuild) as (w & wpe0 & h0 & ln0 & -> & Hlive).
  assert (Hlm : get (state_dict (mk config (Embedding.mk w) wpe0 h0 ln0
                                   (Linear.mk w None))) "lm_head.weight"
                = Some w).
  { now apply state_dict_lm_head. }
  cbn [wte lm_head Embedding.weight Linear.weight] in *.
  repeat split.
  - assumption.
  - assumption.
  - intros. now apply read_write_same.
  - intros. now apply read_write_same.
  - rewrite init_unfold, Hbuild. reflexivity.
  - intros sd_hf k s s' Hk Hcopy.
    assert (Hget : get (state_dict (mk config (Embedding.mk w) wpe0 h0 ln0
                                      (Linear.mk w None))) k = Some w).
    { destruct Hk as [-> | ->]; [assumption | reflexivity]. }
    assert (Htr : is_transposed k = false).
    { destruct Hk as [-> | ->]; reflexivity. }
    unfold copy_param in Hcopy. rewrite Htr in Hcopy.
    unfold bindM, lift, getitem, deref, assign in Hcopy.
    rewrite Hget in Hcopy.
    destruct (get sd_hf k) as [src|]; [|discriminate].
    destruct (read s w) as [dst|] eqn:Hr; [|discriminate].
    destruct (py_assert _); [|discriminate].
    injection Hcopy as <-.
    exists src. split; [reflexivity|].
    rewrite read_write_same by congruence. now split.
Qed.

(** C3, evaluated on the source.  The claim is about a constructed
    model.  The constructor does set up the sharing: for the default
    configuration lines 79 to 91 always run to their end and leave one
    live tensor under both fields.  Its last statement then raises
    [NameError] with the store as built, so that the object is
    dropped; no configuration yields a model, and [from_pretrained],
    which calls the constructor before the alignment, yields none
    either.  There is no model whose two weights could stay the same
    tensor. *)
Theorem tied_model_never_constructed :
  (forall rng st,
     exists self st',
       build rng GPTConfig.default st = (Ok self, st') /\
       tied self /\
       read st' (Linear.weight (lm_head self)) <> None /\
       init rng GPTConfig.default st = (Raise NameError, st')) /\
  (forall rng config st, is_ok (fst (init rng config st)) = false) /\
  (forall rng hub model_type st,
     is_ok (fst (from_pretrained rng hub model_type st)) = false).
Proof.
  assert (Hinit : forall rng config st,
            is_ok (fst (init rng config st)) = false).
  { intros rng config st. rewrite init_unfold.
    now destruct (build rng config st) as [[self|e] st']. }
  split; [|split].
  - intros rng st. pose proof (build_default rng st) as Hok.
    destruct (build rng GPTConfig.default st) as [[self|e] st'] eqn:E;
      [|discriminate].
    exists self, st'. split; [reflexivity|].
    destruct (build_ties_weights _ _ _ E) as (H1 & H2 & _ & _ & _ & H6 & _).
    now repeat split.
  - exact Hinit.
  - intros rng hub model_type st. unfold from_pretrained.
    unfold bindM at 1. unfold lift at 1.
    destruct (pretrained_config model_type) as [config|e]; [|reflexivity].
    unfold bindM at 1. specialize (Hinit rng config st).
    destruct (init rng config st) as [[self|e] st']; [discriminate|].
    reflexivity.
Qed.

(** *** Checkpoint alignment *)

Lemma copy_param_missing sd sd_hf k :
  get sd k = None ->
  forall st, is_ok (fst (copy_param sd sd_hf k st)) = false.
Proof.
  intros Hnone st. unfold copy_param, bindM, lift, getitem.
  rewrite Hnone.
  destruct (is_transposed k); now destruct (get sd_hf k).
Qed.

Lemma sd_keys_complete sd k :
  In k (keys sd) -> endswith k ".attn.bias" = false -> In k (sd_keys sd).
Proof.
  intros Hin He. unfold sd_keys. apply filter_In. now rewrite He.
Qed.

Lemma sd_keys_hf_sound sd_hf k :
  In k (sd_keys_hf sd_hf) -> endswith k ".attn.bias" = false.
Proof.
  unfold sd_keys_hf. intros H. apply filter_In in H.
  destruct H as [_ H]. now destruct (endswith k ".attn.bias").
Qed.

(** C4.  With pairwise distinct names in each state dictionary, the
    alignment raises whenever the model's names (mask buffers
    discarded) and the foreign names (the two kinds of buffers ignored)
    are not the same set: by the length assertion, before anything is
    copied, when the two sets differ in size, and inside the copy loop
    when they have the same size. *)
Theorem align_rejects_name_mismatch sd sd_hf st :
  NoDup (keys sd) -> NoDup (keys sd_hf) ->
  ~ (forall k, In k (sd_keys sd) <-> In k (sd_keys_hf sd_hf)) ->
  is_ok (fst (align sd sd_hf st)) = false /\
  (length (sd_keys_hf sd_hf) <> length (sd_keys sd) ->
   align sd sd_hf st = (Raise AssertionError, st)).
Proof.
  intros Nsd Nhf Hdiff.
  assert (Nk : NoDup (sd_keys sd)) by now apply NoDup_filter.
  assert (Nkhf : NoDup (sd_keys_hf sd_hf))
    by now apply NoDup_filter, NoDup_filter.
  unfold align, bindM, lift.
  destruct (Nat.eqb_spec (length (sd_keys_hf sd_hf)) (length (sd_keys sd)))
    as [Hlen|Hlen]; cbn [py_assert].
  2:{ split; [reflexivity | intros _; reflexivity]. }
  split; [|intros H; contradiction].
  destruct (forallb (fun k => str_in k (sd_keys sd)) (sd_keys_hf sd_hf))
    eqn:Hall.
  - exfalso. apply Hdiff.
    assert (Hincl : incl (sd_keys_hf sd_hf) (sd_keys sd)).
    { intros k Hk. rewrite forallb_forall in Hall.
      now apply str_in_In, Hall. }
    intros k. split; [|apply Hincl].
    apply (NoDup_length_incl Nkhf); [lia | assumption].
  - apply forallb_false_ex in Hall. destruct Hall as (k & Hk & Hnot).
    assert (Hmiss : get sd k = None).
    { apply get_none. intros Hin.
      assert (In k (sd_keys sd))
        by (apply sd_keys_complete; [assumption | now apply sd_keys_hf_sound with sd_hf]).
      apply str_in_In in H. congruence. }
    pose proof (mapM_raises (copy_param sd sd_hf) (sd_keys_hf sd_hf) k Hk
                  (copy_param_missing sd sd_hf k Hmiss) st) as Hr.
    destruct (mapM (copy_param sd sd_hf) (sd_keys_hf sd_hf) st)
      as [[u|e] st1]; [discriminate | reflexivity].
Qed.

Lemma align_rejects_name_mismatch_witness :
  let v := mkTensor [2] (fun _ => Fin 0) in
  let sd := [("lm_head.weight", 0)] in
  let sd_hf := [("lm_head.bias", v)] in
  is_ok (fst (align sd sd_hf [v])) = false.
Proof.
  intros v sd sd_hf.
  apply (@align_rejects_name_mismatch sd sd_hf [v]).
  - repeat constructor. cbn. tauto.
  - repeat constructor. cbn. tauto.
  - intros H. destruct (H "lm_head.weight") as [H1 _].
    cbn in H1. destruct H1 as [H1|[]]; [now left | discriminate].
Defined.

Lemma transpose_elem2 src src_t r c i j :
  shape src = [r; c] -> transpose src = Ok src_t ->
  i < r -> j < c ->
  shape src_t = [c; r] /\ elem2 src_t j i = elem2 src i j.
Proof.
  intros Hs Ht Hi Hj. unfold transpose in Ht. rewrite Hs in Ht.
  injection Ht as <-. split; [reflexivity|].
  unfold elem2. cbn [shape elem]. rewrite Hs.
  replace (j * r + i) with (i + j * r) by lia.
  rewrite Nat.Div0.mod_add, Nat.div_add by lia.
  rewrite Nat.mod_small, Nat.div_small by lia.
  f_equal; lia.
Qed.

Lemma shape_eqb_true s1 s2 : shape_eqb s1 s2 = true <-> s1 = s2.
Proof.
  unfold shape_eqb. destruct (list_eq_dec Nat.eq_dec s1 s2); split;
    congruence.
Qed.

(** C5.  For a name the two state dictionaries share, whose target
    tensor is in the store: when the name ends in one of the four
    suffixes, a source shape that is not the reverse of the target
    shape raises the assertion and leaves the store as it is, and a
    copy that succeeds had the reversed shape and wrote the transpose
    of the source in place; for every other name a source shape
    different from the target shape raises the assertion, and with
    equal shapes the elements of the source are written in place. *)
Theorem copy_param_shapes sd sd_hf k src hd dst st :
  get sd_hf k = Some src -> get sd k = Some hd -> read st hd = Some dst ->
  (is_transposed k = true ->
     (rev (shape src) <> shape dst ->
        copy_param sd sd_hf k st = (Raise AssertionError, st)) /\
     (forall st',
        copy_param sd sd_hf k st = (Ok tt, st') ->
        rev (shape src) = shape dst /\
        exists src_t,
          transpose src = Ok src_t /\
          read st' hd = Some (mkTensor (shape dst) (elem src_t)) /\
          forall r c i j stored,
            shape src = [r; c] -> i < r -> j < c ->
            read st' hd = Some stored ->
            shape stored = [c; r] /\ elem2 stored j i = elem2 src i j) /\
     (rev (shape src) = shape dst -> length (shape src) <= 2 ->
        is_ok (fst (copy_param sd sd_hf k st)) = true)) /\
  (is_transposed k = false ->
     (shape src <> shape dst ->
        copy_param sd sd_hf k st = (Raise AssertionError, st)) /\
     (shape src = shape dst ->
        copy_param sd sd_hf k st
        = (Ok tt, write st hd (mkTensor (shape dst) (elem src))) /\
        read (write st hd (mkTensor (shape dst) (elem src))) hd
        = Some (mkTensor (shape src) (elem src)))).
Proof.
  intros Hsrc Hhd Hdst.
  assert (Hlive : read st hd <> None) by congruence.
  split; intros Htr; unfold copy_param; rewrite Htr;
    unfold bindM, lift, getitem, deref, assign;
    rewrite Hsrc, Hhd, Hdst.
  - split; [|split].
    + intros Hne.
      destruct (shape_eqb (rev (shape src)) (shape dst)) eqn:E;
        [apply shape_eqb_true in E; contradiction | reflexivity].
    + intros st' H.
      destruct (shape_eqb (rev (shape src)) (shape dst)) eqn:E;
        [|discriminate].
      apply shape_eqb_true in E. cbn [py_assert] in H.
      destruct (transpose src) as [src_t|e] eqn:Et; [|discriminate].
      injection H as <-. split; [assumption|].
      exists src_t. split; [reflexivity|].
      split; [now apply read_write_same|].
      intros r c i j stored Hs Hi Hj Hread.
      rewrite read_write_same in Hread by assumption.
      injection Hread as <-.
      destruct (@transpose_elem2 src src_t r c i j Hs Et Hi Hj) as [Hst He].
      cbn [copy_ shape]. rewrite <- E, Hs. split; [reflexivity|].
      rewrite <- He. unfold elem2, copy_. cbn [shape elem].
      rewrite <- E, Hs, Hst. reflexivity.
    + intros E Hdim. apply shape_eqb_true in E. rewrite E.
      cbn [py_assert]. unfold transpose.
      destruct (shape src) as [|a [|b [|c l]]]; cbn in Hdim;
        try reflexivity; lia.
  - split.
    + intros Hne.
      destruct (shape_eqb (shape src) (shape dst)) eqn:E;
        [apply shape_eqb_true in E; contradiction | reflexivity].
    + intros E. pose proof E as E'. apply shape_eqb_true in E'.
      rewrite E'. cbn [py_assert]. split; [reflexivity|].
      rewrite read_write_same by assumption. now rewrite E.
Qed.

Lemma copy_param_shapes_witness :
  let src := mkTensor [2; 3] (fun idx => Fin (INR idx)) in
  let dst := mkTensor [3; 2] (fun _ => Fin 0) in
  let k := "transformer.h.0.mlp.c_fc.weight" in
  exists st',
    copy_param [(k, 0)] [(k, src)] k [dst] = (Ok tt, st') /\
    exists stored,
      read st' 0 = Some stored /\
      shape stored = [3; 2] /\
      elem2 stored 2 1 = elem2 src 1 2.
Proof.
  intros src dst k.
  destruct (@copy_param_shapes [(k, 0)] [(k, src)] k src 0 dst [dst]
              eq_refl eq_refl eq_refl) as [Ht _].
  destruct (Ht eq_refl) as (_ & Hok & Hrun).
  destruct (copy_param [(k, 0)] [(k, src)] k [dst]) as [[[]|e] st'] eqn:E.
  - exists st'. split; [reflexivity|].
    destruct (Hok st' eq_refl) as (_ & src_t & _ & Hread & Hel).
    eexists. split; [exact Hread|].
    apply (Hel 2 3 1 2); [reflexivity | lia | lia | exact Hread].
  - specialize (Hrun eq_refl). cbn in Hrun.
    assert (2 <= 2) as H2 by lia. specialize (Hrun H2). discriminate.
Defined.

(** *** The model type *)

(** C10, evaluated on the source.  A model type outside the four known
    ones fails the assertion before anything else happens.  For each of
    the four, the configuration handed to the constructor has a
    vocabulary of 50257 tokens and a block size of 1024; the
    constructor then raises [NameError], so that no model is built. *)
Theorem from_pretrained_model_type rng hub st :
  (forall model_type,
      ~ In model_type model_types ->
      from_pretrained rng hub model_type st = (Raise AssertionError, st)) /\
  (forall model_type,
      In model_type model_types ->
      exists config,
        pretrained_config model_type = Ok config /\
        GPTConfig.vocab_size config = 50257 /\
        GPTConfig.block_size config = 1024 /\
        fst (from_pretrained rng hub model_type st) = Raise NameError).
Proof.
  split.
  - intros model_type Hout.
    unfold from_pretrained, pretrained_config, bindM, lift.
    destruct (str_in model_type model_types) eqn:E;
      [apply str_in_In in E; contradiction | reflexivity].
  - intros model_type Hin.
    assert (Hinit : forall config,
               is_ok (fst (build rng config st)) = true ->
               pretrained_config model_type = Ok config ->
               fst (from_pretrained rng hub model_type st) = Raise NameError).
    { intros config Hb Hc. unfold from_pretrained.
      unfold bindM at 1. unfold lift at 1. rewrite Hc.
      unfold bindM at 1. rewrite init_unfold.
      destruct (build rng config st) as [[self|e] st'];
        [reflexivity | discriminate]. }
    cbn in Hin.
    destruct Hin as [<-|[<-|[<-|[<-|[]]]]];
      (eexists; split; [reflexivity|]; split; [reflexivity|];
       split; [reflexivity|]; eapply Hinit; cycle 1;
       [reflexivity | vm_compute; reflexivity]).
Qed.

End GPTFacts.

(** ** Scalars *)

Lemma Reqb_refl r : Reqb r r = true.
Proof. unfold Reqb. now destruct (Req_dec_T r r). Qed.

Lemma Reqb_neq r s : r <> s -> Reqb r s = false.
Proof. unfold Reqb. intros H. now destruct (Req_dec_T r s). Qed.

(** The attention weight of a masked position is zero, or NaN when the
    row is degenerate. *)
Definition zero_or_nan (a : scalar) : Prop := a = Fin 0 \/ a = NaN.

Lemma masked_weight m s : zero_or_nan (sdiv (sexp (ssub NInf m)) s).
Proof.
  unfold zero_or_nan.
  destruct m as [r| | |]; cbn; destruct s as [y| | |]; cbn; auto.
  all: destruct (Reqb y 0); [|left; f_equal; apply Rdiv_0_l].
  all: unfold signed_inf; rewrite Reqb_refl; now right.
Qed.

(** Such a weight contributes the same term to a sum whatever finite
    value it multiplies. *)
Lemma zero_or_nan_smul a b b' :
  zero_or_nan a -> is_finite b = true -> is_finite b' = true ->
  smul a b = smul a b'.
Proof.
  intros [-> | ->] Hb Hb'; destruct b, b'; try discriminate; cbn.
  - now rewrite !Rmult_0_l.
  - reflexivity.
Qed.

Lemma smul_nan_r a : smul a NaN = NaN.
Proof. now destruct a. Qed.

Lemma sadd_nan_r a : sadd a NaN = NaN.
Proof. now destruct a. Qed.

(** ** Lists *)

Section ListFacts.
Context {A B : Type}.

Lemma nth_map_lt (f : A -> B) l i d d' :
  i < length l -> nth i (map f l) d = f (nth i l d').
Proof.
  intros H. rewrite (nth_indep _ d (f d')) by now rewrite length_map.
  apply map_nth.
Qed.

Lemma flat_map_map (g : A -> B) {C : Type} (f : B -> list C) l :
  flat_map f (map g l) = flat_map (fun a => f (g a)) l.
Proof. induction l as [|a l IH]; cbn; [reflexivity | now rewrite IH]. Qed.

Lemma Forall_firstn (P : A -> Prop) n l : Forall P l -> Forall P (firstn n l).
Proof.
  intros H. revert n. induction H as [|a l Ha _ IH]; intros [|n]; cbn;
    constructor; auto.
Qed.

Lemma Forall_skipn (P : A -> Prop) n l : Forall P l -> Forall P (skipn n l).
Proof.
  intros H. revert n. induction H as [|a l Ha Hl IH]; intros [|n]; cbn;
    auto.
Qed.
End ListFacts.

Lemma firstn_In_aux {A : Type} (x : A) n l : In x (firstn n l) -> In x l.
Proof.
  revert n. induction l as [|a l IH]; intros [|n]; cbn; try tauto.
  intros [H|H]; [now left | right; now apply IH with n].
Qed.

Lemma nth_map_seq {B : Type} (f : nat -> B) n i d :
  i < n -> nth i (map f (seq 0 n)) d = f i.
Proof.
  intros H. rewrite (nth_map_lt f (seq 0 n) d 0) by now rewrite length_seq.
  now rewrite seq_nth.
Qed.

Lemma nth_is_finite l d :
  Forall (fun a => is_finite a = true) l -> is_finite (nth d l (Fin 0)) = true.
Proof.
  intros H. destruct (Nat.lt_ge_cases d (length l)) as [Hlt|Hge].
  - rewrite Forall_forall in H. apply H. now apply nth_In.
  - now rewrite nth_overflow.
Qed.

(** Two sums of products agree when they agree term by term. *)
Lemma dot_acc_ext u : forall v v' acc,
  length v = length v' ->
  (forall j, j < length u -> j < length v ->
     smul (nth j u NaN) (nth j v NaN) = smul (nth j u NaN) (nth j v' NaN)) ->
  dot_acc acc u v = dot_acc acc u v'.
Proof.
  induction u as [|a u IH]; intros v v' acc Hlen Hterm; [reflexivity|].
  destruct v as [|b v], v' as [|b' v']; try discriminate; [reflexivity|].
  cbn [dot_acc].
  pose proof (Hterm 0) as H0. cbn [nth length] in H0.
  rewrite H0 by lia.
  apply IH.
  - cbn in Hlen. lia.
  - intros j Hu Hv. apply (Hterm (S j)); cbn; lia.
Qed.

(** ** Causal self-attention *)

Module AttentionFacts.
Import Attention.

(** The mask hides exactly the later positions. *)
Definition causal_mask (p : params) (T : nat) : Prop :=
  forall t j, t < T -> j < T -> masked p t j = (t <? j).

Lemma softmax_length row : length (softmax row) = length row.
Proof. unfold softmax. now rewrite !length_map. Qed.

Lemma softmax_masked row j :
  j < length row -> nth j row NaN = NInf ->
  zero_or_nan (nth j (softmax row) NaN).
Proof.
  intros Hj Hm. unfold softmax.
  rewrite (nth_map_lt _ _ NaN NaN) by now rewrite length_map.
  rewrite (nth_map_lt _ _ NaN NaN) by assumption.
  rewrite Hm. apply masked_weight.
Qed.

Section Causality.
Variable p : params.
Variables x x' : list (list scalar).
Variable i : nat.

Hypothesis Hlen : length x' = length x.
Hypothesis Hi : i < length x.
Hypothesis Hmask : causal_mask p (length x).
Hypothesis Hagree :
  forall t, t <= i -> nth t x [] = nth t x' [].
Hypothesis Hfin :
  forall j, i < j -> j < length x ->
    Forall (fun a => is_finite a = true) (v_row p (nth j x [])) /\
    Forall (fun a => is_finite a = true) (v_row p (nth j x' [])).

(** The masked scores of position [i] only read the keys up to [i]. *)
Lemma masked_scores_agree hd :
  masked_scores p (map (head_slice p hd) (map (q_row p) x))
    (map (head_slice p hd) (map (k_row p) x)) i
  = masked_scores p (map (head_slice p hd) (map (q_row p) x'))
      (map (head_slice p hd) (map (k_row p) x')) i.
Proof.
  unfold masked_scores. rewrite !length_map, Hlen.
  apply map_ext_in. intros j Hj. apply in_seq in Hj.
  rewrite Hmask by lia.
  destruct (Nat.ltb_spec i j) as [Hlt|Hge]; [reflexivity|].
  rewrite !map_map.
  rewrite !(nth_map_lt _ _ [] []) by lia.
  now rewrite !Hagree by lia.
Qed.

Lemma masked_scores_later hd j :
  i < j -> j < length x ->
  nth j (masked_scores p (map (head_slice p hd) (map (q_row p) x))
           (map (head_slice p hd) (map (k_row p) x)) i) NaN = NInf.
Proof.
  intros Hij Hj. unfold masked_scores. rewrite !length_map.
  rewrite nth_map_seq by assumption.
  rewrite Hmask by lia.
  now destruct (Nat.ltb_spec i j); [|lia].
Qed.

Lemma masked_scores_length q k t :
  length (masked_scores p q k t) = length k.
Proof. unfold masked_scores. now rewrite length_map, length_seq. Qed.

(** Position [i] of the output of one head. *)
Lemma head_output_agree hd :
  nth i (head_output p (map (q_row p) x) (map (k_row p) x)
           (map (v_row p) x) hd) []
  = nth i (head_output p (map (q_row p) x') (map (k_row p) x')
             (map (v_row p) x') hd) [].
Proof.
  unfold head_output. rewrite !length_map, Hlen.
  rewrite !nth_map_seq by assumption.
  rewrite <- masked_scores_agree.
  set (row := masked_scores p _ _ i).
  assert (Hrow : length row = length x).
  { unfold row. now rewrite masked_scores_length, !length_map. }
  unfold weighted_sum. apply map_ext. intros d.
  unfold dot. apply dot_acc_ext.
  - now rewrite !length_map.
  - rewrite softmax_length, Hrow, !length_map. intros j Hj _.
    rewrite !map_map.
    rewrite !(nth_map_lt _ _ NaN []) by lia.
    destruct (Nat.le_gt_cases j i) as [Hle|Hgt].
    + now rewrite Hagree.
    + apply zero_or_nan_smul.
      * apply softmax_masked; [lia|].
        now apply masked_scores_later.
      * apply nth_is_finite. unfold head_slice.
        apply Forall_firstn, Forall_skipn. now apply Hfin.
      * apply nth_is_finite. unfold head_slice.
        apply Forall_firstn, Forall_skipn. now apply Hfin.
Qed.

(** Position [i] of the output for one sequence of the batch. *)
Lemma attend_agree :
  nth i (attend p x) [] = nth i (attend p x') [].
Proof.
  unfold attend. rewrite Hlen.
  rewrite !(nth_map_lt _ _ [] []) by now rewrite length_map, length_seq.
  rewrite !nth_map_seq by assumption.
  f_equal. rewrite !flat_map_map.
  apply flat_map_ext. intros hd. apply head_output_agree.
Qed.
End Causality.

(** *** The mask read from the store *)

Lemma load_masked st self B T C p :
  load st self B T C = Ok p ->
  load_mask st (CausalSelfAttention.bias self) T = Ok (masked p).
Proof.
  unfold load. intros H.
  destruct (load_linear st (CausalSelfAttention.c_attn self) C)
    as [[[Wa ba] out]|e]; [|discriminate].
  cbn [bind] in H.
  repeat match type of H with
         | (if ?c then _ else _) = _ => destruct c; [discriminate|]
         end.
  destruct (load_mask st (CausalSelfAttention.bias self) T) as [m|e];
    [|discriminate].
  cbn [bind] in H.
  repeat match type of H with
         | (if ?c then _ else _) = _ => destruct c; [discriminate|]
         end.
  destruct (load_linear st (CausalSelfAttention.c_proj self) C)
    as [[[Wp bp] out']|e]; [|discriminate].
  cbn [bind] in H. injection H as <-. reflexivity.
Qed.

Lemma load_mask_tril st hmask bs T m :
  read st hmask = Some (tril_ones bs) -> T <= bs ->
  load_mask st hmask T = Ok m ->
  forall t j, t < T -> j < T -> m t j = (t <? j).
Proof.
  unfold load_mask. intros -> HT H. cbn [tril_ones shape] in H.
  destruct (Nat.leb_spec T bs) as [_|]; [|lia].
  cbn [orb andb] in H. injection H as <-.
  intros t j Ht Hj. cbn [elem].
  replace (t * bs + j) with (j + t * bs) by lia.
  rewrite Nat.Div0.mod_add, Nat.div_add by lia.
  rewrite Nat.mod_small, Nat.div_small by lia. cbn [Nat.add].
  destruct (Nat.leb_spec j t), (Nat.ltb_spec t j); try lia; cbn.
  - apply Reqb_neq. lra.
  - apply Reqb_refl.
Qed.

Lemma has_size_nth B T C X b :
  has_size B T C X -> b < B -> length (nth b X []) = T.
Proof.
  intros [HB HX] Hb. rewrite Forall_forall in HX.
  apply HX, nth_In. lia.
Qed.

Lemma has_size_forward st self B T C X p :
  has_size B T C X -> 0 < B -> 0 < T ->
  load st self B T C = Ok p ->
  forward st self X = Ok (map (attend p) X).
Proof.
  intros HX HB HT Hload. unfold forward.
  destruct HX as [HlenB HX].
  destruct X as [|s X]; [cbn in HlenB; lia|].
  inversion HX as [|? ? [Hs Hrows] _]; subst. cbn [hd].
  destruct s as [|row s]; [cbn in HT; lia|].
  inversion Hrows as [|? ? Hrow _]; subst. cbn [hd].
  rewrite Hload. reflexivity.
Qed.

(** C2, as the source has it.  Let the mask buffer be the lower
    triangle the constructor stores, let [X] and [X'] be two inputs of
    size [(B, T, C)] with [T] at most the block size on which the
    forward pass runs, and let them agree on the positions [0..i] of
    every sequence.  If the value projections of both inputs at the
    positions after [i] hold finite numbers only, the two outputs are
    the same at position [i] of every sequence. *)
Theorem causal_attention_finite_values st self bs p B T C X X' i :
  read st (CausalSelfAttention.bias self) = Some (tril_ones bs) ->
  T <= bs ->
  has_size B T C X -> has_size B T C X' ->
  load st self B T C = Ok p ->
  0 < B -> i < T ->
  (forall b t, b < B -> t <= i ->
     nth t (nth b X []) [] = nth t (nth b X' []) []) ->
  (forall b j, b < B -> i < j -> j < T ->
     Forall (fun a => is_finite a = true) (v_row p (nth j (nth b X []) [])) /\
     Forall (fun a => is_finite a = true) (v_row p (nth j (nth b X' []) []))) ->
  exists Y Y',
    forward st self X = Ok Y /\
    forward st self X' = Ok Y' /\
    forall b, b < B -> nth i (nth b Y []) [] = nth i (nth b Y' []) [].
Proof.
  intros Hbuf HT HX HX' Hload HB Hi Hagree Hfin.
  exists (map (attend p) X), (map (attend p) X').
  split; [apply has_size_forward with B T C; auto; lia|].
  split; [apply has_size_forward with B T C; auto; lia|].
  intros b Hb.
  rewrite !(nth_map_lt _ _ [] []) by (destruct HX, HX'; lia).
  pose proof (has_size_nth HX Hb) as Lx.
  pose proof (has_size_nth HX' Hb) as Lx'.
  apply attend_agree.
  - congruence.
  - now rewrite Lx.
  - rewrite Lx. unfold causal_mask.
    apply (load_mask_tril _ _ Hbuf HT).
    now apply load_masked with B C.
  - intros t Ht. now apply Hagree.
  - intros j Hij Hj. rewrite Lx in Hj. now apply Hfin.
Qed.

Lemma causal_attention_finite_values_witness :
  let rng := fun (_ : handle) (_ : nat) => Fin 1 in
  let config := GPTConfig.mk 2 3 1 1 1 in
  let X := [[[Fin 1]; [Fin 1]]] in
  let X' := [[[Fin 1]; [Fin 5]]] in
  exists self st Y Y',
    CausalSelfAttention.init rng config [] = (Ok self, st) /\
    forward st self X = Ok Y /\ forward st self X' = Ok Y' /\
    nth 0 (nth 0 Y []) [] = nth 0 (nth 0 Y' []) [].
Proof.
  intros rng config X X'.
  destruct (CausalSelfAttention.init rng config []) as [[self|e] st] eqn:E;
    cbn in E; [|discriminate].
  injection E as <- <-.
  match goal with
  | |- exists self st Y Y', (Ok ?s0, ?st0) = _ /\ _ =>
      set (self := s0); set (st := st0)
  end.
  destruct (load st self 1 2 1) as [p|e] eqn:Hload;
    [|cbn in Hload; discriminate].
  destruct (@causal_attention_finite_values st self 2 p 1 2 1 X X' 0)
    as (Y & Y' & HY & HY' & Heq).
  - reflexivity.
  - lia.
  - split; [reflexivity|]. repeat constructor.
  - split; [reflexivity|]. repeat constructor.
  - exact Hload.
  - lia.
  - lia.
  - intros b t Hb Ht.
    assert (b = 0) by lia. assert (t = 0) by lia. subst. reflexivity.
  - intros b j Hb Hij Hj.
    assert (b = 0) by lia. assert (j = 1) by lia. subst.
    cbn in Hload. injection Hload as <-.
    split; cbn; repeat constructor.
  - exists self, st, Y, Y'. repeat split; try assumption.
    apply Heq. lia.
Defined.

(** C2 as stated fails.  On a module as the constructor builds it, with
    one head and a block size of two, take two inputs of two positions
    that agree on position 0 and differ on position 1, where the second
    one holds a NaN.  The weight of the masked position is zero, but
    zero times NaN is NaN: the output at position 0 is a number for the
    first input and NaN for the second. *)
Lemma attention_leaks_future_nan :
  let rng := fun (_ : handle) (_ : nat) => Fin 1 in
  let config := GPTConfig.mk 2 3 1 1 1 in
  let X := [[[Fin 1]; [Fin 1]]] in
  let X' := [[[Fin 1]; [NaN]]] in
  exists self st Y Y',
    CausalSelfAttention.init rng config [] = (Ok self, st) /\
    has_size 1 2 1 X /\ has_size 1 2 1 X' /\
    2 <= GPTConfig.block_size config /\
    (forall t, t <= 0 -> nth t (nth 0 X []) [] = nth t (nth 0 X' []) []) /\
    forward st self X = Ok Y /\ forward st self X' = Ok Y' /\
    nth 0 (nth 0 Y []) [] <> nth 0 (nth 0 Y' []) [].
Proof.
  intros rng config X X'.
  eexists _, _, _, _.
  split; [reflexivity|].
  split; [split; [reflexivity | repeat constructor]|].
  split; [split; [reflexivity | repeat constructor]|].
  split; [cbn; lia|].
  split; [intros t Ht; assert (t = 0) by lia; subst; reflexivity|].
  split; [reflexivity|]. split; [reflexivity|].
  cbn. rewrite Reqb_refl, (Reqb_neq (r := 1) (s := 0)) by lra. cbn.
  rewrite smul_nan_r, sadd_nan_r. cbn.
  match goal with
  | |- context [Reqb (0 + exp ?a + 0) 0] =>
      rewrite (Reqb_neq (r := 0 + exp a + 0) (s := 0))
        by (pose proof (exp_pos a); lra)
  end.
  cbn. discriminate.
Qed.

End AttentionFacts.

(** ** Top-k selection *)

Module SamplerFacts.
Import Sampler.

Lemma insert_desc_length x l : length (insert_desc x l) = S (length l).
Proof.
  induction l as [|y l IH]; cbn; [reflexivity|].
  destruct (scalar_ltb (fst y) (fst x)); cbn; [reflexivity | now rewrite IH].
Qed.

Lemma sort_desc_length l : length (sort_desc l) = length l.
Proof.
  induction l as [|x l IH]; [reflexivity|].
  change (sort_desc (x :: l)) with (insert_desc x (sort_desc l)).
  now rewrite insert_desc_length, IH.
Qed.

Lemma insert_desc_In x y l : In y (insert_desc x l) -> y = x \/ In y l.
Proof.
  induction l as [|z l IH]; cbn.
  - intros [H|[]]; auto.
  - destruct (scalar_ltb (fst z) (fst x)); cbn.
    + intros [H|[H|H]]; auto.
    + intros [H|H]; auto. destruct (IH H); auto.
Qed.

Lemma sort_desc_In y l : In y (sort_desc l) -> In y l.
Proof.
  induction l as [|x l IH]; [cbn; tauto|].
  change (sort_desc (x :: l)) with (insert_desc x (sort_desc l)).
  intros H. apply insert_desc_In in H. destruct H as [H|H]; cbn; auto.
Qed.

Lemma combine_seq_In (row : list scalar) : forall s v i,
  In (v, i) (combine row (seq s (length row))) ->
  s <= i /\ nth_error row (i - s) = Some v.
Proof.
  induction row as [|a row IH]; intros s v i; cbn; [tauto|].
  intros [H|H].
  - injection H as <- <-. rewrite Nat.sub_diag. now split.
  - apply IH in H. destruct H as [Hle Hn]. split; [lia|].
    now replace (i - s) with (S (i - S s)) by lia.
Qed.

(** The candidates [torch.topk] returns are entries of the row, each
    with its position. *)
Lemma topk_candidates row k tp ti :
  topk row k = Ok (tp, ti) ->
  length tp = k /\ length ti = k /\
  forall n tok, nth_error ti n = Some tok ->
    tok < length row /\ nth_error tp n = nth_error row tok.
Proof.
  unfold topk. destruct (Nat.ltb_spec (length row) k) as [|Hk];
    [discriminate|].
  intros H. injection H as <- <-.
  set (top := firstn k (sort_desc (combine row (seq 0 (length row))))).
  assert (Ltop : length top = k).
  { unfold top. rewrite length_firstn, sort_desc_length, length_combine,
      length_seq. lia. }
  rewrite !length_map. repeat split; try assumption.
  - rewrite nth_error_map in H.
    destruct (nth_error top n) as [[v i]|] eqn:E; [|discriminate].
    injection H as <-. apply nth_error_In in E.
    unfold top in E. apply firstn_In_aux in E.
    apply sort_desc_In, combine_seq_In in E. destruct E as [_ E].
    rewrite Nat.sub_0_r in E. apply nth_error_Some. congruence.
  - rewrite nth_error_map in H. rewrite nth_error_map.
    destruct (nth_error top n) as [[v i]|] eqn:E; [|discriminate].
    injection H as <-. apply nth_error_In in E.
    unfold top in E. apply firstn_In_aux in E.
    apply sort_desc_In, combine_seq_In in E. destruct E as [_ E].
    rewrite Nat.sub_0_r in E. now rewrite E.
Qed.

(** C8, as the source has it.  The generation loop asks [torch.topk]
    for 50 candidates whatever the size of the distribution: with fewer
    than 50 entries the selection raises, and with at least 50 it keeps
    exactly 50 candidates, among whose positions the next token is
    taken. *)
Theorem topk_is_not_clamped draw probs :
  (length probs < 50 -> select_token draw probs = Raise RuntimeError) /\
  (50 <= length probs ->
   exists tp ti,
     topk probs 50 = Ok (tp, ti) /\
     length tp = 50 /\ length ti = 50 /\
     forall tok, select_token draw probs = Ok tok ->
                 In tok ti /\ tok < length probs).
Proof.
  split.
  - intros Hlt. unfold select_token, topk.
    destruct (Nat.ltb_spec (length probs) 50); [reflexivity | lia].
  - intros Hge.
    destruct (topk probs 50) as [[tp ti]|e] eqn:E.
    + exists tp, ti. split; [reflexivity|].
      destruct (topk_candidates _ _ E) as (Ltp & Lti & Hcand).
      repeat split; try assumption.
      * unfold select_token in H. rewrite E in H. cbn [bind] in H.
        destruct (draw tp) as [ix|e]; [|discriminate]. cbn [bind] in H.
        destruct (nth_error ti ix) as [t|] eqn:En; [|discriminate].
        injection H as <-. now apply nth_error_In with ix.
      * unfold select_token in H. rewrite E in H. cbn [bind] in H.
        destruct (draw tp) as [ix|e]; [|discriminate]. cbn [bind] in H.
        destruct (nth_error ti ix) as [t|] eqn:En; [|discriminate].
        injection H as <-. now apply (Hcand ix).
    + unfold topk in E.
      destruct (Nat.ltb_spec (length probs) 50); [lia | discriminate].
Qed.

Lemma topk_is_not_clamped_witness :
  select_token (fun _ => Ok 0) (repeat (Fin (/ 32)) 32) = Raise RuntimeError /\
  exists tp ti,
    topk (repeat (Fin (/ 64)) 64) 50 = Ok (tp, ti) /\ length ti = 50.
Proof.
  split.
  - apply (proj1 (topk_is_not_clamped (fun _ => Ok 0) (repeat (Fin (/ 32)) 32))).
    cbn. lia.
  - destruct (proj2 (topk_is_not_clamped (fun _ => Ok 0)
                       (repeat (Fin (/ 64)) 64)))
      as (tp & ti & E & _ & L & _).
    + cbn. lia.
    + exists tp, ti. split; [exact E | exact L].
Defined.

(** C8 as stated fails: over a vocabulary of 32 tokens the selection
    does not proceed with 32 candidates, it raises. *)
Lemma select_token_fails_on_small_vocabulary :
  length (repeat (Fin (/ 32)) 32) = 32 /\
  is_ok (select_token (fun _ => Ok 0) (repeat (Fin (/ 32)) 32)) = false /\
  topk (repeat (Fin (/ 32)) 32) 50 = Raise RuntimeError.
Proof. repeat split. Qed.

End SamplerFacts.

(** ** Epochs of the loader *)

Module EpochFacts.
Import DataLoaderLite DataLoaderLiteFacts.

(** The number of calls after which the cursor is back at zero. *)
Definition epoch_length (ld : t) : nat :=
  (length (tokens ld) - 1) / (B ld * T ld).

Lemma advance_linear nB nT toks : forall k c,
  c + k * (nB * nT) + (nB * nT) + 1 <= length toks ->
  advance k (mk nB nT toks c) = Ok (mk nB nT toks (c + k * (nB * nT))).
Proof.
  induction k as [|k IH]; intros c H.
  - cbn [advance]. do 2 f_equal. lia.
  - rewrite Nat.mul_succ_l in H.
    cbn [advance]. rewrite next_batch_ok
      by (unfold window_fits; cbn [B T tokens current_position]; lia).
    cbn [bind snd B T tokens current_position]. unfold next_position.
    cbn [B T tokens current_position].
    destruct (Nat.ltb_spec (length toks) (c + nB * nT + (nB * nT + 1)));
      [lia|].
    rewrite IH by lia. do 2 f_equal. rewrite Nat.mul_succ_l. lia.
Qed.

Lemma advance_reset nB nT toks : forall m c,
  c + S m * (nB * nT) + 1 <= length toks ->
  length toks < c + S m * (nB * nT) + (nB * nT) + 1 ->
  advance (S m) (mk nB nT toks c) = Ok (mk nB nT toks 0).
Proof.
  induction m as [|m IH]; intros c Hfit Hend;
    rewrite Nat.mul_succ_l in Hfit, Hend;
    change (advance (S ?k) ?l) with (r <- next_batch l ;; advance k (snd r));
    (rewrite next_batch_ok
      by (unfold window_fits; cbn [B T tokens current_position]; lia));
    cbn [bind snd]; unfold next_position; cbn [B T tokens current_position];
    destruct (Nat.ltb_spec (length toks) (c + nB * nT + (nB * nT + 1))).
  - reflexivity.
  - cbn [Nat.mul Nat.add] in Hend. lia.
  - lia.
  - apply IH; lia.
Qed.

Lemma epoch_bounds nB nT (toks : list Z) :
  0 < nB * nT -> nB * nT + 1 <= length toks ->
  let n := (length toks - 1) / (nB * nT) in
  0 < n /\ n * (nB * nT) + 1 <= length toks /\
  length toks < n * (nB * nT) + (nB * nT) + 1.
Proof.
  intros Hpos Hlen n.
  pose proof (Nat.div_mod_eq (length toks - 1) (nB * nT)) as Hdm.
  pose proof (Nat.mod_upper_bound (length toks - 1) (nB * nT)) as Hub.
  fold n in Hdm.
  assert (0 < n).
  { apply Nat.div_str_pos. lia. }
  nia.
Qed.

(** X1.  From the start of the corpus, with [B*T > 0] and at least one
    full window, the [k]-th call leaves the cursor at [k*B*T] for every
    [k] below [(len - 1) / (B*T)], and the call that makes
    [(len - 1) / (B*T)] calls in all puts it back to zero: that is the
    number of batches in one pass over the corpus.  It is one less than
    the [len // (B*T)] the constructor prints exactly when [B*T] divides
    the length of the corpus. *)
Theorem epoch_has_fixed_length nB nT toks :
  0 < nB * nT -> nB * nT + 1 <= length toks ->
  let ld := mk nB nT toks 0 in
  let n := epoch_length ld in
  0 < n /\
  (forall k, k < n -> advance k ld = Ok (mk nB nT toks (k * (nB * nT)))) /\
  advance n ld = Ok ld /\
  (forall k, 0 < k < n ->
     exists ld', advance k ld = Ok ld' /\ current_position ld' <> 0) /\
  n = length toks / (nB * nT)
      - (if length toks mod (nB * nT) =? 0 then 1 else 0).
Proof.
  intros Hpos Hlen ld n. unfold n, epoch_length, ld. cbn [B T tokens].
  destruct (epoch_bounds nB nT toks Hpos Hlen) as (Hn & Hfit & Hend).
  set (m := (length toks - 1) / (nB * nT)) in *.
  split; [assumption|]. split; [|split; [|split]].
  - intros k Hk. rewrite advance_linear by nia. reflexivity.
  - destruct m as [|m']; [lia|]. apply advance_reset; lia.
  - intros k [Hk0 Hk]. eexists. split.
    + apply advance_linear. nia.
    + cbn [current_position]. nia.
  - pose proof (Nat.div_mod_eq (length toks) (nB * nT)) as Hdm.
    pose proof (Nat.mod_upper_bound (length toks) (nB * nT)) as Hub.
    specialize (Hub ltac:(lia)).
    generalize dependent (length toks / (nB * nT)).
    generalize dependent (length toks mod (nB * nT)).
    generalize dependent (nB * nT). clear ld n.
    intros bt Hpos Hlen m Hn Hfit Hend r Hr q Hdm.
    destruct (Nat.eqb_spec r 0) as [E|E].
    + subst r. assert (q = S m) by nia. lia.
    + assert (q = m) by nia. lia.
Qed.

Lemma epoch_has_fixed_length_witness :
  advance 2 (mk 2 2 [1; 2; 3; 4; 5; 6; 7; 8; 9]%Z 0)
  = Ok (mk 2 2 [1; 2; 3; 4; 5; 6; 7; 8; 9]%Z 0).
Proof.
  destruct (@epoch_has_fixed_length 2 2 [1; 2; 3; 4; 5; 6; 7; 8; 9]%Z)
    as (_ & _ & H & _); [cbn; lia | cbn; lia |].
  exact H.
Defined.

Lemma firstn_add_skipn (A : Type) (n m : nat) : forall l : list A,
  (firstn n l ++ firstn m (skipn n l))%list = firstn (n + m) l.
Proof.
  induction n as [|n IH]; intros [|a l]; cbn [firstn skipn app Nat.add];
    try reflexivity.
  - now rewrite firstn_nil.
  - now rewrite IH.
Qed.

Lemma py_slice_app (A : Type) (l : list A) a b c :
  a <= b -> b <= c ->
  (py_slice l a b ++ py_slice l b c)%list = py_slice l a c.
Proof.
  intros Hab Hbc. unfold py_slice.
  assert (E : skipn b l = skipn (b - a) (skipn a l)).
  { rewrite skipn_skipn. f_equal. lia. }
  rewrite E, firstn_add_skipn. f_equal. lia.
Qed.

Lemma batches_from nB nT toks : forall k c,
  c + k * (nB * nT) + 1 <= length toks ->
  exists bs ld',
    batches k (mk nB nT toks c) = Ok (bs, ld') /\
    length bs = k /\
    flatten (map fst bs) = py_slice toks c (c + k * (nB * nT)) /\
    flatten (map snd bs) = py_slice toks (S c) (c + k * (nB * nT) + 1).
Proof.
  induction k as [|k IH]; intros c H.
  - eexists _, _. split; [reflexivity|]. split; [reflexivity|].
    unfold flatten, py_slice. cbn [map concat fst snd Nat.mul].
    rewrite !Nat.add_0_r.
    replace (c - c) with 0 by lia. replace (c + 1 - S c) with 0 by lia.
    now split.
  - rewrite Nat.mul_succ_l in H |- *.
    cbn [batches]. rewrite next_batch_ok
      by (unfold window_fits; cbn [B T tokens current_position]; lia).
    cbn [bind snd fst B T tokens current_position].
    assert (Hcat : forall a,
      a + nB * nT <= length toks ->
      concat (chunks nT nB (py_slice toks a (a + nB * nT)))
      = py_slice toks a (a + nB * nT)).
    { intros a Ha. apply concat_chunks.
      rewrite py_slice_length by lia. lia. }
    destruct k as [|k].
    + eexists _, _. cbn [batches bind fst snd].
      split; [reflexivity|]. split; [reflexivity|].
      unfold flatten. cbn [map concat fst snd Nat.mul].
      rewrite !app_nil_r. rewrite Hcat by lia.
      replace (c + nB * nT + 1) with (S c + nB * nT) by lia.
      rewrite Hcat by lia.
      split; f_equal; lia.
    + unfold next_position. cbn [B T tokens current_position].
      rewrite Nat.mul_succ_l in H.
      destruct (Nat.ltb_spec (length toks) (c + nB * nT + (nB * nT + 1)));
        [lia|].
      destruct (IH (c + nB * nT)) as (bs & ld' & E & Hl & Hx & Hy).
      { rewrite Nat.mul_succ_l. lia. }
      rewrite E. cbn [bind fst snd].
      eexists _, _. split; [reflexivity|].
      split; [cbn [length]; now rewrite Hl|].
      unfold flatten in *. cbn [map concat fst snd].
      rewrite Hx, Hy. rewrite Hcat by lia.
      replace (c + nB * nT + 1) with (S c + nB * nT) by lia.
      rewrite Hcat by lia.
      split.
      * rewrite py_slice_app by lia. f_equal. lia.
      * rewrite py_slice_app by lia. f_equal. lia.
Qed.

(** X2.  The batches of successive calls tile the corpus: when [k]
    windows and the one token after them fit, the [k] calls made from
    the start of the corpus all succeed, their inputs read in order are
    the first [k*B*T] tokens of the corpus, each token once, and their
    targets read in order are the [k*B*T] tokens after the first one. *)
Theorem batches_tile_corpus nB nT toks k :
  k * (nB * nT) + 1 <= length toks ->
  exists bs ld',
    batches k (mk nB nT toks 0) = Ok (bs, ld') /\
    length bs = k /\
    flatten (map fst bs) = firstn (k * (nB * nT)) toks /\
    flatten (map snd bs) = firstn (k * (nB * nT)) (skipn 1 toks).
Proof.
  intros H.
  destruct (@batches_from nB nT toks k 0) as (bs & ld' & E & Hl & Hx & Hy);
    [lia|].
  exists bs, ld'. repeat split; try assumption.
  - rewrite Hx. unfold py_slice. cbn [skipn Nat.add]. f_equal. lia.
  - rewrite Hy. unfold py_slice. f_equal. lia.
Qed.

Lemma batches_tile_corpus_witness :
  exists bs ld',
    batches 2 (mk 1 2 [10; 11; 12; 13; 14; 15]%Z 0) = Ok (bs, ld') /\
    length bs = 2 /\
    flatten (map fst bs) = [10; 11; 12; 13]%Z /\
    flatten (map snd bs) = [11; 12; 13; 14]%Z.
Proof.
  apply (@batches_tile_corpus 1 2 [10; 11; 12; 13; 14; 15]%Z 2).
  cbn. lia.
Defined.

End EpochFacts.

(** ** Construction and first use of the attention module *)

Lemma read_app_l (st l : store) h :
  h < length st -> read (st ++ l) h = read st h.
Proof. intros H. unfold read. now rewrite nth_error_app1. Qed.

Lemma read_app_r (st l : store) k :
  read (st ++ l) (length st + k) = nth_error l k.
Proof.
  unfold read. rewrite nth_error_app2 by lia. f_equal. lia.
Qed.

Lemma map2_length {A B C : Type} (f : A -> B -> C) : forall l l',
  length l = length l' -> length (map2 f l l') = length l.
Proof.
  induction l as [|a l IH]; intros [|b l'] H; cbn in *;
    try reflexivity; try discriminate.
  now rewrite IH by lia.
Qed.

Module ConstructionFacts.
Import Attention AttentionFacts.

(** What a successful call of the constructor leaves behind: the module
    and five new tensors, in the order of their creation. *)
Lemma attention_init_inv rng config st self st' :
  CausalSelfAttention.init rng config st = (Ok self, st') ->
  let n := GPTConfig.n_embd config in
  GPTConfig.n_head config <> 0 /\ n mod GPTConfig.n_head config = 0 /\
  self = CausalSelfAttention.mk
           (Linear.mk (length st) (Some (length st + 1)))
           (Linear.mk (length st + 2) (Some (length st + 3)))
           (GPTConfig.n_head config) n (length st + 4) /\
  exists f1 f2 f3 f4,
    st' = (st ++ [mkTensor [3 * n; n] f1; mkTensor [3 * n] f2;
                  mkTensor [n; n] f3; mkTensor [n] f4;
                  tril_ones (GPTConfig.block_size config)])%list.
Proof.
  intros H n. unfold CausalSelfAttention.init, mod_is_zero in H.
  unfold bindM at 1 in H. unfold lift at 1 in H.
  destruct (Nat.eqb_spec (GPTConfig.n_head config) 0) as [|Hnh];
    [discriminate|].
  unfold bindM at 1 in H. unfold lift at 1 in H.
  destruct (Nat.eqb_spec (GPTConfig.n_embd config mod GPTConfig.n_head config) 0)
    as [Hmod|]; [|discriminate].
  cbn in H. injection H as <- <-.
  split; [assumption|]. split; [assumption|].
  rewrite !length_app. cbn [length].
  split.
  - rewrite <- !Nat.add_assoc. reflexivity.
  - eexists _, _, _, _. rewrite <- !app_assoc. cbn [app]. reflexivity.
Qed.

Lemma div_exact_pos n nh :
  0 < n -> nh <> 0 -> n mod nh = 0 -> n = nh * (n / nh) /\ 0 < n / nh.
Proof.
  intros Hn Hnh Hmod. pose proof (Nat.div_mod_eq n nh) as H.
  rewrite Hmod in H. split; [lia|].
  destruct (n / nh); [lia | lia].
Qed.

Lemma load_linear_built st l C out f g k :
  Linear.weight l = length st + k ->
  Linear.bias l = Some (length st + S k) ->
  forall pre post,
  length pre = k ->
  load_linear (st ++ pre ++ mkTensor [out; C] f :: mkTensor [out] g :: post)
    l C
  = Ok (rows_of out C (mkTensor [out; C] f),
        entries_of out (mkTensor [out] g), out).
Proof.
  intros Hw Hb pre post Hk. unfold load_linear. rewrite Hw, Hb. subst k.
  rewrite !read_app_r.
  assert (E1 : forall a b : tensor,
            nth_error (pre ++ a :: b :: post) (length pre) = Some a).
  { intros a b. rewrite nth_error_app2 by lia. now rewrite Nat.sub_diag. }
  assert (E2 : forall a b : tensor,
            nth_error (pre ++ a :: b :: post) (S (length pre)) = Some b).
  { intros a b. rewrite nth_error_app2 by lia.
    now replace (S (length pre) - length pre) with 1 by lia. }
  rewrite E1, E2. cbn [shape].
  rewrite Nat.eqb_refl. cbn [negb].
  unfold shape_eqb. destruct (list_eq_dec Nat.eq_dec [out] [out]); [|congruence].
  reflexivity.
Qed.

Lemma load_built rng config st self st' nB nT :
  CausalSelfAttention.init rng config st = (Ok self, st') ->
  0 < GPTConfig.n_embd config -> 0 < nB -> 0 < nT ->
  exists Wa ba Wp bp,
    length Wp = GPTConfig.n_embd config /\
    length bp = GPTConfig.n_embd config /\
    load st' self nB nT (GPTConfig.n_embd config) =
      m <- load_mask st' (CausalSelfAttention.bias self) nT ;;
      Ok (mkParams Wa ba Wp bp (GPTConfig.n_embd config)
            (GPTConfig.n_head config)
            (GPTConfig.n_embd config / GPTConfig.n_head config) m).
Proof.
  intros Hinit Hn HB HT.
  destruct (attention_init_inv _ _ _ Hinit) as (Hnh & Hmod & -> & f1 & f2 & f3 & f4 & ->).
  destruct (div_exact_pos Hn Hnh Hmod) as [Hdiv Hhs].
  set (n := GPTConfig.n_embd config) in *.
  set (nh := GPTConfig.n_head config) in *.
  eexists _, _, _, _. split; [|split]; cycle 2.
  - unfold load. cbn [CausalSelfAttention.c_attn CausalSelfAttention.c_proj
      CausalSelfAttention.n_embd CausalSelfAttention.n_head
      CausalSelfAttention.bias].
    pose proof (@load_linear_built st
                  (Linear.mk (length st) (Some (length st + 1))) n (3 * n)
                  f1 f2 0 ltac:(cbn; lia) ltac:(cbn; f_equal; lia) []
                  [mkTensor [n; n] f3; mkTensor [n] f4;
                   tril_ones (GPTConfig.block_size config)] eq_refl) as E1.
    cbn [app] in E1. rewrite E1. clear E1.
    cbn [bind].
    destruct (Nat.eqb_spec n 0); [lia|].
    destruct (Nat.ltb_spec (2 * n) (3 * n)); [|lia].
    destruct (Nat.leb_spec (3 * n) (3 * n)); [|lia].
    cbn [andb negb].
    destruct (Nat.eqb_spec nh 0); [contradiction|].
    destruct (Nat.eqb_spec (nB * nT) 0); [nia|].
    destruct (Nat.eqb_spec n (nh * (n / nh))); [|lia].
    destruct (Nat.eqb_spec (3 * n - 2 * n) (nh * (n / nh))); [|lia].
    cbn [andb orb negb].
    destruct (Nat.eqb_spec (n / nh) 0); [lia|].
    destruct (Nat.eqb_spec (nh * (n / nh)) n); [|lia].
    cbn [negb].
    pose proof (@load_linear_built st
                  (Linear.mk (length st + 2) (Some (length st + 3))) n n
                  f3 f4 2 eq_refl ltac:(cbn; f_equal; lia)
                  [mkTensor [3 * n; n] f1; mkTensor [3 * n] f2]
                  [tril_ones (GPTConfig.block_size config)] eq_refl) as E2.
    cbn [app] in E2. rewrite E2. clear E2.
    reflexivity.
  - unfold rows_of. now rewrite length_map, length_seq.
  - unfold entries_of. now rewrite length_map, length_seq.
Qed.

Lemma attend_size p x C :
  length (W_proj p) = C -> length (b_proj p) = C ->
  length (attend p x) = length x /\
  Forall (fun row => length row = C) (attend p x).
Proof.
  intros HW Hb. unfold attend. split.
  - now rewrite !length_map, length_seq.
  - apply Forall_forall. intros row Hin.
    apply in_map_iff in Hin. destruct Hin as (y & <- & _).
    unfold linear. rewrite map2_length; congruence.
Qed.

Lemma bias_built rng config st self st' :
  CausalSelfAttention.init rng config st = (Ok self, st') ->
  read st' (CausalSelfAttention.bias self)
  = Some (tril_ones (GPTConfig.block_size config)).
Proof.
  intros Hinit.
  destruct (attention_init_inv _ _ _ Hinit)
    as (_ & _ & -> & f1 & f2 & f3 & f4 & ->).
  cbn [CausalSelfAttention.bias]. now rewrite read_app_r.
Qed.

Lemma forward_unfold st self nB nT C X :
  has_size nB nT C X -> 0 < nB -> 0 < nT ->
  forward st self X
  = (p <- load st self nB nT C ;; Ok (map (attend p) X)).
Proof.
  intros [HlenB HX] HB HT.
  destruct X as [|s X]; [cbn in HlenB; lia|].
  inversion HX as [|? ? [Hs Hrows] _].
  destruct s as [|row s]; [cbn in Hs; lia|].
  inversion Hrows as [|? ? Hrow _].
  unfold forward. cbn [hd]. rewrite HlenB, Hs, Hrow. reflexivity.
Qed.


(** X3.  Construction and forward pass fit together.  A module that
    [CausalSelfAttention(config)] returns, with [n_embd > 0], passes
    every shape check of [forward] on every input of size
    [(B, T, n_embd)] with [B, T > 0] and [T <= block_size]: the heads
    have [n_embd / n_head] features and cover the [n_embd] features
    exactly, the mask read from the buffer hides exactly the later
    positions, and the output has the size of the input. *)
Theorem built_attention_accepts rng config st self st' nB nT X :
  CausalSelfAttention.init rng config st = (Ok self, st') ->
  0 < GPTConfig.n_embd config ->
  has_size nB nT (GPTConfig.n_embd config) X ->
  0 < nB -> 0 < nT -> nT <= GPTConfig.block_size config ->
  exists p Y,
    load st' self nB nT (GPTConfig.n_embd config) = Ok p /\
    causal_mask p nT /\
    head_size p = GPTConfig.n_embd config / GPTConfig.n_head config /\
    n_head p * head_size p = GPTConfig.n_embd config /\
    forward st' self X = Ok Y /\
    has_size nB nT (GPTConfig.n_embd config) Y.
Proof.
  intros Hinit Hn HX HB HT Hbs.
  destruct (load_built _ _ _ Hinit Hn HB HT)
    as (Wa & ba & Wp & bp & LW & Lb & Hload).
  pose proof (bias_built _ _ _ Hinit) as Hbuf.
  destruct (attention_init_inv _ _ _ Hinit) as (Hnh & Hmod & _).
  destruct (div_exact_pos Hn Hnh Hmod) as [Hdiv _].
  destruct (load_mask st' (CausalSelfAttention.bias self) nT) as [m|e] eqn:Hm.
  2:{ exfalso. unfold load_mask in Hm. rewrite Hbuf in Hm.
      cbn [tril_ones shape] in Hm.
      destruct (Nat.leb_spec nT (GPTConfig.block_size config)); [|lia].
      discriminate. }
  cbn [bind] in Hload.
  eexists _, _. split; [exact Hload|].
  split; [|split; [reflexivity|split; [cbn; lia|split]]].
  - unfold causal_mask. cbn [masked].
    exact (load_mask_tril _ _ Hbuf Hbs Hm).
  - exact (@has_size_forward st' self nB nT _ X _ HX HB HT Hload).
  - destruct HX as [HlenB HX]. split; [now rewrite length_map|].
    apply Forall_forall. intros s Hin.
    apply in_map_iff in Hin. destruct Hin as (x & <- & Hx).
    rewrite Forall_forall in HX. destruct (HX _ Hx) as [Hlx _].
    destruct (@attend_size
                (mkParams Wa ba Wp bp (GPTConfig.n_embd config)
                   (GPTConfig.n_head config)
                   (GPTConfig.n_embd config / GPTConfig.n_head config) m)
                x (GPTConfig.n_embd config) LW Lb) as [L1 L2].
    split; [congruence | exact L2].
Qed.

Lemma built_attention_accepts_witness :
  let rng := fun (_ : handle) (_ : nat) => Fin 1 in
  let config := GPTConfig.mk 2 3 1 1 1 in
  exists self st' Y,
    CausalSelfAttention.init rng config [] = (Ok self, st') /\
    forward st' self [[[Fin 1]; [Fin 2]]] = Ok Y /\
    has_size 1 2 1 Y.
Proof.
  intros rng config.
  destruct (CausalSelfAttention.init rng config []) as [[self|e] st'] eqn:E;
    [|cbn in E; discriminate].
  destruct (@built_attention_accepts rng config [] self st' 1 2
              [[[Fin 1]; [Fin 2]]] E)
    as (p & Y & _ & _ & _ & _ & HY & HS).
  - cbn. lia.
  - split; [reflexivity | repeat constructor].
  - lia.
  - lia.
  - cbn. lia.
  - exists self, st', Y. split; [reflexivity|]. split; [exact HY | exact HS].
Defined.

(** X4.  The attention module does not check the sequence length
    against the block size itself.  On a module the constructor
    returns, an input with more positions than [block_size] fails with
    a shape error in [masked_fill], unless [block_size] is one: then
    the buffer is a single one, it is broadcast over the whole score
    matrix, the pass succeeds and no position is masked. *)
Theorem built_attention_long_input rng config st self st' nB nT X :
  CausalSelfAttention.init rng config st = (Ok self, st') ->
  0 < GPTConfig.n_embd config ->
  has_size nB nT (GPTConfig.n_embd config) X ->
  0 < nB -> GPTConfig.block_size config < nT ->
  (GPTConfig.block_size config <> 1 ->
     forward st' self X = Raise RuntimeError) /\
  (GPTConfig.block_size config = 1 ->
     exists p, load st' self nB nT (GPTConfig.n_embd config) = Ok p /\
       (forall t j, masked p t j = false) /\
       forward st' self X = Ok (map (attend p) X)).
Proof.
  intros Hinit Hn HX HB Hbs.
  assert (HT : 0 < nT) by lia.
  destruct (load_built _ _ _ Hinit Hn HB HT)
    as (Wa & ba & Wp & bp & LW & Lb & Hload).
  pose proof (bias_built _ _ _ Hinit) as Hbuf.
  pose proof (@forward_unfold st' self nB nT _ X HX HB HT) as Hfwd.
  unfold load_mask in Hload. rewrite Hbuf in Hload.
  cbn [tril_ones shape elem] in Hload.
  destruct (Nat.leb_spec nT (GPTConfig.block_size config)); [lia|].
  cbn [orb] in Hload.
  split.
  - intros Hne. rewrite Hfwd, Hload.
    destruct (Nat.eqb_spec (GPTConfig.block_size config) 1); [contradiction|].
    reflexivity.
  - intros Hone. rewrite Hfwd, Hload.
    destruct (Nat.eqb_spec (GPTConfig.block_size config) 1); [|contradiction].
    cbn [andb bind]. eexists. split; [reflexivity|].
    split; [|reflexivity].
    intros t j. cbn [masked]. rewrite Hone. cbn.
    apply Reqb_neq. lra.
Qed.

Lemma built_attention_long_input_witness :
  let rng := fun (_ : handle) (_ : nat) => Fin 1 in
  let config := GPTConfig.mk 2 3 1 1 1 in
  exists self st',
    CausalSelfAttention.init rng config [] = (Ok self, st') /\
    forward st' self [[[Fin 1]; [Fin 2]; [Fin 3]]] = Raise RuntimeError.
Proof.
  intros rng config.
  destruct (CausalSelfAttention.init rng config []) as [[self|e] st'] eqn:E;
    [|cbn in E; discriminate].
  destruct (@built_attention_long_input rng config [] self st' 1 3
              [[[Fin 1]; [Fin 2]; [Fin 3]]] E) as [H _].
  - cbn. lia.
  - split; [reflexivity | repeat constructor].
  - lia.
  - cbn. lia.
  - exists self, st'. split; [reflexivity|]. apply H. cbn. lia.
Defined.

(** *** The head check, from the attention module up to the model *)

Lemma attention_init_outcome rng config st :
  let nh := GPTConfig.n_head config in
  let n := GPTConfig.n_embd config in
  (nh = 0 ->
   CausalSelfAttention.init rng config st = (Raise ZeroDivisionError, st)) /\
  (nh <> 0 -> n mod nh <> 0 ->
   CausalSelfAttention.init rng config st = (Raise AssertionError, st)) /\
  (nh <> 0 -> n mod nh = 0 ->
   is_ok (fst (CausalSelfAttention.init rng config st)) = true).
Proof.
  intros nh n. unfold CausalSelfAttention.init, mod_is_zero.
  unfold bindM at 1. unfold lift at 1. fold nh n.
  destruct (Nat.eqb_spec nh 0) as [Hz|Hnz].
  - split; [reflexivity|]. split; intros; contradiction.
  - unfold bindM at 1. unfold lift at 1.
    destruct (Nat.eqb_spec (n mod nh) 0) as [Hm|Hm]; cbn [py_assert].
    + split; [intros; contradiction|]. split; [intros; contradiction|].
      intros _ _. reflexivity.
    + split; [intros; contradiction|]. split; [reflexivity|].
      intros; contradiction.
Qed.

Lemma block_init_outcome rng config st :
  let nh := GPTConfig.n_head config in
  let n := GPTConfig.n_embd config in
  (nh = 0 -> fst (Block.init rng config st) = Raise ZeroDivisionError) /\
  (nh <> 0 -> n mod nh <> 0 ->
   fst (Block.init rng config st) = Raise AssertionError) /\
  (nh <> 0 -> n mod nh = 0 ->
   is_ok (fst (Block.init rng config st)) = true).
Proof.
  intros nh n.
  remember (Block.init rng config st) as r eqn:Er.
  unfold Block.init in Er. unfold bindM at 1 in Er.
  destruct (LayerNorm.init (GPTConfig.n_embd config) st) as [r1 s1] eqn:E1.
  cbn in E1. injection E1 as <- <-.
  unfold bindM at 1 in Er.
  match type of Er with
  | context [CausalSelfAttention.init rng config ?s] =>
      destruct (attention_init_outcome rng config s) as (H0 & H1 & H2);
      destruct (CausalSelfAttention.init rng config s) as [[a|e] s2]
  end; subst r.
  - split; [|split].
    + intros Hz. specialize (H0 Hz). discriminate.
    + intros Hnz Hm. specialize (H1 Hnz Hm). discriminate.
    + intros _ _. reflexivity.
  - split; [|split].
    + intros Hz. specialize (H0 Hz). now injection H0 as -> _.
    + intros Hnz Hm. specialize (H1 Hnz Hm). now injection H1 as -> _.
    + intros Hnz Hm. specialize (H2 Hnz Hm). discriminate.
Qed.

Lemma mapM_ok {A B : Type} (f : A -> M B) (l : list A) :
  (forall a st, is_ok (fst (f a st)) = true) ->
  forall st, is_ok (fst (mapM f l st)) = true.
Proof.
  intros Hf. induction l as [|a l IH]; intros st; [reflexivity|].
  cbn [mapM]. unfold bindM at 1. specialize (Hf a st).
  destruct (f a st) as [[b|e] s1]; [|discriminate].
  unfold bindM at 1. specialize (IH s1).
  destruct (mapM f l s1) as [[bs|e] s2]; [reflexivity | discriminate].
Qed.

Lemma mapM_first_raises {A B : Type} (f : A -> M B) a l e :
  (forall st, fst (f a st) = Raise e) ->
  forall st, fst (mapM f (a :: l) st) = Raise e.
Proof.
  intros Hf st. cbn [mapM]. unfold bindM at 1. specialize (Hf st).
  destruct (f a st) as [[b|e'] s1]; cbn in Hf |- *; [discriminate|].
  now injection Hf as ->.
Qed.

(** X5.  The only check of the configuration at construction is the
    assertion of the attention module, so it is run once per layer and
    not at all without layers.  Building the sub-modules succeeds when
    there is no layer or [n_head] is non-zero and divides [n_embd];
    with at least one layer it raises [ZeroDivisionError] for
    [n_head = 0] and [AssertionError] when [n_head] does not divide
    [n_embd]. *)
Theorem build_checks_heads rng config st :
  let nh := GPTConfig.n_head config in
  let n := GPTConfig.n_embd config in
  (GPTConfig.n_layer config = 0 \/ (nh <> 0 /\ n mod nh = 0) ->
   is_ok (fst (GPT.build rng config st)) = true) /\
  (0 < GPTConfig.n_layer config -> nh = 0 ->
   fst (GPT.build rng config st) = Raise ZeroDivisionError) /\
  (0 < GPTConfig.n_layer config -> nh <> 0 -> n mod nh <> 0 ->
   fst (GPT.build rng config st) = Raise AssertionError).
Proof.
  intros nh n.
  remember (GPT.build rng config st) as r eqn:Er.
  unfold GPT.build in Er. unfold bindM at 1 in Er.
  destruct (Embedding.init rng (GPTConfig.vocab_size config)
              (GPTConfig.n_embd config) st) as [r1 s1] eqn:E1.
  cbn in E1. injection E1 as <- <-.
  unfold bindM at 1 in Er.
  match type of Er with
  | context [Embedding.init rng (GPTConfig.block_size config) ?c ?s] =>
      destruct (Embedding.init rng (GPTConfig.block_size config) c s)
        as [r2 s2] eqn:E2
  end.
  cbn in E2. injection E2 as <- <-.
  unfold bindM at 1 in Er.
  match type of Er with
  | context [mapM ?f ?l ?s] => set (s0 := s) in Er; set (body := f) in Er
  end.
  destruct (mapM body (seq 0 (GPTConfig.n_layer config)) s0)
    as [[h|e] s3] eqn:Eh; subst r.
  - split; [|split].
    + intros _. reflexivity.
    + intros Hl Hz. exfalso.
      destruct (GPTConfig.n_layer config) as [|L]; [lia|]. cbn [seq] in Eh.
      assert (Hr : fst (mapM body (0 :: seq 1 L) s0) = Raise ZeroDivisionError).
      { apply mapM_first_raises. intros s.
        destruct (block_init_outcome rng config s) as (H0 & _ & _).
        now apply H0. }
      rewrite Eh in Hr. discriminate.
    + intros Hl Hnz Hm. exfalso.
      destruct (GPTConfig.n_layer config) as [|L]; [lia|]. cbn [seq] in Eh.
      assert (Hr : fst (mapM body (0 :: seq 1 L) s0) = Raise AssertionError).
      { apply mapM_first_raises. intros s.
        destruct (block_init_outcome rng config s) as (_ & H1 & _).
        now apply H1. }
      rewrite Eh in Hr. discriminate.
  - split; [|split].
    + intros [Hz | [Hnz Hm]]; exfalso.
      * rewrite Hz in Eh. discriminate.
      * assert (Hok : is_ok (fst (mapM body
                                    (seq 0 (GPTConfig.n_layer config)) s0))
                      = true).
        { apply mapM_ok. intros a s.
          destruct (block_init_outcome rng config s) as (_ & _ & H2).
          now apply H2. }
        rewrite Eh in Hok. discriminate.
    + intros Hl Hz.
      destruct (GPTConfig.n_layer config) as [|L]; [lia|]. cbn [seq] in Eh.
      assert (Hr : fst (mapM body (0 :: seq 1 L) s0) = Raise ZeroDivisionError).
      { apply mapM_first_raises. intros s.
        destruct (block_init_outcome rng config s) as (H0 & _ & _).
        now apply H0. }
      rewrite Eh in Hr. cbn in Hr |- *. now injection Hr as ->.
    + intros Hl Hnz Hm.
      destruct (GPTConfig.n_layer config) as [|L]; [lia|]. cbn [seq] in Eh.
      assert (Hr : fst (mapM body (0 :: seq 1 L) s0) = Raise AssertionError).
      { apply mapM_first_raises. intros s.
        destruct (block_init_outcome rng config s) as (_ & H1 & _).
        now apply H1. }
      rewrite Eh in Hr. cbn in Hr |- *. now injection Hr as ->.
Qed.

Lemma build_checks_heads_witness :
  fst (GPT.build (fun _ _ => Fin 0) (GPTConfig.mk 8 16 2 3 4) [])
  = Raise AssertionError.
Proof.
  destruct (build_checks_heads (fun _ _ => Fin 0) (GPTConfig.mk 8 16 2 3 4) [])
    as (_ & _ & H).
  apply H; cbn; [lia | discriminate | discriminate].
Defined.

End ConstructionFacts.

(** ** The copy loop of the alignment as a whole *)

Module AlignFacts.
Import GPT GPTFacts.
Local Open Scope string_scope.

(** Two stores with the same handles and the same shape behind each. *)
Definition same_shapes (st st' : store) : Prop :=
  length st' = length st /\
  forall h, option_map shape (read st' h) = option_map shape (read st h).

(** The checks of the loop body for the name [k], read off the store
    the loop starts from: both dictionaries have the name, the target is
    in the store, and the shapes agree, reversed for a transposed
    weight, which [t()] accepts up to two dimensions. *)
Definition conforms (st : store) (sd : dict handle) (sd_hf : dict tensor)
  (k : string) : bool :=
  match get sd_hf k, get sd k with
  | Some src, Some hd =>
      match read st hd with
      | Some dst =>
          if is_transposed k
          then shape_eqb (rev (shape src)) (shape dst)
               && (length (shape src) <=? 2)%nat
          else shape_eqb (shape src) (shape dst)
      | None => false
      end
  | _, _ => false
  end.

(** The tensor the loop body writes for the name [k]. *)
Definition source_of (k : string) (src : tensor) : result tensor :=
  if is_transposed k then transpose src else Ok src.

Lemma same_shapes_refl st : same_shapes st st.
Proof. now split. Qed.

Lemma same_shapes_trans st1 st2 st3 :
  same_shapes st1 st2 -> same_shapes st2 st3 -> same_shapes st1 st3.
Proof.
  intros [L1 H1] [L2 H2]. split; [congruence|].
  intros h. now rewrite H2, H1.
Qed.

Lemma write_length st : forall h v, length (write st h v) = length st.
Proof.
  induction st as [|x st IH]; intros [|h] v; cbn; try reflexivity.
  now rewrite IH.
Qed.

Lemma write_same_shapes st h dst v :
  read st h = Some dst -> shape v = shape dst ->
  same_shapes st (write st h v).
Proof.
  intros Hr Hs. split; [apply write_length|].
  intros h'. destruct (Nat.eq_dec h h') as [<-|Hne].
  - rewrite read_write_same by congruence. rewrite Hr. cbn. now rewrite Hs.
  - now rewrite read_write_other.
Qed.

(** One run of the loop body: either the store is as before, or the
    target of [k] was overwritten in place by the source. *)
Lemma copy_param_cases sd sd_hf k st :
  (is_ok (fst (copy_param sd sd_hf k st)) = false /\
   snd (copy_param sd sd_hf k st) = st /\
   conforms st sd sd_hf k = false) \/
  (exists src hd dst v,
     get sd_hf k = Some src /\ get sd k = Some hd /\
     read st hd = Some dst /\ source_of k src = Ok v /\
     conforms st sd sd_hf k = true /\
     copy_param sd sd_hf k st
     = (Ok tt, write st hd (mkTensor (shape dst) (elem v)))).
Proof.
  unfold copy_param, conforms, source_of.
  destruct (is_transposed k) eqn:Etr;
    unfold bindM, lift, getitem, deref, assign;
    (destruct (get sd_hf k) as [src|]; [|left; now repeat split]);
    (destruct (get sd k) as [hd|]; [|left; now repeat split]);
    (destruct (read st hd) as [dst|] eqn:Er; [|left; now repeat split]).
  - destruct (shape_eqb (rev (shape src)) (shape dst)) eqn:E;
      cbn [py_assert andb]; [|left; now repeat split].
    unfold transpose.
    destruct (shape src) as [|a [|b [|c l]]] eqn:Es; cbn [length Nat.leb];
      try (right; exists src, hd, dst; eexists; rewrite Es;
           repeat split; (exact Er || reflexivity)).
    left. now repeat split.
  - destruct (shape_eqb (shape src) (shape dst)) eqn:E;
      cbn [py_assert]; [|left; now repeat split].
    right. eexists _, _, _, _. repeat split; (exact Er || reflexivity).
Qed.

Lemma copy_param_same_shapes sd sd_hf k st :
  same_shapes st (snd (copy_param sd sd_hf k st)).
Proof.
  destruct (copy_param_cases sd sd_hf k st)
    as [(_ & -> & _) | (src & hd & dst & v & _ & _ & Hr & _ & _ & ->)].
  - apply same_shapes_refl.
  - cbn [snd]. now apply write_same_shapes with dst.
Qed.

Lemma copy_param_untouched sd sd_hf k st h :
  get sd k <> Some h ->
  read (snd (copy_param sd sd_hf k st)) h = read st h.
Proof.
  intros Hne.
  destruct (copy_param_cases sd sd_hf k st)
    as [(_ & -> & _) | (src & hd & dst & v & _ & Hhd & _ & _ & _ & ->)].
  - reflexivity.
  - cbn [snd]. apply read_write_other. congruence.
Qed.

Lemma conforms_same_shapes st st' sd sd_hf k :
  same_shapes st st' -> conforms st' sd sd_hf k = conforms st sd sd_hf k.
Proof.
  intros [_ H]. unfold conforms.
  destruct (get sd_hf k) as [src|]; [|reflexivity].
  destruct (get sd k) as [hd|]; [|reflexivity].
  specialize (H hd).
  destruct (read st' hd) as [d'|], (read st hd) as [d|]; cbn in H;
    try discriminate; try reflexivity.
  injection H as ->. reflexivity.
Qed.

Lemma forallb_pointwise {A : Type} (f g : A -> bool) l :
  (forall a, f a = g a) -> forallb f l = forallb g l.
Proof.
  intros H. induction l as [|a l IH]; cbn; [reflexivity|].
  now rewrite H, IH.
Qed.

Section Loop.
Variables (sd : dict handle) (sd_hf : dict tensor).

Lemma loop_same_shapes l : forall st,
  same_shapes st (snd (mapM (copy_param sd sd_hf) l st)).
Proof.
  induction l as [|k l IH]; intros st; [apply same_shapes_refl|].
  cbn [mapM]. unfold bindM at 1.
  pose proof (copy_param_same_shapes sd sd_hf k st) as H1.
  destruct (copy_param sd sd_hf k st) as [[u|e] s1]; cbn [snd] in H1 |- *;
    [|exact H1].
  unfold bindM at 1. specialize (IH s1).
  destruct (mapM (copy_param sd sd_hf) l s1) as [[us|e] s2];
    cbn [snd ret] in IH |- *; now apply same_shapes_trans with s1.
Qed.

Lemma loop_untouched l h : forall st,
  (forall k, In k l -> get sd k <> Some h) ->
  read (snd (mapM (copy_param sd sd_hf) l st)) h = read st h.
Proof.
  induction l as [|k l IH]; intros st Hno; [reflexivity|].
  cbn [mapM]. unfold bindM at 1.
  pose proof (@copy_param_untouched sd sd_hf k st h
                (Hno k (or_introl eq_refl))) as H1.
  destruct (copy_param sd sd_hf k st) as [[u|e] s1]; cbn [snd] in H1 |- *;
    [|exact H1].
  unfold bindM at 1.
  specialize (IH s1 (fun k' Hk' => Hno k' (or_intror Hk'))).
  destruct (mapM (copy_param sd sd_hf) l s1) as [[us|e] s2];
    cbn [snd ret] in IH |- *; congruence.
Qed.

Lemma loop_ok l : forall st,
  is_ok (fst (mapM (copy_param sd sd_hf) l st))
  = forallb (conforms st sd sd_hf) l.
Proof.
  induction l as [|k l IH]; intros st; [reflexivity|].
  cbn [mapM forallb]. unfold bindM at 1.
  pose proof (copy_param_same_shapes sd sd_hf k st) as Hsh.
  destruct (copy_param_cases sd sd_hf k st)
    as [(Hf & _ & ->) | (src & hd & dst & v & _ & _ & _ & _ & -> & E)].
  - destruct (copy_param sd sd_hf k st) as [[u|e] s1]; [discriminate|].
    reflexivity.
  - rewrite E in Hsh |- *. cbn [snd] in Hsh. unfold bindM at 1.
    specialize (IH (write st hd (mkTensor (shape dst) (elem v)))).
    rewrite (@forallb_pointwise _ (conforms _ sd sd_hf) (conforms st sd sd_hf)) in IH
      by (intros k'; now apply conforms_same_shapes).
    cbn [andb]. rewrite <- IH.
    now destruct (mapM (copy_param sd sd_hf) l _) as [[us|e] s2].
Qed.

Lemma loop_values l : forall st st' us,
  mapM (copy_param sd sd_hf) l st = (Ok us, st') ->
  forall k, In k l ->
  (forall k', In k' l -> get sd k' = get sd k -> k' = k) ->
  exists src hd dst v,
    get sd_hf k = Some src /\ get sd k = Some hd /\
    read st hd = Some dst /\ source_of k src = Ok v /\
    read st' hd = Some (mkTensor (shape dst) (elem v)).
Proof.
  induction l as [|a l IH]; intros st st' us Hrun k Hin Huniq;
    [destruct Hin|].
  cbn [mapM] in Hrun. unfold bindM at 1 in Hrun.
  destruct (copy_param_cases sd sd_hf a st)
    as [(Hf & _ & _) | (src & hd & dst & v & Hsrc & Hhd & Hr & Hv & _ & E)].
  { destruct (copy_param sd sd_hf a st) as [[u|e] s1]; discriminate. }
  rewrite E in Hrun. unfold bindM at 1 in Hrun.
  set (s1 := write st hd (mkTensor (shape dst) (elem v))) in *.
  destruct (mapM (copy_param sd sd_hf) l s1) as [[us1|e] s2] eqn:Erest;
    [|discriminate].
  cbn [ret] in Hrun. injection Hrun as _ <-.
  assert (Hs2 : s2 = snd (mapM (copy_param sd sd_hf) l s1))
    by now rewrite Erest.
  destruct (in_dec string_dec k l) as [Hkl|Hkl].
  - (* the name comes again later: the last copy decides *)
    destruct (IH s1 s2 us1 Erest k Hkl
                (fun k' Hk' => Huniq k' (or_intror Hk')))
      as (src' & hd' & dst' & v' & Hsrc' & Hhd' & Hr' & Hv' & Hfin).
    exists src', hd'.
    destruct (string_dec a k) as [->|Hak].
    + assert (hd' = hd) by congruence. subst hd'.
      unfold s1 in Hr'. rewrite read_write_same in Hr' by congruence.
      injection Hr' as <-. cbn [shape] in Hfin.
      exists dst, v'. now repeat split.
    + assert (Hne : hd <> hd').
      { intros ->. apply Hak, Huniq; [now left | congruence]. }
      unfold s1 in Hr'. rewrite read_write_other in Hr' by assumption.
      exists dst', v'. now repeat split.
  - (* this is the only copy for the name *)
    destruct Hin as [->|Hin]; [|contradiction].
    exists src, hd, dst, v. repeat split; try assumption.
    rewrite Hs2, loop_untouched.
    + unfold s1. apply read_write_same. congruence.
    + intros k' Hk' Hget. apply Hkl.
      rewrite <- (Huniq k' (or_intror Hk')); [assumption | congruence].
Qed.
End Loop.

Lemma align_unfold sd sd_hf st :
  align sd sd_hf st =
  if (length (sd_keys_hf sd_hf) =? length (sd_keys sd))%nat then
    match mapM (copy_param sd sd_hf) (sd_keys_hf sd_hf) st with
    | (Ok _, st') => (Ok tt, st')
    | (Raise e, st') => (Raise e, st')
    end
  else (Raise AssertionError, st).
Proof.
  unfold align, bindM, lift.
  destruct (length (sd_keys_hf sd_hf) =? length (sd_keys sd))%nat;
    cbn [py_assert]; [|reflexivity].
  now destruct (mapM (copy_param sd sd_hf) (sd_keys_hf sd_hf) st)
    as [[us|e] s1].
Qed.

(** X6.  The alignment works in place and only on what the checkpoint
    names.  Whether it succeeds or stops at an exception, the store has
    the same handles afterwards and every tensor has the shape it had;
    a tensor that no checkpoint name denotes in the model's state
    dictionary has its contents unchanged; in particular the causal
    mask of a layer, when only its name ending in [.attn.bias] denotes
    it, is never overwritten, also when the checkpoint has a tensor of
    that name. *)
Theorem align_frame sd sd_hf st :
  same_shapes st (snd (align sd sd_hf st)) /\
  (forall h,
     (forall k, In k (sd_keys_hf sd_hf) -> get sd k <> Some h) ->
     read (snd (align sd sd_hf st)) h = read st h) /\
  (forall k h,
     endswith k ".attn.bias" = true -> get sd k = Some h ->
     (forall k', get sd k' = Some h -> k' = k) ->
     read (snd (align sd sd_hf st)) h = read st h).
Proof.
  assert (Hsnd : snd (align sd sd_hf st) = st \/
                 snd (align sd sd_hf st)
                 = snd (mapM (copy_param sd sd_hf) (sd_keys_hf sd_hf) st)).
  { rewrite align_unfold.
    destruct (length (sd_keys_hf sd_hf) =? length (sd_keys sd))%nat;
      [|now left].
    right. now destruct (mapM (copy_param sd sd_hf) (sd_keys_hf sd_hf) st)
      as [[us|e] s1]. }
  assert (Hframe : forall h,
            (forall k, In k (sd_keys_hf sd_hf) -> get sd k <> Some h) ->
            read (snd (align sd sd_hf st)) h = read st h).
  { intros h Hno. destruct Hsnd as [-> | ->]; [reflexivity|].
    now apply loop_untouched. }
  split; [|split].
  - destruct Hsnd as [-> | ->];
      [apply same_shapes_refl | apply loop_same_shapes].
  - exact Hframe.
  - intros k h Hend Hget Honly. apply Hframe.
    intros k' Hin Hget'. apply Honly in Hget'. subst k'.
    apply sd_keys_hf_sound in Hin. congruence.
Qed.

Lemma align_frame_witness :
  let mask := mkTensor [1; 1; 1; 1] (fun _ => Fin 1) in
  let w := mkTensor [2] (fun _ => Fin 0) in
  let v := mkTensor [2] (fun _ => Fin 7) in
  let sd := [("transformer.h.0.attn.bias", 0); ("lm_head.weight", 1)] in
  let sd_hf := [("transformer.h.0.attn.bias", v); ("lm_head.weight", v)] in
  read (snd (align sd sd_hf [mask; w])) 0 = Some mask.
Proof.
  intros mask w v sd sd_hf.
  destruct (align_frame sd sd_hf [mask; w]) as (_ & _ & H).
  apply (H "transformer.h.0.attn.bias" 0); [reflexivity | reflexivity |].
  intros k' Hk'. unfold sd in Hk'. cbn [get] in Hk'.
  destruct (String.eqb "transformer.h.0.attn.bias" k') eqn:E1.
  - apply String.eqb_eq in E1. now subst k'.
  - destruct (String.eqb "lm_head.weight" k'); discriminate.
Defined.

(** X7.  Whether the alignment succeeds is decided by the store it
    starts from: it returns exactly when the two lists of names have
    the same length and every checkpoint name passes the checks of the
    loop body there.  The copies made on the way change no outcome,
    since they keep every shape. *)
Theorem align_succeeds_iff sd sd_hf st :
  is_ok (fst (align sd sd_hf st))
  = (length (sd_keys_hf sd_hf) =? length (sd_keys sd))%nat
    && forallb (conforms st sd sd_hf) (sd_keys_hf sd_hf).
Proof.
  rewrite align_unfold.
  destruct (length (sd_keys_hf sd_hf) =? length (sd_keys sd))%nat;
    [|reflexivity].
  cbn [andb]. rewrite <- loop_ok.
  now destruct (mapM (copy_param sd sd_hf) (sd_keys_hf sd_hf) st)
    as [[us|e] s1].
Qed.

(** X8.  What a successful alignment leaves in the store.  For a
    checkpoint name whose target no other checkpoint name denotes, the
    target holds afterwards, under the shape it had, the elements of
    the checkpoint tensor of that name, transposed when the name ends
    in one of the four suffixes. *)
Theorem align_copies_values sd sd_hf st st' k :
  align sd sd_hf st = (Ok tt, st') ->
  In k (sd_keys_hf sd_hf) ->
  (forall k', In k' (sd_keys_hf sd_hf) -> get sd k' = get sd k -> k' = k) ->
  exists src hd dst v,
    get sd_hf k = Some src /\ get sd k = Some hd /\
    read st hd = Some dst /\
    (if is_transposed k then transpose src else Ok src) = Ok v /\
    read st' hd = Some (mkTensor (shape dst) (elem v)).
Proof.
  intros Hrun Hin Huniq. rewrite align_unfold in Hrun.
  destruct (length (sd_keys_hf sd_hf) =? length (sd_keys sd))%nat;
    [|discriminate].
  destruct (mapM (copy_param sd sd_hf) (sd_keys_hf sd_hf) st)
    as [[us|e] s1] eqn:E; [|discriminate].
  injection Hrun as <-.
  exact (@loop_values sd sd_hf _ _ _ _ E k Hin Huniq).
Qed.

Lemma align_copies_values_witness :
  let src := mkTensor [2; 3] (fun idx => Fin (INR idx)) in
  let dst := mkTensor [3; 2] (fun _ => Fin 0) in
  let k := "transformer.h.0.mlp.c_fc.weight" in
  exists st' stored,
    align [(k, 0)] [(k, src)] [dst] = (Ok tt, st') /\
    read st' 0 = Some stored /\
    shape stored = [3; 2] /\ elem stored 5 = Fin (INR 5) /\
    elem stored 1 = Fin (INR 3).
Proof.
  intros src dst k.
  destruct (align [(k, 0)] [(k, src)] [dst]) as [[[]|e] st'] eqn:E;
    [|cbn in E; discriminate].
  destruct (@align_copies_values [(k, 0)] [(k, src)] [dst] st' k E)
    as (src' & hd & dst' & v & Hsrc & Hhd & Hdst & Hv & Hread).
  - now left.
  - intros k' [<-|[]] _. reflexivity.
  - cbn in Hsrc, Hhd. injection Hsrc as <-. injection Hhd as <-.
    cbn in Hdst. injection Hdst as <-.
    cbn in Hv. injection Hv as <-.
    exists st'. eexists. split; [reflexivity|]. split; [exact Hread|].
    cbn. repeat split.
Defined.

End AlignFacts.

(** ** The attention weights *)

Module WeightFacts.
Import Attention AttentionFacts.
Local Open Scope R_scope.

(** A row of scores as the mask leaves it: numbers and [-inf]. *)
Definition score (a : scalar) : Prop := a = NInf \/ exists x, a = Fin x.

(** The sum of a list of reals. *)
Definition Rsum (w : list R) : R := fold_right Rplus 0 w.

Lemma fold_smax_scores row :
  Forall score row ->
  (fold_right smax NInf row = NInf /\ Forall (fun a => a = NInf) row) \/
  (exists M, fold_right smax NInf row = Fin M).
Proof.
  induction 1 as [|a row Ha _ IH]; cbn [fold_right]; [left; now split|].
  destruct IH as [[-> Hall] | [M ->]], Ha as [-> | [x ->]]; cbn [smax].
  - left. split; [reflexivity | now constructor].
  - right. now exists x.
  - right. now exists M.
  - right. now exists (Rmax x M).
Qed.

Lemma fold_left_sadd_fin ev : forall a,
  fold_left sadd (map Fin ev) (Fin a) = Fin (a + Rsum ev).
Proof.
  induction ev as [|x ev IH]; intros a; cbn [map fold_left Rsum fold_right].
  - f_equal. lra.
  - cbn [sadd]. rewrite IH. unfold Rsum. f_equal. lra.
Qed.

Lemma Rsum_div ev S :
  Rsum (map (fun x => x / S) ev) = Rsum ev / S.
Proof.
  unfold Rsum. induction ev as [|x ev IH]; cbn [map fold_right].
  - unfold Rdiv. lra.
  - rewrite IH. unfold Rdiv. lra.
Qed.

Lemma Rsum_nonneg ev : Forall (fun x => 0 <= x) ev -> 0 <= Rsum ev.
Proof.
  unfold Rsum. induction 1 as [|x ev Hx _ IH]; cbn [fold_right]; lra.
Qed.

Lemma Rsum_pos ev :
  Forall (fun x => 0 <= x) ev -> Exists (fun x => 0 < x) ev -> 0 < Rsum ev.
Proof.
  intros Hall Hex. induction Hex as [x ev Hx | x ev Hex IH];
    inversion Hall as [|? ? H0 Hrest]; subst; unfold Rsum; cbn [fold_right].
  - pose proof (Rsum_nonneg Hrest). unfold Rsum in *. lra.
  - specialize (IH Hrest). unfold Rsum in *. lra.
Qed.

(** The exponentials [softmax] takes, as reals. *)
Definition expo (M : R) (a : scalar) : R :=
  match a with Fin x => exp (x - M) | _ => 0 end.

Lemma softmax_scores row :
  Forall score row -> Exists (fun a => is_finite a = true) row ->
  exists M,
    fold_right smax NInf row = Fin M /\
    let ev := map (expo M) row in
    0 < Rsum ev /\
    softmax row = map (fun a => Fin (expo M a / Rsum ev)) row.
Proof.
  intros Hsc Hex.
  destruct (fold_smax_scores Hsc) as [[_ Hall] | [M HM]].
  { exfalso. apply Exists_exists in Hex. destruct Hex as (a & Hin & Hfin).
    rewrite Forall_forall in Hall. rewrite (Hall a Hin) in Hfin.
    discriminate. }
  exists M. split; [assumption|]. intros ev.
  assert (He : map (fun a => sexp (ssub a (Fin M))) row = map Fin ev).
  { unfold ev. rewrite map_map. apply map_ext_in. intros a Hin.
    rewrite Forall_forall in Hsc. destruct (Hsc a Hin) as [-> | [x ->]].
    - reflexivity.
    - cbn [ssub sneg sadd sexp expo]. reflexivity. }
  assert (Hpos : 0 < Rsum ev).
  { apply Rsum_pos.
    - unfold ev. apply Forall_forall. intros x Hin.
      apply in_map_iff in Hin. destruct Hin as (a & <- & _).
      destruct a; cbn; try lra. left. apply exp_pos.
    - unfold ev. apply Exists_exists. apply Exists_exists in Hex.
      destruct Hex as (a & Hin & Hfin). exists (expo M a).
      split; [now apply in_map|].
      destruct a; try discriminate. cbn. apply exp_pos. }
  split; [assumption|].
  unfold softmax. rewrite HM, He, fold_left_sadd_fin.
  rewrite Rplus_0_l.
  assert (Hnz : Reqb (Rsum ev) 0 = false) by (apply Reqb_neq; lra).
  unfold ev in *. set (S := Rsum (map (expo M) row)) in *.
  rewrite !map_map. apply map_ext. intros a. cbn [sdiv].
  now rewrite Hnz.
Qed.

Lemma dot_acc_finite u : forall v acc,
  is_finite acc = true ->
  Forall (fun a => is_finite a = true) u ->
  Forall (fun a => is_finite a = true) v ->
  is_finite (dot_acc acc u v) = true.
Proof.
  induction u as [|a u IH]; intros [|b v] acc Hacc Hu Hv; cbn [dot_acc];
    try assumption.
  inversion Hu as [|? ? Ha Hu']; inversion Hv as [|? ? Hb Hv']; subst.
  apply IH; try assumption.
  destruct acc, a, b; try discriminate. reflexivity.
Qed.

Lemma Rsum_ge ev x :
  Forall (fun y => 0 <= y) ev -> In x ev -> x <= Rsum ev.
Proof.
  intros Hall Hin. induction Hall as [|y ev Hy Hrest IH];
    [destruct Hin|].
  unfold Rsum in *. cbn [fold_right].
  pose proof (Rsum_nonneg Hrest) as Hs. unfold Rsum in Hs.
  destruct Hin as [->|Hin]; [lra|]. specialize (IH Hin). lra.
Qed.

(** X9.  The attention weights of a position.  Under the causal mask,
    when the scaled scores of position [t] against the positions up to
    [t] are finite, row [t] of [F.softmax(att, dim=-1)] is a row of
    finite numbers between zero and one that are exactly zero after
    position [t]. *)
Theorem attention_weights_bounded p (q k : list (list scalar)) t :
  causal_mask p (length k) -> (t < length k)%nat ->
  (forall j, (j <= t)%nat ->
     is_finite (smul (dot (nth t q []) (nth j k [])) (scale p)) = true) ->
  exists w,
    softmax (masked_scores p q k t) = map Fin w /\
    length w = length k /\
    (forall j, 0 <= nth j w 0 <= 1) /\
    (forall j, (t < j)%nat -> nth j w 0 = 0).
Proof.
  intros Hmask Ht Hscore.
  set (row := masked_scores p q k t).
  assert (Hlen : length row = length k).
  { unfold row, masked_scores. now rewrite length_map, length_seq. }
  assert (Hrow : forall j, (j < length k)%nat ->
            nth j row NaN =
            if (t <? j)%nat then NInf
            else smul (dot (nth t q []) (nth j k [])) (scale p)).
  { intros j Hj. unfold row, masked_scores.
    rewrite nth_map_seq by assumption. now rewrite Hmask. }
  assert (Hfin : forall j, (j <= t)%nat ->
            exists x, nth j row NaN = Fin x).
  { intros j Hj. rewrite Hrow by lia.
    destruct (Nat.ltb_spec t j); [lia|].
    specialize (Hscore j Hj).
    destruct (smul (dot (nth t q []) (nth j k [])) (scale p));
      try discriminate. now eexists. }
  assert (Hsc : Forall score row).
  { apply Forall_forall. intros a Hin.
    destruct (In_nth _ _ NaN Hin) as (j & Hj & <-).
    rewrite Hlen in Hj. destruct (Nat.le_gt_cases j t) as [Hle|Hgt].
    - right. now apply Hfin.
    - left. rewrite Hrow by assumption.
      destruct (Nat.ltb_spec t j); [reflexivity | lia]. }
  assert (Hex : Exists (fun a => is_finite a = true) row).
  { apply Exists_exists. exists (nth t row NaN). split.
    - apply nth_In. now rewrite Hlen.
    - destruct (Hfin t (Nat.le_refl t)) as [x ->]. reflexivity. }
  destruct (softmax_scores Hsc Hex) as (M & _ & Hpos & Hsm).
  set (S := Rsum (map (expo M) row)) in *.
  assert (Hnn : Forall (fun y => 0 <= y) (map (expo M) row)).
  { apply Forall_forall. intros y Hy. apply in_map_iff in Hy.
    destruct Hy as (a & <- & _). destruct a; cbn; try lra.
    left. apply exp_pos. }
  exists (map (fun a => expo M a / S) row).
  split; [now rewrite map_map|].
  split; [now rewrite length_map|].
  split.
  - intros j. destruct (Nat.lt_ge_cases j (length k)) as [Hlt|Hge].
    + rewrite (nth_map_lt _ _ 0 NaN) by lia.
      set (a := nth j row NaN).
      assert (Ha : In (expo M a) (map (expo M) row)).
      { apply in_map. unfold a. apply nth_In. rewrite Hlen. exact Hlt. }
      pose proof (@Rsum_ge _ _ Hnn Ha) as Hle. fold S in Hle.
      rewrite Forall_forall in Hnn. specialize (Hnn _ Ha).
      split.
      * apply Rmult_le_pos; [assumption|].
        left. now apply Rinv_0_lt_compat.
      * apply Rmult_le_reg_r with S; [assumption|].
        unfold Rdiv. rewrite Rmult_assoc, Rinv_l by lra. lra.
    + rewrite nth_overflow by (rewrite length_map; lia). lra.
  - intros j Hj. destruct (Nat.lt_ge_cases j (length k)) as [Hlt|Hge].
    + rewrite (nth_map_lt _ _ 0 NaN) by lia. rewrite Hrow by assumption.
      destruct (Nat.ltb_spec t j); [|lia]. cbn [expo]. unfold Rdiv. lra.
    + apply nth_overflow. rewrite length_map. lia.
Qed.

Lemma attention_weights_bounded_witness :
  let p := mkParams [] [] [] [] 1 1 1 (fun t j => (t <? j)%nat) in
  let q := [[Fin 1]; [Fin 2]; [Fin 0]] in
  let k := [[Fin 3]; [Fin 4]; [Fin 5]] in
  exists w,
    softmax (masked_scores p q k 1) = map Fin w /\
    0 <= nth 0 w 0 <= 1 /\ nth 2 w 0 = 0.
Proof.
  intros p q k.
  destruct (@attention_weights_bounded p q k 1) as (w & Hw & _ & Hb & Hz).
  - intros t j _ _. reflexivity.
  - cbn. lia.
  - intros j Hj.
    destruct j as [|[|j]]; [reflexivity | reflexivity | lia].
  - exists w. split; [exact Hw|]. split; [apply Hb | apply Hz; lia].
Defined.

End WeightFacts.

(** ** The names of the state dictionary *)

Module StateDictFacts.
Import GPT GPTFacts.
Local Open Scope string_scope.

Lemma append_assoc (a b c : string) : (a ++ b) ++ c = a ++ (b ++ c).
Proof. induction a as [|x a IH]; cbn; [reflexivity | now rewrite IH]. Qed.

Lemma length_append (a b : string) :
  String.length (a ++ b) = (String.length a + String.length b)%nat.
Proof. induction a as [|x a IH]; cbn; [reflexivity | now rewrite IH]. Qed.

Lemma substring_append (p u : string) a m :
  String.substring (String.length p + a) m (p ++ u) = String.substring a m u.
Proof. induction p as [|x p IH]; cbn; [reflexivity | exact IH]. Qed.

(** A suffix no longer than the literal tail of a name is looked for in
    the tail alone. *)
Lemma endswith_append (p u suffix : string) :
  (String.length suffix <= String.length u)%nat ->
  endswith (p ++ u) suffix = endswith u suffix.
Proof.
  intros H. unfold endswith. rewrite length_append.
  replace (String.length p + String.length u - String.length suffix)%nat
    with (String.length p + (String.length u - String.length suffix))%nat
    by lia.
  rewrite substring_append.
  destruct (Nat.leb_spec (String.length suffix) (String.length u)); [|lia].
  destruct (Nat.leb_spec (String.length suffix)
              (String.length p + String.length u)); [|lia].
  reflexivity.
Qed.

(** The names of one block, after the common part of their prefix. *)
Definition block_suffixes : list string :=
  [".ln_1.weight"; ".ln_1.bias"; ".attn.bias";
   ".attn.c_attn.weight"; ".attn.c_attn.bias";
   ".attn.c_proj.weight"; ".attn.c_proj.bias";
   ".ln_2.weight"; ".ln_2.bias";
   ".mlp.c_fc.weight"; ".mlp.c_fc.bias";
   ".mlp.c_proj.weight"; ".mlp.c_proj.bias"].

(** A block whose four linear layers have a bias. *)
Definition with_biases (b : Block.t) : Prop :=
  Linear.bias (CausalSelfAttention.c_attn (Block.attn b)) <> None /\
  Linear.bias (CausalSelfAttention.c_proj (Block.attn b)) <> None /\
  Linear.bias (MLP.c_fc (Block.mlp b)) <> None /\
  Linear.bias (MLP.c_proj (Block.mlp b)) <> None.

Lemma block_keys q b :
  with_biases b ->
  keys (Block.state_dict (q ++ ".") b) = map (append q) block_suffixes.
Proof.
  intros (H1 & H2 & H3 & H4).
  destruct b as [ln1 [[wa [ba|]] [wp [bp|]] nh ne mb] ln2
                   [[wf [bf|]] [wj [bj|]]]]; cbn in H1, H2, H3, H4;
    try congruence.
  cbn. rewrite !append_assoc. reflexivity.
Qed.

Lemma mapM_Forall {A B : Type} (f : A -> M B) (P : B -> Prop) :
  (forall a st b st', f a st = (Ok b, st') -> P b) ->
  forall l st bs st',
    mapM f l st = (Ok bs, st') -> length bs = length l /\ Forall P bs.
Proof.
  intros Hf. induction l as [|a l IH]; intros st bs st' H.
  - cbn in H. injection H as <- _. now split.
  - cbn [mapM] in H. unfold bindM at 1 in H.
    destruct (f a st) as [[b|e] s1] eqn:Ea; [|discriminate].
    unfold bindM at 1 in H.
    destruct (mapM f l s1) as [[bs1|e] s2] eqn:El; [|discriminate].
    cbn [ret] in H. injection H as <- _.
    destruct (IH _ _ _ El) as [Hl HP].
    split; [cbn; now rewrite Hl|].
    constructor; [now apply Hf with a st s1 | assumption].
Qed.

Lemma block_init_biases rng config st b st' :
  Block.init rng config st = (Ok b, st') -> with_biases b.
Proof.
  unfold Block.init. intros H.
  unfold bindM at 1 in H.
  destruct (LayerNorm.init (GPTConfig.n_embd config) st) as [[l1|e] s1];
    [|discriminate].
  unfold bindM at 1 in H.
  destruct (CausalSelfAttention.init rng config s1) as [[a|e] s2] eqn:Ea;
    [|discriminate].
  destruct (ConstructionFacts.attention_init_inv _ _ _ Ea)
    as (_ & _ & -> & _).
  cbn in H. injection H as <- _.
  repeat split; discriminate.
Qed.

Lemma build_blocks rng config st self st' :
  build rng config st = (Ok self, st') ->
  length (h self) = GPTConfig.n_layer config /\
  Forall with_biases (h self) /\
  Linear.bias (lm_head self) = None.
Proof.
  unfold build. intros H.
  unfold bindM at 1 in H.
  destruct (Embedding.init rng _ _ st) as [[wte0|e] s1]; [|discriminate].
  unfold bindM at 1 in H.
  destruct (Embedding.init rng _ _ s1) as [[wpe0|e] s2]; [|discriminate].
  unfold bindM at 1 in H.
  destruct (mapM _ _ s2) as [[h0|e] s3] eqn:Eh; [|discriminate].
  unfold bindM at 1 in H.
  destruct (LayerNorm.init _ s3) as [[ln0|e] s4]; [|discriminate].
  cbn in H. injection H as <- _. cbn [h lm_head Linear.bias].
  destruct (@mapM_Forall _ _ (fun _ : nat => Block.init rng config)
              with_biases
              (fun _ s b s' => @block_init_biases rng config s b s')
              _ _ _ _ Eh) as [Hl HP].
  rewrite length_seq in Hl. now repeat split.
Qed.

(** The name of layer [i] up to the dot before the local name. *)
Definition layer_prefix (i : nat) : string :=
  "transformer.h." ++ string_of_nat i.

Lemma blocks_keys (hs : list Block.t) : forall a,
  Forall with_biases hs ->
  keys (flat_map
          (fun ib =>
             Block.state_dict
               ("transformer.h." ++ string_of_nat (fst ib) ++ ".")
               (snd ib))
          (combine (seq a (length hs)) hs))
  = flat_map (fun i => map (append (layer_prefix i)) block_suffixes)
      (seq a (length hs)).
Proof.
  induction hs as [|b hs IH]; intros a Hall; [reflexivity|].
  inversion Hall as [|? ? Hb Hrest]; subst.
  cbn [length seq combine flat_map fst snd]. unfold keys in *.
  rewrite map_app. rewrite IH by assumption. f_equal.
  rewrite <- append_assoc. now apply block_keys.
Qed.

Lemma filter_flat_map {A B : Type} (f : B -> bool) (g : A -> list B) l :
  filter f (flat_map g l) = flat_map (fun x => filter f (g x)) l.
Proof.
  induction l as [|a l IH]; cbn; [reflexivity|].
  now rewrite filter_app, IH.
Qed.

Lemma length_flat_map_const {A B : Type} (g : A -> list B) n l :
  (forall a, length (g a) = n) -> length (flat_map g l) = (length l * n)%nat.
Proof.
  intros H. induction l as [|a l IH]; cbn; [reflexivity|].
  now rewrite length_app, H, IH.
Qed.

Lemma filter_map_commute {A B : Type} (f : B -> bool) (g : A -> bool)
  (m : A -> B) (l : list A) :
  (forall a, In a l -> f (m a) = g a) ->
  filter f (map m l) = map m (filter g l).
Proof.
  induction l as [|a l IH]; intros H; cbn [map filter]; [reflexivity|].
  rewrite (H a (or_introl eq_refl)).
  rewrite IH by (intros a' Ha'; apply H; now right).
  now destruct (g a).
Qed.

Lemma block_suffixes_long :
  forallb (fun s => String.length ".attn.bias" <=? String.length s)%nat
    block_suffixes = true.
Proof. vm_compute. reflexivity. Qed.

Lemma not_mask_suffixes q :
  filter (fun k => negb (endswith k ".attn.bias"))
    (map (append q) block_suffixes)
  = map (append q)
      (filter (fun k => negb (endswith k ".attn.bias")) block_suffixes).
Proof.
  apply filter_map_commute. intros s Hs.
  pose proof block_suffixes_long as Hlong.
  rewrite forallb_forall in Hlong. specialize (Hlong s Hs).
  apply Nat.leb_le in Hlong.
  now rewrite endswith_append.
Qed.

Lemma keys_built rng config st self st' :
  build rng config st = (Ok self, st') ->
  keys (state_dict self)
  = (["transformer.wte.weight"; "transformer.wpe.weight"] ++
     flat_map (fun i => map (append (layer_prefix i)) block_suffixes)
       (seq 0 (GPTConfig.n_layer config)) ++
     ["transformer.ln_f.weight"; "transformer.ln_f.bias";
      "lm_head.weight"])%list.
Proof.
  intros H. destruct (build_blocks _ _ _ H) as (Hl & Hall & Hb).
  unfold state_dict, keys. rewrite !map_app.
  pose proof (blocks_keys 0 Hall) as Hk. unfold keys in Hk.
  rewrite Hk, Hl.
  unfold Linear.state_dict. rewrite Hb. reflexivity.
Qed.

(** X10.  The names of a model with [n_layer] layers.  Its state
    dictionary has [13 * n_layer + 5] entries.  The filter of
    [from_pretrained] discards exactly [n_layer] of them, the mask
    buffer [transformer.h.i.attn.bias] of each layer; the biases of the
    two attention projections, whose names end in [attn.c_attn.bias]
    and [attn.c_proj.bias], are kept, as are both names of the shared
    embedding matrix.  [12 * n_layer + 5] parameter names are left. *)
Theorem sd_keys_discards_masks rng config st self st' :
  build rng config st = (Ok self, st') ->
  let sd := state_dict self in
  let L := GPTConfig.n_layer config in
  length (keys sd) = (13 * L + 5)%nat /\
  length (sd_keys sd) = (12 * L + 5)%nat /\
  (forall k, In k (keys sd) ->
     (In k (sd_keys sd) <->
      ~ exists i, (i < L)%nat /\ k = layer_prefix i ++ ".attn.bias")) /\
  (forall i, (i < L)%nat ->
     In (layer_prefix i ++ ".attn.bias") (keys sd) /\
     In (layer_prefix i ++ ".attn.c_attn.bias") (sd_keys sd) /\
     In (layer_prefix i ++ ".attn.c_proj.bias") (sd_keys sd)) /\
  In "transformer.wte.weight" (sd_keys sd) /\
  In "lm_head.weight" (sd_keys sd).
Proof.
  intros H sd L.
  pose proof (keys_built _ _ _ H) as Hk. fold sd L in Hk.
  assert (Hsk : sd_keys sd =
    (["transformer.wte.weight"; "transformer.wpe.weight"] ++
     flat_map (fun i => map (append (layer_prefix i))
                          (filter (fun k => negb (endswith k ".attn.bias"))
                             block_suffixes))
       (seq 0 L) ++
     ["transformer.ln_f.weight"; "transformer.ln_f.bias";
      "lm_head.weight"])%list).
  { unfold sd_keys. rewrite Hk, !filter_app, filter_flat_map.
    f_equal. f_equal.
    apply flat_map_ext. intros i. apply not_mask_suffixes. }
  assert (Hin : forall i s, (i < L)%nat -> In s block_suffixes ->
            In (layer_prefix i ++ s) (keys sd)).
  { intros i s Hi Hs. rewrite Hk. apply in_or_app. right.
    apply in_or_app. left. apply in_flat_map. exists i.
    split; [apply in_seq; lia | now apply in_map]. }
  assert (Hin' : forall i s, (i < L)%nat ->
            In s (filter (fun k => negb (endswith k ".attn.bias"))
                    block_suffixes) ->
            In (layer_prefix i ++ s) (sd_keys sd)).
  { intros i s Hi Hs. rewrite Hsk. apply in_or_app. right.
    apply in_or_app. left. apply in_flat_map. exists i.
    split; [apply in_seq; lia | now apply in_map]. }
  split; [|split; [|split; [|split; [|split]]]].
  - rewrite Hk, !length_app.
    rewrite (@length_flat_map_const _ _ _ 13)
      by (intros i; now rewrite length_map).
    rewrite length_seq. cbn [length]. lia.
  - rewrite Hsk, !length_app.
    rewrite (@length_flat_map_const _ _ _ 12)
      by (intros i; now rewrite length_map).
    rewrite length_seq. cbn [length]. lia.
  - intros k Hkin. unfold sd_keys. rewrite filter_In. split.
    + intros [_ Hend] (i & Hi & ->).
      rewrite endswith_append in Hend by (cbn; lia). discriminate.
    + intros Hno. split; [assumption|].
      rewrite Hk in Hkin.
      apply in_app_or in Hkin. destruct Hkin as [Hkin|Hkin].
      { destruct Hkin as [<-|[<-|[]]]; reflexivity. }
      apply in_app_or in Hkin. destruct Hkin as [Hkin|Hkin].
      2:{ destruct Hkin as [<-|[<-|[<-|[]]]]; reflexivity. }
      apply in_flat_map in Hkin. destruct Hkin as (i & Hi & Hs).
      apply in_seq in Hi. apply in_map_iff in Hs.
      destruct Hs as (s & <- & Hs).
      rewrite endswith_append
        by (repeat (destruct Hs as [<-|Hs]; [cbn; lia|]); destruct Hs).
      destruct Hs as [<-|Hs]; [reflexivity|].
      destruct Hs as [<-|Hs]; [reflexivity|].
      destruct Hs as [<-|Hs].
      { exfalso; apply Hno; exists i; split; [lia | reflexivity]. }
      repeat (destruct Hs as [<-|Hs]; [reflexivity|]).
      destruct Hs.
  - intros i Hi. split; [|split].
    + apply Hin; [assumption | cbn; tauto].
    + apply Hin'; [assumption | cbn; tauto].
    + apply Hin'; [assumption | cbn; tauto].
  - rewrite Hsk. now left.
  - rewrite Hsk. apply in_or_app. right. apply in_or_app. right.
    cbn. tauto.
Qed.

Lemma sd_keys_discards_masks_witness :
  exists self st',
    build (fun _ _ => Fin 0) (GPTConfig.mk 4 8 2 1 2) [] = (Ok self, st') /\
    length (sd_keys (state_dict self)) = 29%nat.
Proof.
  destruct (build (fun _ _ => Fin 0) (GPTConfig.mk 4 8 2 1 2) [])
    as [[self|e] st'] eqn:E; [|cbn in E; discriminate].
  exists self, st'. split; [reflexivity|].
  destruct (@sd_keys_discards_masks _ _ _ _ _ E) as (_ & H & _).
  exact H.
Defined.

End StateDictFacts.

(** ** The forward pass of a block *)

Module BlockFacts.
Import Attention AttentionFacts Forward.

(** A sequence of [T] rows of [C] features. *)
Definition seq_size (T C : nat) (s : list (list scalar)) : Prop :=
  length s = T /\ Forall (fun row => length row = C) s.

(** The size of the last axis of [x + y]. *)
Definition bwidth (n m : nat) : nat :=
  if n =? m then n else if m =? 1 then n else m.

(** What a block computes on one sequence of the batch, given the
    parameters it has read. *)
Definition block_seq (w1 b1 : list scalar) (p : params)
  (w2 b2 : list scalar) (W1 : list (list scalar)) (c1 : list scalar)
  (W2 : list (list scalar)) (c2 : list scalar)
  (s : list (list scalar)) : list (list scalar) :=
  let y := attend p (map (layer_norm w1 b1) s) in
  let x1 := map2 add_rows s y in
  let a2 := map (layer_norm w2 b2) x1 in
  let y2 := map (fun row => linear W2 c2 (map gelu (linear W1 c1 row))) a2 in
  map2 add_rows x1 y2.

Lemma map2_length_combine {A B C : Type} (f : A -> B -> C) : forall l l',
  length (map2 f l l') = length (combine l l').
Proof.
  induction l as [|a l IH]; intros [|b l']; cbn; try reflexivity.
  now rewrite IH.
Qed.

Lemma map2_map_r {A B C : Type} (f : A -> B -> C) (g : A -> B) l :
  map2 f l (map g l) = map (fun a => f a (g a)) l.
Proof. induction l as [|a l IH]; cbn; [reflexivity | now rewrite IH]. Qed.

Lemma nth_map2 {A B C : Type} (f : A -> B -> C) da db dc : forall l l' i,
  i < length l -> i < length l' ->
  nth i (map2 f l l') dc = f (nth i l da) (nth i l' db).
Proof.
  induction l as [|a l IH]; intros [|b l'] [|i] H1 H2; cbn in *;
    try lia; try reflexivity.
  apply IH; lia.
Qed.

Lemma has_size_seq B T C X :
  has_size B T C X <-> length X = B /\ Forall (seq_size T C) X.
Proof. reflexivity. Qed.

Lemma width_size B T C X :
  has_size B T C X -> 0 < B -> 0 < T -> width X = C.
Proof.
  intros [HlenB HX] HB HT. unfold width.
  destruct X as [|s X]; [cbn in HlenB; lia|].
  inversion HX as [|? ? [Hs Hrows] _].
  destruct s as [|row s]; [cbn in Hs; lia|].
  inversion Hrows as [|? ? Hrow _]. exact Hrow.
Qed.

Lemma has_size_map B T C C' X (F : list (list scalar) -> list (list scalar)) :
  has_size B T C X ->
  (forall s, seq_size T C s -> seq_size T C' (F s)) ->
  has_size B T C' (map F X).
Proof.
  intros [HlenB HX] HF. split; [now rewrite length_map|].
  apply Forall_forall. intros s' Hin. apply in_map_iff in Hin.
  destruct Hin as (s & <- & Hs). rewrite Forall_forall in HX.
  apply HF, HX, Hs.
Qed.

Lemma seq_size_map T C C' (f : list scalar -> list scalar) s :
  seq_size T C s -> (forall row, length row = C -> length (f row) = C') ->
  seq_size T C' (map f s).
Proof.
  intros [Hl Hrows] Hf. split; [now rewrite length_map|].
  apply Forall_forall. intros r' Hin. apply in_map_iff in Hin.
  destruct Hin as (r & <- & Hr). rewrite Forall_forall in Hrows.
  apply Hf, Hrows, Hr.
Qed.

Lemma load_vector_length st h C w :
  load_vector st h C = Ok w -> length w = C.
Proof.
  unfold load_vector. destruct (read st h) as [v|]; [|discriminate].
  destruct (shape_eqb (shape v) [C]); [|discriminate].
  intros H. injection H as <-. unfold entries_of.
  now rewrite length_map, length_seq.
Qed.

Lemma layer_norm_length w b row C :
  length w = C -> length b = C -> length row = C ->
  length (layer_norm w b row) = C.
Proof.
  intros Hw Hb Hr. unfold layer_norm.
  rewrite map2_length_combine, !length_combine, length_map. lia.
Qed.

Lemma linear_length W c row :
  length (linear W c row) = length (combine W c).
Proof. unfold linear. apply map2_length_combine. Qed.

Lemma seq_size_attend p T C s :
  seq_size T C s ->
  seq_size T (length (combine (W_proj p) (b_proj p))) (attend p s).
Proof.
  intros [Hl _]. unfold attend. split.
  - now rewrite !length_map, length_seq.
  - apply Forall_forall. intros r Hin. apply in_map_iff in Hin.
    destruct Hin as (y & <- & _). apply linear_length.
Qed.

Lemma add_rows_length r1 r2 :
  broadcastable (length r1) (length r2) = true ->
  length (add_rows r1 r2) = bwidth (length r1) (length r2).
Proof.
  unfold broadcastable, add_rows, bwidth. intros H.
  destruct (Nat.eqb_spec (length r1) (length r2)) as [E|E].
  - rewrite map2_length_combine, length_combine. lia.
  - destruct (Nat.eqb_spec (length r2) 1).
    + now rewrite length_map.
    + now rewrite length_map.
Qed.

Lemma seq_size_add T C C' s y :
  seq_size T C s -> seq_size T C' y -> broadcastable C C' = true ->
  seq_size T (bwidth C C') (map2 add_rows s y).
Proof.
  intros [Hl Hs] [Hl' Hy] Hb. split.
  - rewrite map2_length_combine, length_combine. lia.
  - apply Forall_forall. intros r Hin.
    destruct (In_nth _ _ [] Hin) as (i & Hi & <-).
    rewrite map2_length_combine, length_combine in Hi.
    rewrite (nth_map2 add_rows [] [] []) by lia.
    rewrite Forall_forall in Hs, Hy.
    assert (L1 : length (nth i s []) = C) by (apply Hs, nth_In; lia).
    assert (L2 : length (nth i y []) = C') by (apply Hy, nth_In; lia).
    rewrite add_rows_length; rewrite L1, L2; [reflexivity | assumption].
Qed.

Lemma add_size B T C C' X (G : list (list scalar) -> list (list scalar)) :
  has_size B T C X -> 0 < B -> 0 < T ->
  (forall s, seq_size T C s -> seq_size T C' (G s)) ->
  add X (map G X) =
  if broadcastable C C'
  then Ok (map (fun s => map2 add_rows s (G s)) X)
  else Raise RuntimeError.
Proof.
  intros HX HB HT HG. unfold add.
  rewrite (width_size HX HB HT).
  rewrite (width_size (has_size_map _ HX HG) HB HT).
  now rewrite map2_map_r.
Qed.

(** The checks of a block for an input of size [(B, T, C)], in the
    order in which the operations perform them, and the function of one
    sequence the block then computes. *)
Definition block_plan (st : store) (blk : Block.t) (B T C : nat)
  : result (list (list scalar) -> list (list scalar)) :=
  w1 <- load_vector st (LayerNorm.weight (Block.ln_1 blk)) C ;;
  b1 <- load_vector st (LayerNorm.bias (Block.ln_1 blk)) C ;;
  p <- load st (Block.attn blk) B T C ;;
  if broadcastable C (length (combine (W_proj p) (b_proj p))) then
    let C1 := bwidth C (length (combine (W_proj p) (b_proj p))) in
    w2 <- load_vector st (LayerNorm.weight (Block.ln_2 blk)) C1 ;;
    b2 <- load_vector st (LayerNorm.bias (Block.ln_2 blk)) C1 ;;
    fc <- load_linear st (MLP.c_fc (Block.mlp blk)) C1 ;;
    let '(W1, c1, out1) := fc in
    pr <- load_linear st (MLP.c_proj (Block.mlp blk)) out1 ;;
    let '(W2, c2, _) := pr in
    if broadcastable C1 (length (combine W2 c2))
    then Ok (block_seq w1 b1 p w2 b2 W1 c1 W2 c2)
    else Raise RuntimeError
  else Raise RuntimeError.

Lemma Block_forward_plan st blk B T C X :
  has_size B T C X -> 0 < B -> 0 < T ->
  Block_forward st blk X
  = (f <- block_plan st blk B T C ;; Ok (map f X)).
Proof.
  intros HX HB HT. unfold Block_forward, block_plan, LayerNorm_forward.
  rewrite (width_size HX HB HT).
  destruct (load_vector st (LayerNorm.weight (Block.ln_1 blk)) C)
    as [w1|e] eqn:Ew1; [|reflexivity].
  destruct (load_vector st (LayerNorm.bias (Block.ln_1 blk)) C)
    as [b1|e] eqn:Eb1; [|reflexivity].
  cbn [bind].
  pose proof (load_vector_length _ _ _ Ew1) as Lw1.
  pose proof (load_vector_length _ _ _ Eb1) as Lb1.
  assert (HA : has_size B T C (map (map (layer_norm w1 b1)) X)).
  { apply has_size_map with C; [assumption|]. intros s Hs.
    apply seq_size_map with C; [assumption|]. intros row Hr.
    now apply layer_norm_length. }
  rewrite (@ConstructionFacts.forward_unfold st (Block.attn blk) B T C _
             HA HB HT).
  destruct (load st (Block.attn blk) B T C) as [p|e]; [|reflexivity].
  cbn [bind]. rewrite map_map.
  set (out := length (combine (W_proj p) (b_proj p))).
  set (G := fun s => attend p (map (layer_norm w1 b1) s)).
  assert (HG : forall s, seq_size T C s -> seq_size T out (G s)).
  { intros s Hs. unfold G.
    apply seq_size_attend with C.
    apply seq_size_map with C; [assumption|]. intros row Hr.
    now apply layer_norm_length. }
  rewrite (add_size G HX HB HT HG).
  destruct (broadcastable C out) eqn:Hb1; [|reflexivity].
  cbn [bind].
  set (C1 := bwidth C out).
  set (F1 := fun s => map2 add_rows s (G s)).
  assert (HX1 : has_size B T C1 (map F1 X)).
  { apply has_size_map with C; [assumption|]. intros s Hs.
    unfold F1. apply seq_size_add; auto. }
  rewrite (width_size HX1 HB HT).
  destruct (load_vector st (LayerNorm.weight (Block.ln_2 blk)) C1)
    as [w2|e] eqn:Ew2; [|reflexivity].
  destruct (load_vector st (LayerNorm.bias (Block.ln_2 blk)) C1)
    as [b2|e] eqn:Eb2; [|reflexivity].
  cbn [bind].
  pose proof (load_vector_length _ _ _ Ew2) as Lw2.
  pose proof (load_vector_length _ _ _ Eb2) as Lb2.
  assert (HA2 : has_size B T C1 (map (map (layer_norm w2 b2)) (map F1 X))).
  { apply has_size_map with C1; [assumption|]. intros s Hs.
    apply seq_size_map with C1; [assumption|]. intros row Hr.
    now apply layer_norm_length. }
  unfold MLP_forward. rewrite (width_size HA2 HB HT).
  destruct (load_linear st (MLP.c_fc (Block.mlp blk)) C1)
    as [[[W1 c1] out1]|e]; [|reflexivity].
  cbn [bind].
  destruct (load_linear st (MLP.c_proj (Block.mlp blk)) out1)
    as [[[W2 c2] out2]|e]; [|reflexivity].
  cbn [bind].
  set (mlp := fun row => linear W2 c2 (map gelu (linear W1 c1 row))).
  rewrite (map_map (map (layer_norm w2 b2)) (map mlp)).
  set (G2 := fun s1 => map mlp (map (layer_norm w2 b2) s1)).
  assert (HG2 : forall s, seq_size T C1 s ->
                  seq_size T (length (combine W2 c2)) (G2 s)).
  { intros s Hs. unfold G2.
    apply seq_size_map with C1.
    - apply seq_size_map with C1; [assumption|]. intros row Hr.
      now apply layer_norm_length.
    - intros row _. unfold mlp. apply linear_length. }
  rewrite (add_size G2 HX1 HB HT HG2).
  destruct (broadcastable C1 (length (combine W2 c2))); [|reflexivity].
  rewrite map_map. reflexivity.
Qed.

(** *** Finite values *)

Definition finite_row (l : list scalar) : Prop :=
  Forall (fun a => is_finite a = true) l.

Lemma is_finite_Fin a : is_finite a = true -> exists r, a = Fin r.
Proof. destruct a; try discriminate. now eexists. Qed.

Lemma fold_sadd_finite l : forall acc,
  finite_row l -> exists r, fold_left sadd l (Fin acc) = Fin r.
Proof.
  induction l as [|a l IH]; intros acc H; cbn [fold_left]; [now eexists|].
  inversion H as [|? ? Ha Hl]; subst.
  destruct (is_finite_Fin _ Ha) as [x ->]. cbn [sadd]. now apply IH.
Qed.

Lemma fold_sadd_nonneg l : forall acc,
  (0 <= acc)%R ->
  Forall (fun a => exists r, a = Fin r /\ (0 <= r)%R) l ->
  exists r, fold_left sadd l (Fin acc) = Fin r /\ (0 <= r)%R.
Proof.
  induction l as [|a l IH]; intros acc Hacc H; cbn [fold_left];
    [now eexists|].
  inversion H as [|? ? (x & -> & Hx) Hl]; subst. cbn [sadd].
  apply IH; [lra | assumption].
Qed.

Lemma Forall_map2 {A B C : Type} (P : C -> Prop) (f : A -> B -> C) :
  forall l l',
  (forall a b, In a l -> In b l' -> P (f a b)) -> Forall P (map2 f l l').
Proof.
  induction l as [|a l IH]; intros [|b l'] H; cbn [map2]; constructor.
  - apply H; now left.
  - apply IH. intros a' b' Ha Hb. apply H; now right.
Qed.

(** Layer normalisation keeps finite rows finite: the variance is not
    negative, so that [eps] keeps the denominator away from zero. *)
Lemma layer_norm_finite w b row :
  finite_row w -> finite_row b -> finite_row row ->
  finite_row (layer_norm w b row).
Proof.
  intros Hw Hb Hrow. unfold layer_norm.
  destruct row as [|x0 row0]; [constructor|].
  set (row := x0 :: row0) in *.
  assert (Hn : (0 < INR (length row))%R).
  { apply lt_0_INR. unfold row. cbn [length]. lia. }
  destruct (fold_sadd_finite 0 Hrow) as [S HS].
  unfold ssum. rewrite HS. cbn [sdiv].
  rewrite Reqb_neq by lra.
  set (m := (S / INR (length row))%R).
  set (centred := map (fun a => ssub a (Fin m)) row).
  assert (Hc : Forall (fun a => exists r, a = Fin r) centred).
  { unfold centred. apply Forall_forall. intros a Hin.
    apply in_map_iff in Hin. destruct Hin as (y & <- & Hy).
    unfold finite_row in Hrow. rewrite Forall_forall in Hrow.
    destruct (is_finite_Fin _ (Hrow y Hy)) as [r ->]. cbn. now eexists. }
  assert (Hsq : Forall (fun a => exists r, a = Fin r /\ (0 <= r)%R)
                  (map (fun a => smul a a) centred)).
  { apply Forall_forall. intros a Hin.
    apply in_map_iff in Hin. destruct Hin as (y & <- & Hy).
    rewrite Forall_forall in Hc. destruct (Hc y Hy) as [r ->].
    cbn [smul]. eexists. split; [reflexivity|]. nra. }
  destruct (@fold_sadd_nonneg _ 0 (Rle_refl 0) Hsq) as (V & HV & HV0).
  rewrite HV. cbn [sdiv]. rewrite Reqb_neq by lra. cbn [sadd].
  set (d := (V / INR (length row) + 1 / 100000)%R).
  assert (Hd : (0 < d)%R).
  { unfold d. assert (0 <= V / INR (length row))%R; [|lra].
    apply Rmult_le_pos; [assumption|]. left. now apply Rinv_0_lt_compat. }
  cbn [ssqrt]. unfold Rltb. destruct (Rlt_dec d 0) as [Hlt|_]; [lra|].
  assert (Hs : (0 < sqrt d)%R) by now apply sqrt_lt_R0.
  apply Forall_map2. intros a [wk bk] Ha Hwb. cbn [fst snd].
  rewrite Forall_forall in Hc. destruct (Hc a Ha) as [r ->].
  unfold finite_row in Hw, Hb. rewrite Forall_forall in Hw, Hb.
  destruct (is_finite_Fin _ (Hw wk (in_combine_l _ _ _ _ Hwb))) as [rw ->].
  destruct (is_finite_Fin _ (Hb bk (in_combine_r _ _ _ _ Hwb))) as [rb ->].
  cbn [sdiv]. rewrite Reqb_neq by lra. reflexivity.
Qed.

Lemma linear_finite W c row :
  Forall finite_row W -> finite_row c -> finite_row row ->
  finite_row (linear W c row).
Proof.
  intros HW Hc Hrow. unfold linear. apply Forall_map2.
  intros w bo Hw Hbo. rewrite Forall_forall in HW.
  assert (Hd : is_finite (dot row w) = true).
  { apply WeightFacts.dot_acc_finite; [reflexivity | assumption |].
    now apply HW. }
  unfold finite_row in Hc. rewrite Forall_forall in Hc.
  specialize (Hc bo Hbo).
  destruct (dot row w), bo; try discriminate. reflexivity.
Qed.

Lemma attend_length p x : length (attend p x) = length x.
Proof. unfold attend. now rewrite !length_map, length_seq. Qed.

End BlockFacts.

(** ** The forward pass of the model *)

Module ModelFacts.
Import Attention AttentionFacts Forward BlockFacts GPTForward.

(** Every tensor of the store holds finite numbers only. *)
Definition store_finite (st : store) : Prop :=
  forall h v, read st h = Some v -> forall k, is_finite (elem v k) = true.

Lemma load_vector_finite st h C w :
  store_finite st -> load_vector st h C = Ok w -> finite_row w.
Proof.
  intros Hst. unfold load_vector.
  destruct (read st h) as [v|] eqn:Er; [|discriminate].
  destruct (shape_eqb (shape v) [C]); [|discriminate].
  intros H. injection H as <-. unfold entries_of.
  apply Forall_forall. intros a Hin. apply in_map_iff in Hin.
  destruct Hin as (k & <- & _). exact (Hst h v Er k).
Qed.

Lemma load_linear_finite st l C W c out :
  store_finite st -> load_linear st l C = Ok (W, c, out) ->
  Forall finite_row W /\ finite_row c.
Proof.
  intros Hst. unfold load_linear.
  destruct (read st (Linear.weight l)) as [w|] eqn:Er; [|discriminate].
  destruct (shape w) as [|r [|cc [|? ?]]]; try discriminate.
  destruct (negb (C =? cc)); [discriminate|].
  assert (HW : Forall finite_row (rows_of r cc w)).
  { unfold rows_of. apply Forall_forall. intros row Hin.
    apply in_map_iff in Hin. destruct Hin as (i & <- & _).
    apply Forall_forall. intros a Ha. apply in_map_iff in Ha.
    destruct Ha as (j & <- & _). exact (Hst _ w Er _). }
  destruct (Linear.bias l) as [hb|].
  - destruct (read st hb) as [b|] eqn:Eb; [|discriminate].
    destruct (shape_eqb (shape b) [r]); [|discriminate].
    intros H. injection H as <- <- _. split; [assumption|].
    unfold entries_of. apply Forall_forall. intros a Ha.
    apply in_map_iff in Ha. destruct Ha as (k & <- & _).
    exact (Hst hb b Eb k).
  - intros H. injection H as <- <- _. split; [assumption|].
    apply Forall_forall. intros a Ha. apply repeat_spec in Ha. now subst.
Qed.

Lemma load_finite st self B T C p :
  store_finite st -> load st self B T C = Ok p ->
  Forall finite_row (W_attn p) /\ finite_row (b_attn p) /\
  Forall finite_row (W_proj p) /\ finite_row (b_proj p).
Proof.
  intros Hst. unfold load. intros H.
  destruct (load_linear st (CausalSelfAttention.c_attn self) C)
    as [[[Wa ba] out]|e] eqn:Ea; [|discriminate].
  cbn [bind] in H.
  repeat match type of H with
         | (if ?c then _ else _) = _ => destruct c; [discriminate|]
         end.
  destruct (load_mask st (CausalSelfAttention.bias self) T) as [m|e];
    [|discriminate].
  cbn [bind] in H.
  repeat match type of H with
         | (if ?c then _ else _) = _ => destruct c; [discriminate|]
         end.
  destruct (load_linear st (CausalSelfAttention.c_proj self) C)
    as [[[Wp bp] out']|e] eqn:Ep; [|discriminate].
  cbn [bind] in H. injection H as <-. cbn.
  destruct (load_linear_finite _ _ Hst Ea).
  destruct (load_linear_finite _ _ Hst Ep).
  now repeat split.
Qed.

(** *** Finite activations *)

Lemma gelu_finite x : is_finite x = true -> is_finite (gelu x) = true.
Proof. destruct x; try discriminate. reflexivity. Qed.

Lemma add_rows_finite r1 r2 :
  broadcastable (length r1) (length r2) = true ->
  finite_row r1 -> finite_row r2 -> finite_row (add_rows r1 r2).
Proof.
  unfold broadcastable, add_rows. intros Hb H1 H2.
  assert (Hadd : forall a b, is_finite a = true -> is_finite b = true ->
                   is_finite (sadd a b) = true).
  { intros [] [] Ha Hb'; try discriminate; reflexivity. }
  unfold finite_row in *.
  destruct (Nat.eqb_spec (length r1) (length r2)) as [E|E].
  - apply Forall_map2. intros a b Ha Hb'.
    rewrite Forall_forall in H1, H2. auto.
  - destruct (Nat.eqb_spec (length r2) 1) as [E2|E2].
    + destruct r2 as [|b [|? ?]]; try discriminate.
      inversion H2; subst. cbn [hd].
      apply Forall_forall. intros a Ha. apply in_map_iff in Ha.
      destruct Ha as (x & <- & Hx). rewrite Forall_forall in H1. auto.
    + cbn [orb] in Hb. apply Nat.eqb_eq in Hb.
      destruct r1 as [|a [|? ?]]; try discriminate.
      inversion H1; subst. cbn [hd].
      apply Forall_forall. intros b Hb'. apply in_map_iff in Hb'.
      destruct Hb' as (x & <- & Hx). rewrite Forall_forall in H2. auto.
Qed.

Lemma scores_finite p (q k : list (list scalar)) t :
  causal_mask p (length k) -> t < length k ->
  finite_row (nth t q []) -> Forall finite_row k ->
  finite_row (softmax (masked_scores p q k t)).
Proof.
  intros Hmask Ht Hq Hk.
  set (row := masked_scores p q k t).
  assert (Hlen : length row = length k).
  { unfold row, masked_scores. now rewrite length_map, length_seq. }
  assert (Hrow : forall j, j < length k ->
            nth j row NaN =
            if t <? j then NInf
            else smul (dot (nth t q []) (nth j k [])) (scale p)).
  { intros j Hj. unfold row, masked_scores.
    rewrite nth_map_seq by assumption. now rewrite Hmask. }
  assert (Hfin : forall j, j <= t -> exists x, nth j row NaN = Fin x).
  { intros j Hj. rewrite Hrow by lia.
    destruct (Nat.ltb_spec t j); [lia|].
    assert (Hd : is_finite (dot (nth t q []) (nth j k [])) = true).
    { apply WeightFacts.dot_acc_finite; [reflexivity | assumption |].
      rewrite Forall_forall in Hk. apply Hk, nth_In. lia. }
    destruct (dot (nth t q []) (nth j k [])) as [d| | |];
      try discriminate.
    unfold scale. cbn [smul]. now eexists. }
  assert (Hsc : Forall WeightFacts.score row).
  { apply Forall_forall. intros a Hin.
    destruct (In_nth _ _ NaN Hin) as (j & Hj & <-).
    rewrite Hlen in Hj. destruct (Nat.le_gt_cases j t) as [Hle|Hgt].
    - right. now apply Hfin.
    - left. rewrite Hrow by assumption.
      destruct (Nat.ltb_spec t j); [reflexivity | lia]. }
  assert (Hex : Exists (fun a => is_finite a = true) row).
  { apply Exists_exists. exists (nth t row NaN). split.
    - apply nth_In. now rewrite Hlen.
    - destruct (Hfin t (Nat.le_refl t)) as [x ->]. reflexivity. }
  destruct (WeightFacts.softmax_scores Hsc Hex) as (M & _ & _ & Hsm).
  rewrite Hsm. apply Forall_forall. intros a Ha.
  apply in_map_iff in Ha. destruct Ha as (x & <- & _). reflexivity.
Qed.

Lemma Forall_map_row {A : Type} (f : A -> list scalar) l :
  (forall a, In a l -> finite_row (f a)) -> Forall finite_row (map f l).
Proof.
  intros H. apply Forall_forall. intros r Hin.
  apply in_map_iff in Hin. destruct Hin as (a & <- & Ha). now apply H.
Qed.

Lemma Forall_nth_row (l : list (list scalar)) t :
  Forall finite_row l -> finite_row (nth t l []).
Proof.
  intros H. destruct (Nat.lt_ge_cases t (length l)) as [Hlt|Hge].
  - rewrite Forall_forall in H. apply H, nth_In, Hlt.
  - rewrite nth_overflow by assumption. constructor.
Qed.

Lemma attend_finite p x :
  causal_mask p (length x) ->
  Forall finite_row (W_attn p) -> finite_row (b_attn p) ->
  Forall finite_row (W_proj p) -> finite_row (b_proj p) ->
  Forall finite_row x -> Forall finite_row (attend p x).
Proof.
  intros Hmask HWa Hba HWp Hbp Hx. unfold attend.
  apply Forall_map_row. intros y Hy. apply linear_finite; try assumption.
  apply in_map_iff in Hy. destruct Hy as (t & <- & Ht).
  apply in_seq in Ht.
  unfold finite_row. apply Forall_forall. intros a Ha.
  apply in_flat_map in Ha. destruct Ha as (yh & Hyh & Ha).
  apply in_map_iff in Hyh. destruct Hyh as (hd & <- & _).
  revert a Ha. apply Forall_forall. fold (finite_row (nth t
    (head_output p (map (q_row p) x) (map (k_row p) x) (map (v_row p) x) hd)
    [])).
  apply Forall_nth_row. unfold head_output.
  apply Forall_map_row. intros t' Ht'. apply in_seq in Ht'.
  rewrite length_map in Ht'.
  assert (Hrows : forall (g : list scalar -> list scalar),
            (forall row, finite_row row -> finite_row (g row)) ->
            Forall finite_row (map (head_slice p hd) (map g x))).
  { intros g Hg. apply Forall_map_row. intros r Hr.
    apply in_map_iff in Hr. destruct Hr as (row & <- & Hrow).
    unfold head_slice. apply Forall_firstn, Forall_skipn, Hg.
    rewrite Forall_forall in Hx. now apply Hx. }
  assert (Hq : Forall finite_row (map (head_slice p hd) (map (q_row p) x))).
  { apply Hrows. intros row Hrow. unfold q_row.
    apply Forall_firstn. now apply linear_finite. }
  assert (Hk : Forall finite_row (map (head_slice p hd) (map (k_row p) x))).
  { apply Hrows. intros row Hrow. unfold k_row.
    apply Forall_firstn, Forall_skipn. now apply linear_finite. }
  assert (Hv : Forall finite_row (map (head_slice p hd) (map (v_row p) x))).
  { apply Hrows. intros row Hrow. unfold v_row.
    apply Forall_firstn, Forall_skipn. now apply linear_finite. }
  unfold weighted_sum. apply Forall_forall. intros a Ha.
  apply in_map_iff in Ha. destruct Ha as (d & <- & _).
  apply WeightFacts.dot_acc_finite; [reflexivity | |].
  - apply scores_finite.
    + now rewrite !length_map.
    + rewrite !length_map. lia.
    + now apply Forall_nth_row.
    + assumption.
  - apply Forall_forall. intros b Hb. apply in_map_iff in Hb.
    destruct Hb as (vj & <- & Hvj). apply nth_is_finite.
    rewrite Forall_forall in Hv. now apply Hv.
Qed.

(** *** One block *)

Lemma block_plan_inv st blk B T C f :
  store_finite st -> block_plan st blk B T C = Ok f ->
  exists w1 b1 p w2 b2 W1 c1 W2 c2,
    f = block_seq w1 b1 p w2 b2 W1 c1 W2 c2 /\
    load st (Block.attn blk) B T C = Ok p /\
    length w1 = C /\ length b1 = C /\
    broadcastable C (length (combine (W_proj p) (b_proj p))) = true /\
    length w2 = bwidth C (length (combine (W_proj p) (b_proj p))) /\
    length b2 = bwidth C (length (combine (W_proj p) (b_proj p))) /\
    broadcastable (bwidth C (length (combine (W_proj p) (b_proj p))))
      (length (combine W2 c2)) = true /\
    finite_row w1 /\ finite_row b1 /\ finite_row w2 /\ finite_row b2 /\
    Forall finite_row W1 /\ finite_row c1 /\
    Forall finite_row W2 /\ finite_row c2.
Proof.
  intros Hst H. unfold block_plan in H.
  destruct (load_vector st (LayerNorm.weight (Block.ln_1 blk)) C)
    as [w1|e] eqn:Ew1; [|discriminate].
  destruct (load_vector st (LayerNorm.bias (Block.ln_1 blk)) C)
    as [b1|e] eqn:Eb1; [|discriminate].
  cbn [bind] in H.
  destruct (load st (Block.attn blk) B T C) as [p|e] eqn:Ep; [|discriminate].
  cbn [bind] in H.
  destruct (broadcastable C (length (combine (W_proj p) (b_proj p))))
    eqn:Hb1; [|discriminate].
  destruct (load_vector st (LayerNorm.weight (Block.ln_2 blk)) _)
    as [w2|e] eqn:Ew2; [|discriminate].
  destruct (load_vector st (LayerNorm.bias (Block.ln_2 blk)) _)
    as [b2|e] eqn:Eb2; [|discriminate].
  cbn [bind] in H.
  destruct (load_linear st (MLP.c_fc (Block.mlp blk)) _)
    as [[[W1 c1] out1]|e] eqn:E1; [|discriminate].
  cbn [bind] in H.
  destruct (load_linear st (MLP.c_proj (Block.mlp blk)) out1)
    as [[[W2 c2] out2]|e] eqn:E2; [|discriminate].
  cbn [bind] in H.
  destruct (broadcastable _ (length (combine W2 c2))) eqn:Hb2;
    [|discriminate].
  injection H as <-.
  destruct (load_linear_finite _ _ Hst E1).
  destruct (load_linear_finite _ _ Hst E2).
  exists w1, b1, p, w2, b2, W1, c1, W2, c2.
  repeat split; eauto using load_vector_length, load_vector_finite.
Qed.

Lemma Forall_map2_rows (f : list scalar -> list scalar -> list scalar)
  (P : list scalar -> Prop) (Q : list scalar -> Prop) l l' :
  (forall a b, P a -> Q b -> finite_row (f a b)) ->
  Forall P l -> Forall Q l' -> Forall finite_row (map2 f l l').
Proof.
  intros Hf Hl Hl'. apply Forall_map2. intros a b Ha Hb.
  rewrite Forall_forall in Hl, Hl'. auto.
Qed.

Lemma Forall_and {A : Type} (P Q : A -> Prop) l :
  Forall P l -> Forall Q l -> Forall (fun a => P a /\ Q a) l.
Proof.
  intros HP HQ. rewrite Forall_forall in *. auto.
Qed.

Lemma seq_add_finite T C C' s y :
  seq_size T C s -> seq_size T C' y -> broadcastable C C' = true ->
  Forall finite_row s -> Forall finite_row y ->
  Forall finite_row (map2 add_rows s y).
Proof.
  intros [_ Hs] [_ Hy] Hb Fs Fy.
  apply (@Forall_map2_rows add_rows
           (fun r => length r = C /\ finite_row r)
           (fun r => length r = C' /\ finite_row r)).
  - intros a b [La Fa] [Lb Fb]. apply add_rows_finite; try assumption.
    now rewrite La, Lb.
  - now apply Forall_and.
  - now apply Forall_and.
Qed.

(** A block keeps the number of positions, gives every position the
    same width, and keeps finite activations finite. *)
Lemma block_seq_good w1 b1 p w2 b2 W1 c1 W2 c2 T C s :
  let out := length (combine (W_proj p) (b_proj p)) in
  let C1 := bwidth C out in
  causal_mask p T ->
  length w1 = C -> length b1 = C ->
  broadcastable C out = true ->
  length w2 = C1 -> length b2 = C1 ->
  broadcastable C1 (length (combine W2 c2)) = true ->
  finite_row w1 -> finite_row b1 -> finite_row w2 -> finite_row b2 ->
  Forall finite_row (W_attn p) -> finite_row (b_attn p) ->
  Forall finite_row (W_proj p) -> finite_row (b_proj p) ->
  Forall finite_row W1 -> finite_row c1 ->
  Forall finite_row W2 -> finite_row c2 ->
  seq_size T C s -> Forall finite_row s ->
  seq_size T (bwidth C1 (length (combine W2 c2)))
    (block_seq w1 b1 p w2 b2 W1 c1 W2 c2 s) /\
  Forall finite_row (block_seq w1 b1 p w2 b2 W1 c1 W2 c2 s).
Proof.
  intros out C1 Hmask Lw1 Lb1 Hb1 Lw2 Lb2 Hb2 Fw1 Fb1 Fw2 Fb2
         FWa Fba FWp Fbp FW1 Fc1 FW2 Fc2 Hs Fs.
  unfold block_seq. cbv zeta.
  set (a := map (layer_norm w1 b1) s).
  assert (Ha : seq_size T C a).
  { apply seq_size_map with C; [assumption|]. intros row Hr.
    now apply layer_norm_length. }
  assert (Fa : Forall finite_row a).
  { apply Forall_map_row. intros row Hr. apply layer_norm_finite;
      try assumption. rewrite Forall_forall in Fs. now apply Fs. }
  set (y := attend p a).
  assert (Hy : seq_size T out y) by now apply seq_size_attend with C.
  assert (Fy : Forall finite_row y).
  { apply attend_finite; try assumption.
    destruct Ha as [-> _]. assumption. }
  set (x1 := map2 add_rows s y).
  assert (Hx1 : seq_size T C1 x1) by now apply seq_size_add.
  assert (Fx1 : Forall finite_row x1)
    by now apply seq_add_finite with T C out.
  set (a2 := map (layer_norm w2 b2) x1).
  assert (Ha2 : seq_size T C1 a2).
  { apply seq_size_map with C1; [assumption|]. intros row Hr.
    now apply layer_norm_length. }
  assert (Fa2 : Forall finite_row a2).
  { apply Forall_map_row. intros row Hr. apply layer_norm_finite;
      try assumption. rewrite Forall_forall in Fx1. now apply Fx1. }
  set (mlp := fun row => linear W2 c2 (map gelu (linear W1 c1 row))).
  set (y2 := map mlp a2).
  assert (Hy2 : seq_size T (length (combine W2 c2)) y2).
  { apply seq_size_map with C1; [assumption|]. intros row _.
    unfold mlp. apply linear_length. }
  assert (Fy2 : Forall finite_row y2).
  { apply Forall_map_row. intros row Hr. unfold mlp.
    apply linear_finite; try assumption.
    apply Forall_forall. intros g Hg. apply in_map_iff in Hg.
    destruct Hg as (u & <- & Hu). apply gelu_finite.
    assert (Fl : finite_row (linear W1 c1 row)).
    { apply linear_finite; try assumption.
      rewrite Forall_forall in Fa2. now apply Fa2. }
    unfold finite_row in Fl. rewrite Forall_forall in Fl. now apply Fl. }
  split.
  - now apply seq_size_add.
  - now apply seq_add_finite with T C1 (length (combine W2 c2)).
Qed.

(** *** The stack of blocks *)

Definition all_finite (X : tensor3) : Prop := Forall (Forall finite_row) X.

(** Two activations agree on the positions [0..i] of every sequence. *)
Definition agree_upto (i B : nat) (X X' : tensor3) : Prop :=
  forall b t, b < B -> t <= i ->
    nth t (nth b X []) [] = nth t (nth b X' []) [].

Lemma map_good B T C C' X (f : list (list scalar) -> list (list scalar)) :
  has_size B T C X -> all_finite X ->
  (forall s, seq_size T C s -> Forall finite_row s ->
     seq_size T C' (f s) /\ Forall finite_row (f s)) ->
  has_size B T C' (map f X) /\ all_finite (map f X).
Proof.
  intros [HlenB HX] HF Hf. unfold all_finite in *.
  rewrite Forall_forall in HX, HF.
  split; [split; [now rewrite length_map|]|];
    apply Forall_forall; intros s' Hin; apply in_map_iff in Hin;
    destruct Hin as (s & <- & Hs);
    destruct (Hf s (HX s Hs) (HF s Hs)) as [H1 H2]; assumption.
Qed.

(** *** Embeddings *)

(** The row of an embedding table for one index. *)
Definition emb_row (w : tensor) (n : nat) (i : Z) : list scalar :=
  map (fun j => elem w (Z.to_nat i * n + j)) (seq 0 n).

Lemma embedding_inv oob st e ids s :
  embedding oob st e ids = Ok s ->
  exists w N n,
    read st (Embedding.weight e) = Some w /\ shape w = [N; n] /\
    s = map (emb_row w n) ids.
Proof.
  unfold embedding.
  destruct (read st (Embedding.weight e)) as [w|]; [|discriminate].
  destruct (shape w) as [|N [|n [|? ?]]] eqn:Es; try discriminate.
  destruct (forallb _ ids); [|discriminate].
  intros H. injection H as <-. now exists w, N, n.
Qed.

Lemma embedding2_inv oob st e w N n : forall idx x,
  read st (Embedding.weight e) = Some w -> shape w = [N; n] ->
  embedding2 oob st e idx = Ok x ->
  x = map (map (emb_row w n)) idx.
Proof.
  induction idx as [|ids idx IH]; intros x Hr Hs H.
  - cbn in H. now injection H as <-.
  - cbn [embedding2] in H.
    destruct (embedding oob st e ids) as [s|e'] eqn:E1; [|discriminate].
    cbn [bind] in H.
    destruct (embedding2 oob st e idx) as [x1|e'] eqn:E2; [|discriminate].
    cbn [bind] in H. injection H as <-.
    destruct (@embedding_inv oob st e ids s E1)
      as (w' & N' & n' & Hr' & Hs' & ->).
    assert (w' = w) by congruence. subst w'.
    assert (n' = n) by congruence. subst n'.
    cbn [map]. f_equal. now apply IH.
Qed.

Lemma emb_row_length w n i : length (emb_row w n i) = n.
Proof. unfold emb_row. now rewrite length_map, length_seq. Qed.

Lemma emb_row_finite st h w n i :
  store_finite st -> read st h = Some w -> finite_row (emb_row w n i).
Proof.
  intros Hst Hr. unfold emb_row. apply Forall_forall. intros a Ha.
  apply in_map_iff in Ha. destruct Ha as (j & <- & _).
  exact (Hst h w Hr _).
Qed.

(** Token indices of size [(B, T)]. *)
Definition idx_size (B T : nat) (idx : list (list Z)) : Prop :=
  length idx = B /\ Forall (fun ids => length ids = T) idx.

Lemma idx_size_hd B T idx :
  idx_size B T idx -> 0 < B -> length (hd [] idx) = T.
Proof.
  intros [HlenB H] HB. destruct idx as [|ids idx]; [cbn in HlenB; lia|].
  now inversion H.
Qed.

Lemma idx_size_nth B T idx b :
  idx_size B T idx -> b < B -> length (nth b idx []) = T.
Proof.
  intros [HlenB H] Hb. rewrite Forall_forall in H. apply H, nth_In. lia.
Qed.

(** The sum of the token and position embeddings. *)
Lemma embedded_good st hw hp w wp n np B T idx :
  store_finite st -> read st hw = Some w -> read st hp = Some wp ->
  idx_size B T idx -> broadcastable n np = true ->
  let pos := map (emb_row wp np) (map Z.of_nat (seq 0 T)) in
  let X := map (fun s => map2 add_rows s pos)
             (map (map (emb_row w n)) idx) in
  has_size B T (bwidth n np) X /\ all_finite X.
Proof.
  intros Hst Hw Hp [HlenB Hidx] Hb pos X.
  assert (Hpos : seq_size T np pos).
  { unfold pos. split; [now rewrite !length_map, length_seq|].
    apply Forall_forall. intros r Hr. apply in_map_iff in Hr.
    destruct Hr as (k & <- & _). apply emb_row_length. }
  assert (Fpos : Forall finite_row pos).
  { unfold pos. apply Forall_map_row. intros k _.
    now apply emb_row_finite with st hp. }
  assert (Htok : forall ids, length ids = T ->
            seq_size T n (map (emb_row w n) ids) /\
            Forall finite_row (map (emb_row w n) ids)).
  { intros ids Hl. split; [split; [now rewrite length_map|]|].
    - apply Forall_forall. intros r Hr. apply in_map_iff in Hr.
      destruct Hr as (k & <- & _). apply emb_row_length.
    - apply Forall_map_row. intros k _.
      now apply emb_row_finite with st hw. }
  unfold X. rewrite map_map. rewrite Forall_forall in Hidx.
  split; [split; [now rewrite length_map|]|];
    apply Forall_forall; intros s Hs; apply in_map_iff in Hs;
    destruct Hs as (ids & <- & Hids);
    destruct (Htok ids (Hidx ids Hids)) as [H1 H2].
  - now apply seq_size_add.
  - now apply seq_add_finite with T n np.
Qed.

Lemma embedding2_read oob st e idx x :
  embedding2 oob st e idx = Ok x -> idx <> [] ->
  exists w N n, read st (Embedding.weight e) = Some w /\ shape w = [N; n].
Proof.
  destruct idx as [|ids idx]; [congruence|]. intros H _.
  cbn [embedding2] in H.
  destruct (embedding oob st e ids) as [s|e'] eqn:E1; [|discriminate].
  destruct (@embedding_inv oob st e ids s E1) as (w & N & n & Hr & Hs & _).
  now exists w, N, n.
Qed.

Lemma tok_size B T idx w n :
  idx_size B T idx -> has_size B T n (map (map (emb_row w n)) idx).
Proof.
  intros [HlenB Hidx]. split; [now rewrite length_map|].
  apply Forall_forall. intros s Hs. apply in_map_iff in Hs.
  destruct Hs as (ids & <- & Hids). rewrite Forall_forall in Hidx.
  split; [rewrite length_map; now apply Hidx|].
  apply Forall_forall. intros r Hr. apply in_map_iff in Hr.
  destruct Hr as (k & <- & _). apply emb_row_length.
Qed.

Lemma embedded_agree B T i idx idx' w n pos :
  idx_size B T idx -> idx_size B T idx' -> i < T -> length pos = T ->
  (forall b t, b < B -> t <= i ->
     nth t (nth b idx []) 0%Z = nth t (nth b idx' []) 0%Z) ->
  agree_upto i B
    (map (fun s => map2 add_rows s pos) (map (map (emb_row w n)) idx))
    (map (fun s => map2 add_rows s pos) (map (map (emb_row w n)) idx')).
Proof.
  intros Hidx Hidx' Hi Hpos Hagree b t Hb Ht.
  pose proof (idx_size_nth Hidx Hb) as L. pose proof (idx_size_nth Hidx' Hb) as L'.
  rewrite !map_map.
  rewrite !(nth_map_lt _ _ [] []) by (destruct Hidx, Hidx'; lia).
  rewrite !(nth_map2 add_rows [] [] []) by (rewrite ?length_map; lia).
  rewrite !(nth_map_lt _ _ [] 0%Z) by lia.
  now rewrite Hagree.
Qed.

End ModelFacts.

(** ** The forward pass of a model as the constructor builds it *)

Module BuiltFacts.
Import Attention AttentionFacts Forward BlockFacts GPTForward ModelFacts.

(** The handle [h] holds a tensor of shape [sh]. *)
Definition has_shape (st : store) (h : handle) (sh : list nat) : Prop :=
  exists v, read st h = Some v /\ shape v = sh.

(** A linear layer with a bias, from [inn] to [out] features. *)
Definition linear_ok (st : store) (l : Linear.t) (inn out : nat) : Prop :=
  has_shape st (Linear.weight l) [out; inn] /\
  exists hb, Linear.bias l = Some hb /\ has_shape st hb [out].

Definition ln_ok (st : store) (ln : LayerNorm.t) (n : nat) : Prop :=
  has_shape st (LayerNorm.weight ln) [n] /\
  has_shape st (LayerNorm.bias ln) [n].

(** A block with the shapes the configuration asks for. *)
Definition block_ok (st : store) (config : GPTConfig.t) (blk : Block.t)
  : Prop :=
  let n := GPTConfig.n_embd config in
  ln_ok st (Block.ln_1 blk) n /\
  linear_ok st (CausalSelfAttention.c_attn (Block.attn blk)) n (3 * n) /\
  linear_ok st (CausalSelfAttention.c_proj (Block.attn blk)) n n /\
  CausalSelfAttention.n_head (Block.attn blk) = GPTConfig.n_head config /\
  CausalSelfAttention.n_embd (Block.attn blk) = n /\
  GPTConfig.n_head config <> 0 /\ n mod GPTConfig.n_head config = 0 /\
  read st (CausalSelfAttention.bias (Block.attn blk))
  = Some (tril_ones (GPTConfig.block_size config)) /\
  ln_ok st (Block.ln_2 blk) n /\
  linear_ok st (MLP.c_fc (Block.mlp blk)) n (4 * n) /\
  linear_ok st (MLP.c_proj (Block.mlp blk)) (4 * n) n.

Lemma read_some_lt (st : store) h v : read st h = Some v -> h < length st.
Proof. unfold read. intros H. apply nth_error_Some. congruence. Qed.

Lemma read_grow (st l : store) h v :
  read st h = Some v -> read (st ++ l) h = Some v.
Proof.
  intros H. rewrite read_app_l; [assumption | now apply read_some_lt with v].
Qed.

Lemma has_shape_grow st l h sh :
  has_shape st h sh -> has_shape (st ++ l) h sh.
Proof. intros (v & Hr & Hs). exists v. split; [now apply read_grow | assumption]. Qed.

Lemma linear_ok_grow st l lin inn out :
  linear_ok st lin inn out -> linear_ok (st ++ l) lin inn out.
Proof.
  intros (Hw & hb & Hb & Hs). split; [now apply has_shape_grow|].
  exists hb. split; [assumption | now apply has_shape_grow].
Qed.

Lemma ln_ok_grow st l ln n : ln_ok st ln n -> ln_ok (st ++ l) ln n.
Proof. intros [H1 H2]. split; now apply has_shape_grow. Qed.

Lemma block_ok_grow st l config blk :
  block_ok st config blk -> block_ok (st ++ l) config blk.
Proof.
  unfold block_ok.
  intros (H1 & H2 & H3 & H4 & H5 & H6 & H7 & H8 & H9 & H10 & H11).
  repeat split; auto using ln_ok_grow, linear_ok_grow, read_grow;
    try apply H1; try apply H9.
  - apply has_shape_grow, H1.
  - apply has_shape_grow, H1.
  - apply has_shape_grow, H2.
  - destruct H2 as (_ & hb & ? & ?). exists hb. split; [assumption|].
    now apply has_shape_grow.
  - apply has_shape_grow, H3.
  - destruct H3 as (_ & hb & ? & ?). exists hb. split; [assumption|].
    now apply has_shape_grow.
  - apply has_shape_grow, H9.
  - apply has_shape_grow, H9.
  - apply has_shape_grow, H10.
  - destruct H10 as (_ & hb & ? & ?). exists hb. split; [assumption|].
    now apply has_shape_grow.
  - apply has_shape_grow, H11.
  - destruct H11 as (_ & hb & ? & ?). exists hb. split; [assumption|].
    now apply has_shape_grow.
Qed.

(** *** What the constructors leave in the store *)

Lemma has_shape_last st v : has_shape (st ++ [v]) (length st) (shape v).
Proof.
  exists v. split; [|reflexivity].
  unfold read. rewrite nth_error_app2 by lia. now rewrite Nat.sub_diag.
Qed.

Lemma ln_init_ok n st ln st' :
  LayerNorm.init n st = (Ok ln, st') ->
  exists l, st' = (st ++ l)%list /\ ln_ok st' ln n.
Proof.
  unfold LayerNorm.init, bindM, alloc_const, alloc, ret. intros H.
  injection H as <- <-. eexists. split; [now rewrite <- app_assoc|].
  split; cbn [LayerNorm.weight LayerNorm.bias].
  - apply has_shape_grow. apply (has_shape_last st (mkTensor [n] _)).
  - apply (has_shape_last (st ++ [_]) (mkTensor [n] _)).
Qed.

Lemma linear_init_ok rng inn out st lin st' :
  Linear.init rng inn out true st = (Ok lin, st') ->
  exists l, st' = (st ++ l)%list /\ linear_ok st' lin inn out.
Proof.
  unfold Linear.init, bindM, alloc_random, ret. intros H.
  injection H as <- <-. eexists. split; [now rewrite <- app_assoc|].
  split; cbn [Linear.weight Linear.bias].
  - apply has_shape_grow. apply (has_shape_last st (mkTensor [out; inn] _)).
  - eexists. split; [reflexivity|].
    apply (has_shape_last (st ++ [_]) (mkTensor [out] _)).
Qed.

Lemma mlp_init_ok rng config st m st' :
  MLP.init rng config st = (Ok m, st') ->
  let n := GPTConfig.n_embd config in
  exists l, st' = (st ++ l)%list /\
    linear_ok st' (MLP.c_fc m) n (4 * n) /\
    linear_ok st' (MLP.c_proj m) (4 * n) n.
Proof.
  intros H n. unfold MLP.init in H. unfold bindM at 1 in H.
  destruct (Linear.init rng (GPTConfig.n_embd config)
              (4 * GPTConfig.n_embd config) true st)
    as [[fc|e] s1] eqn:E1; [|discriminate].
  unfold bindM at 1 in H.
  destruct (Linear.init rng (4 * GPTConfig.n_embd config)
              (GPTConfig.n_embd config) true s1)
    as [[pr|e] s2] eqn:E2; [|discriminate].
  cbn [ret] in H. injection H as <- <-.
  destruct (@linear_init_ok _ _ _ _ _ _ E1) as (l1 & -> & H1).
  destruct (@linear_init_ok _ _ _ _ _ _ E2) as (l2 & -> & H2).
  exists (l1 ++ l2)%list. split; [now rewrite app_assoc|].
  cbn [MLP.c_fc MLP.c_proj]. split; [now apply linear_ok_grow | assumption].
Qed.

Lemma attn_init_ok rng config st a st' :
  CausalSelfAttention.init rng config st = (Ok a, st') ->
  let n := GPTConfig.n_embd config in
  exists l, st' = (st ++ l)%list /\
    linear_ok st' (CausalSelfAttention.c_attn a) n (3 * n) /\
    linear_ok st' (CausalSelfAttention.c_proj a) n n /\
    CausalSelfAttention.n_head a = GPTConfig.n_head config /\
    CausalSelfAttention.n_embd a = n /\
    GPTConfig.n_head config <> 0 /\ n mod GPTConfig.n_head config = 0 /\
    read st' (CausalSelfAttention.bias a)
    = Some (tril_ones (GPTConfig.block_size config)).
Proof.
  intros H n.
  pose proof (@ConstructionFacts.bias_built _ _ _ _ _ H) as Hbias.
  destruct (@ConstructionFacts.attention_init_inv _ _ _ _ _ H)
    as (Hnh & Hmod & -> & f1 & f2 & f3 & f4 & ->).
  eexists. split; [reflexivity|].
  cbn [CausalSelfAttention.c_attn CausalSelfAttention.c_proj
       CausalSelfAttention.n_head CausalSelfAttention.n_embd] in *.
  assert (R : forall k v,
            nth_error [mkTensor [3 * n; n] f1; mkTensor [3 * n] f2;
                       mkTensor [n; n] f3; mkTensor [n] f4;
                       tril_ones (GPTConfig.block_size config)] k = Some v ->
            has_shape (st ++ [mkTensor [3 * n; n] f1; mkTensor [3 * n] f2;
                              mkTensor [n; n] f3; mkTensor [n] f4;
                              tril_ones (GPTConfig.block_size config)])
              (length st + k) (shape v)).
  { intros k v Hk. exists v. split; [|reflexivity].
    now rewrite read_app_r. }
  repeat split; try assumption.
  - replace (length st) with (length st + 0) by lia.
    exact (R 0 _ eq_refl).
  - eexists. split; [reflexivity|]. exact (R 1 _ eq_refl).
  - exact (R 2 _ eq_refl).
  - eexists. split; [reflexivity|]. exact (R 3 _ eq_refl).
Qed.

Lemma block_init_ok rng config st blk st' :
  Block.init rng config st = (Ok blk, st') ->
  exists l, st' = (st ++ l)%list /\ block_ok st' config blk.
Proof.
  intros H. unfold Block.init in H. unfold bindM at 1 in H.
  destruct (LayerNorm.init (GPTConfig.n_embd config) st)
    as [[ln1|e] s1] eqn:E1; [|discriminate].
  unfold bindM at 1 in H.
  destruct (CausalSelfAttention.init rng config s1)
    as [[a|e] s2] eqn:E2; [|discriminate].
  unfold bindM at 1 in H.
  destruct (LayerNorm.init (GPTConfig.n_embd config) s2)
    as [[ln2|e] s3] eqn:E3; [|discriminate].
  unfold bindM at 1 in H.
  destruct (MLP.init rng config s3) as [[m|e] s4] eqn:E4; [|discriminate].
  cbn [ret] in H. injection H as <- <-.
  destruct (@ln_init_ok _ _ _ _ E1) as (l1 & -> & H1).
  destruct (@attn_init_ok _ _ _ _ _ E2)
    as (l2 & -> & A1 & A2 & A3 & A4 & A5 & A6 & A7).
  destruct (@ln_init_ok _ _ _ _ E3) as (l3 & -> & H3).
  destruct (@mlp_init_ok _ _ _ _ _ E4) as (l4 & -> & M1 & M2).
  exists (l1 ++ l2 ++ l3 ++ l4)%list.
  split; [now rewrite !app_assoc|].
  unfold block_ok. cbn [Block.ln_1 Block.attn Block.ln_2 Block.mlp].
  repeat (split; [
    first [ assumption
          | do 3 apply ln_ok_grow; assumption
          | do 2 apply linear_ok_grow; assumption
          | do 2 apply read_grow; assumption
          | apply ln_ok_grow; assumption ]|]).
  assumption.
Qed.

Lemma blocks_init_ok rng config : forall (l : list nat) st bs st',
  mapM (fun _ => Block.init rng config) l st = (Ok bs, st') ->
  (exists l', st' = (st ++ l')%list) /\ Forall (block_ok st' config) bs.
Proof.
  induction l as [|a l IH]; intros st bs st' H.
  - cbn in H. injection H as <- <-. split; [|constructor].
    exists []. now rewrite app_nil_r.
  - cbn [mapM] in H. unfold bindM at 1 in H.
    destruct (Block.init rng config st) as [[blk|e] s1] eqn:E1;
      [|discriminate].
    unfold bindM at 1 in H.
    destruct (mapM (fun _ => Block.init rng config) l s1)
      as [[bs1|e] s2] eqn:E2; [|discriminate].
    cbn [ret] in H. injection H as <- <-.
    destruct (@block_init_ok _ _ _ _ _ E1) as (l1 & -> & H1).
    destruct (IH _ _ _ E2) as [(l2 & ->) H2].
    split; [exists (l1 ++ l2)%list; now rewrite app_assoc|].
    constructor; [now apply block_ok_grow | assumption].
Qed.

(** A model with the shapes the configuration asks for. *)
Definition model_ok (st : store) (config : GPTConfig.t) (self : GPT.t)
  : Prop :=
  let n := GPTConfig.n_embd config in
  GPT.config self = config /\
  has_shape st (Embedding.weight (GPT.wte self))
    [GPTConfig.vocab_size config; n] /\
  has_shape st (Embedding.weight (GPT.wpe self))
    [GPTConfig.block_size config; n] /\
  Forall (block_ok st config) (GPT.h self) /\
  ln_ok st (GPT.ln_f self) n /\
  Linear.bias (GPT.lm_head self) = None /\
  has_shape st (Linear.weight (GPT.lm_head self))
    [GPTConfig.vocab_size config; n].

Lemma Forall_block_ok_grow st l config bs :
  Forall (block_ok st config) bs -> Forall (block_ok (st ++ l) config) bs.
Proof.
  intros H. rewrite Forall_forall in *. intros b Hb.
  now apply block_ok_grow, H.
Qed.

Lemma build_ok rng config st self st' :
  GPT.build rng config st = (Ok self, st') -> model_ok st' config self.
Proof.
  unfold GPT.build. intros H.
  unfold bindM at 1 in H.
  destruct (Embedding.init rng _ _ st) as [[wte0|e] s1] eqn:E1;
    [|discriminate].
  unfold bindM at 1 in H.
  destruct (Embedding.init rng _ _ s1) as [[wpe0|e] s2] eqn:E2;
    [|discriminate].
  unfold bindM at 1 in H.
  destruct (mapM _ _ s2) as [[h0|e] s3] eqn:Eh; [|discriminate].
  unfold bindM at 1 in H.
  destruct (LayerNorm.init _ s3) as [[ln0|e] s4] eqn:El; [|discriminate].
  unfold bindM at 1 in H.
  destruct (Linear.init rng _ _ false s4) as [[lm|e] s5] eqn:Em;
    [|discriminate].
  cbn [ret] in H. injection H as <- <-.
  unfold Embedding.init, bindM, alloc_random, ret in E2.
  injection E2 as <- <-.
  destruct (blocks_init_ok _ _ _ _ Eh) as [(l3 & ->) Hh].
  destruct (@ln_init_ok _ _ _ _ El) as (l4 & -> & Hl).
  unfold Linear.init, bindM, alloc_random, ret in Em.
  injection Em as <- <-.
  unfold model_ok.
  cbn [GPT.config GPT.wte GPT.wpe GPT.h GPT.ln_f GPT.lm_head
       Embedding.weight Linear.weight Linear.bias].
  repeat split.
  - apply (has_shape_last _ (mkTensor [_; _] _)).
  - apply has_shape_grow. rewrite <- !app_assoc.
    rewrite (app_assoc s1). apply has_shape_grow.
    apply (has_shape_last s1 (mkTensor [_; _] _)).
  - apply Forall_block_ok_grow. now apply Forall_block_ok_grow.
  - apply has_shape_grow, Hl.
  - apply has_shape_grow, Hl.
  - apply (has_shape_last _ (mkTensor [_; _] _)).
Qed.

(** *** The forward pass on these shapes *)

Lemma load_vector_ok st h C :
  has_shape st h [C] -> exists w, load_vector st h C = Ok w.
Proof.
  intros (v & Hr & Hs). unfold load_vector. rewrite Hr, Hs.
  unfold shape_eqb. destruct (list_eq_dec Nat.eq_dec [C] [C]); [|congruence].
  now eexists.
Qed.

Lemma load_linear_ok st l inn out :
  linear_ok st l inn out ->
  exists W c, load_linear st l inn = Ok (W, c, out) /\
    length W = out /\ length c = out.
Proof.
  intros ((w & Hr & Hs) & hb & Hb & (b & Hrb & Hsb)).
  unfold load_linear. rewrite Hr, Hs, Nat.eqb_refl, Hb, Hrb, Hsb.
  cbn [negb]. unfold shape_eqb.
  destruct (list_eq_dec Nat.eq_dec [out] [out]); [|congruence].
  eexists _, _. split; [reflexivity|].
  unfold rows_of, entries_of. now rewrite !length_map, !length_seq.
Qed.

Lemma load_linear_nobias st l inn out :
  has_shape st (Linear.weight l) [out; inn] -> Linear.bias l = None ->
  exists W c, load_linear st l inn = Ok (W, c, out) /\
    length W = out /\ length c = out.
Proof.
  intros (w & Hr & Hs) Hb.
  unfold load_linear. rewrite Hr, Hs, Nat.eqb_refl, Hb. cbn [negb].
  eexists _, _. split; [reflexivity|].
  unfold rows_of. now rewrite length_map, length_seq, repeat_length.
Qed.

Lemma load_ok st config blk B T :
  block_ok st config blk ->
  0 < GPTConfig.n_embd config -> 0 < B -> 0 < T ->
  T <= GPTConfig.block_size config ->
  exists p, load st (Block.attn blk) B T (GPTConfig.n_embd config) = Ok p /\
    length (W_proj p) = GPTConfig.n_embd config /\
    length (b_proj p) = GPTConfig.n_embd config.
Proof.
  unfold block_ok.
  intros (_ & Ha & Hp & Hnh & Hne & Hnz & Hmod & Hbias & _) Hn HB HT Hbs.
  set (n := GPTConfig.n_embd config) in *.
  set (nh := GPTConfig.n_head config) in *.
  destruct (load_linear_ok Ha) as (Wa & ba & Ea & _ & _).
  destruct (load_linear_ok Hp) as (Wp & bp & Ep & LW & Lb).
  destruct (ConstructionFacts.div_exact_pos Hn Hnz Hmod) as [Hdiv Hhs].
  unfold load. rewrite Ea, Hne, Hnh. cbn [bind].
  destruct (Nat.eqb_spec n 0); [lia|].
  destruct (Nat.ltb_spec (2 * n) (3 * n)); [|lia].
  destruct (Nat.leb_spec (3 * n) (3 * n)); [|lia].
  cbn [andb negb].
  destruct (Nat.eqb_spec nh 0); [contradiction|].
  destruct (Nat.eqb_spec (B * T) 0); [nia|].
  destruct (Nat.eqb_spec n (nh * (n / nh))); [|lia].
  destruct (Nat.eqb_spec (3 * n - 2 * n) (nh * (n / nh))); [|lia].
  cbn [andb orb negb].
  destruct (Nat.eqb_spec (n / nh) 0); [lia|].
  unfold load_mask. rewrite Hbias. cbn [tril_ones shape].
  destruct (Nat.leb_spec T (GPTConfig.block_size config)); [|lia].
  cbn [orb andb bind].
  destruct (Nat.eqb_spec (nh * (n / nh)) n); [|lia].
  cbn [negb]. rewrite Ep. cbn [bind].
  eexists. split; [reflexivity|]. cbn. now split.
Qed.

Lemma broadcastable_refl n : broadcastable n n = true.
Proof. unfold broadcastable. now rewrite Nat.eqb_refl. Qed.

Lemma bwidth_refl n : bwidth n n = n.
Proof. unfold bwidth. now rewrite Nat.eqb_refl. Qed.

Lemma combine_same_length {A B : Type} (l : list A) (l' : list B) n :
  length l = n -> length l' = n -> length (combine l l') = n.
Proof. intros H H'. rewrite length_combine. lia. Qed.

Lemma block_plan_ok st config blk B T :
  block_ok st config blk ->
  0 < GPTConfig.n_embd config -> 0 < B -> 0 < T ->
  T <= GPTConfig.block_size config ->
  exists f,
    block_plan st blk B T (GPTConfig.n_embd config) = Ok f /\
    forall s, seq_size T (GPTConfig.n_embd config) s ->
              seq_size T (GPTConfig.n_embd config) (f s).
Proof.
  intros Hok Hn HB HT Hbs.
  destruct (load_ok Hok Hn HB HT Hbs) as (p & Ep & LW & Lb).
  unfold block_ok in Hok.
  destruct Hok as ([H1w H1b] & _ & _ & _ & _ & _ & _ & _ & [H2w H2b]
                   & Hfc & Hpr).
  set (n := GPTConfig.n_embd config) in *.
  destruct (load_vector_ok H1w) as (w1 & Ew1).
  destruct (load_vector_ok H1b) as (b1 & Eb1).
  destruct (load_vector_ok H2w) as (w2 & Ew2).
  destruct (load_vector_ok H2b) as (b2 & Eb2).
  destruct (load_linear_ok Hfc) as (W1 & c1 & E1 & _ & _).
  destruct (load_linear_ok Hpr) as (W2 & c2 & E2 & LW2 & Lc2).
  pose proof (combine_same_length _ _ LW Lb) as Lo.
  pose proof (combine_same_length _ _ LW2 Lc2) as Lo2.
  unfold block_plan. rewrite Ew1, Eb1, Ep. cbn [bind].
  rewrite Lo, broadcastable_refl, bwidth_refl.
  rewrite Ew2, Eb2, E1. cbn [bind]. rewrite E2. cbn [bind].
  rewrite Lo2, broadcastable_refl.
  eexists. split; [reflexivity|].
  intros s Hs. unfold block_seq. cbv zeta.
  pose proof (load_vector_length _ _ _ Ew1).
  pose proof (load_vector_length _ _ _ Eb1).
  pose proof (load_vector_length _ _ _ Ew2).
  pose proof (load_vector_length _ _ _ Eb2).
  assert (Ha : seq_size T n (map (layer_norm w1 b1) s)).
  { apply seq_size_map with n; [assumption|]. intros row Hr.
    now apply layer_norm_length. }
  pose proof (@seq_size_attend p T n _ Ha) as Hy. rewrite Lo in Hy.
  pose proof (seq_size_add Hs Hy (broadcastable_refl n)) as Hx1.
  rewrite bwidth_refl in Hx1.
  set (x1 := map2 add_rows s (attend p (map (layer_norm w1 b1) s))) in *.
  assert (Hy2 : seq_size T n
            (map (fun row => linear W2 c2 (map gelu (linear W1 c1 row)))
               (map (layer_norm w2 b2) x1))).
  { apply seq_size_map with n.
    - apply seq_size_map with n; [assumption|]. intros row Hr.
      now apply layer_norm_length.
    - intros row _. rewrite linear_length. exact Lo2. }
  pose proof (seq_size_add Hx1 Hy2 (broadcastable_refl n)) as Hout.
  now rewrite bwidth_refl in Hout.
Qed.

Lemma blocks_forward_ok st config B T : forall h X,
  Forall (block_ok st config) h ->
  0 < GPTConfig.n_embd config -> 0 < B -> 0 < T ->
  T <= GPTConfig.block_size config ->
  has_size B T (GPTConfig.n_embd config) X ->
  exists Y, blocks_forward st h X = Ok Y /\
            has_size B T (GPTConfig.n_embd config) Y.
Proof.
  induction h as [|blk h IH]; intros X Hok Hn HB HT Hbs HX.
  - exists X. now split.
  - inversion Hok as [|? ? Hblk Hrest]; subst.
    destruct (block_plan_ok Hblk Hn HB HT Hbs) as (f & Ef & Hf).
    cbn [blocks_forward].
    rewrite (Block_forward_plan st blk HX HB HT), Ef. cbn [bind].
    apply IH; try assumption.
    now apply has_size_map with (GPTConfig.n_embd config).
Qed.

(** Every token index is in [0, V). *)
Definition in_vocab (V : nat) (idx : list (list Z)) : bool :=
  forallb (forallb (fun i => (0 <=? i)%Z && (i <? Z.of_nat V)%Z)) idx.

Lemma embedding_range oob st e N n ids :
  has_shape st (Embedding.weight e) [N; n] ->
  embedding oob st e ids =
  if forallb (fun i => (0 <=? i)%Z && (i <? Z.of_nat N)%Z) ids
  then match read st (Embedding.weight e) with
       | Some w => Ok (map (emb_row w n) ids)
       | None => Raise RuntimeError
       end
  else Raise oob.
Proof.
  intros (w & Hr & Hs). unfold embedding. rewrite Hr, Hs. reflexivity.
Qed.

Lemma embedding2_range oob st e N n w : forall idx,
  read st (Embedding.weight e) = Some w -> shape w = [N; n] ->
  embedding2 oob st e idx =
  if in_vocab N idx then Ok (map (map (emb_row w n)) idx) else Raise oob.
Proof.
  intros idx Hr Hs. induction idx as [|ids idx IH]; [reflexivity|].
  cbn [embedding2 in_vocab forallb map].
  rewrite (@embedding_range oob st e N n ids) by now exists w.
  rewrite Hr.
  destruct (forallb _ ids); [|reflexivity].
  cbn [bind andb]. rewrite IH. fold (in_vocab N idx).
  now destruct (in_vocab N idx).
Qed.

Lemma positions_in_range T N :
  T <= N ->
  forallb (fun i => (0 <=? i)%Z && (i <? Z.of_nat N)%Z)
    (map Z.of_nat (seq 0 T)) = true.
Proof.
  intros H. apply forallb_forall. intros z Hz.
  apply in_map_iff in Hz. destruct Hz as (k & <- & Hk).
  apply in_seq in Hk. apply andb_true_intro. split.
  - apply Z.leb_le. lia.
  - apply Z.ltb_lt. lia.
Qed.

(** X13.  The forward pass on a model as the constructor builds it
    (lines 79 to 91), for a configuration with [n_embd > 0] and a batch
    of token indices of size [(B, T)] with [B, T > 0].  A sequence
    longer than the block size fails the assertion before any tensor
    is read.  Otherwise a token index outside [[0, vocab_size)] makes
    the lookup in the embedding table raise, and with every index
    inside the pass returns logits of size [(B, T, vocab_size)]: the
    shapes of all layers fit, and the residual stream keeps the width
    [n_embd] through every block. *)
Theorem built_model_logits oob rng config st self st' B T idx :
  GPT.build rng config st = (Ok self, st') ->
  0 < GPTConfig.n_embd config ->
  idx_size B T idx -> 0 < B -> 0 < T ->
  (GPTConfig.block_size config < T ->
     logits oob st' self idx = Raise AssertionError) /\
  (T <= GPTConfig.block_size config ->
     in_vocab (GPTConfig.vocab_size config) idx = false ->
     logits oob st' self idx = Raise oob) /\
  (T <= GPTConfig.block_size config ->
     in_vocab (GPTConfig.vocab_size config) idx = true ->
     exists L, logits oob st' self idx = Ok L /\
               has_size B T (GPTConfig.vocab_size config) L).
Proof.
  intros Hbuild Hn Hidx HB HT.
  destruct (build_ok _ _ _ Hbuild)
    as (Hc & Hwte & Hwpe & Hh & Hln & Hlmb & Hlm).
  remember (logits oob st' self idx) as r eqn:Er.
  unfold logits in Er. rewrite (idx_size_hd Hidx HB), Hc in Er.
  destruct (Nat.leb_spec T (GPTConfig.block_size config)) as [Hbs|Hbs].
  2:{ cbn [py_assert bind] in Er. subst r.
      split; [reflexivity|]. split; intros; lia. }
  cbn [py_assert bind] in Er.
  split; [intros; lia|].
  rewrite (@embedding_range oob st' _ _ (GPTConfig.n_embd config) _ Hwpe) in Er.
  rewrite (positions_in_range Hbs) in Er.
  destruct Hwpe as (wp & Hrp & Hsp). rewrite Hrp in Er. cbn [bind] in Er.
  destruct Hwte as (w & Hrw & Hsw).
  rewrite (@embedding2_range oob st' _ _ (GPTConfig.n_embd config) w idx Hrw
      Hsw) in Er.
  destruct (in_vocab (GPTConfig.vocab_size config) idx).
  2:{ cbn [bind] in Er. subst r.
      split; [reflexivity | discriminate]. }
  split; [discriminate|]. intros _ _.
  cbn [bind] in Er.
  unfold add_positions in Er.
  rewrite (width_size (tok_size w (GPTConfig.n_embd config) Hidx) HB HT) in Er.
  assert (Wpos : length (hd [] (map (emb_row wp (GPTConfig.n_embd config))
      (map Z.of_nat (seq 0 T))))
                 = (GPTConfig.n_embd config)).
  { destruct T as [|T']; [lia|]. cbn. apply emb_row_length. }
  rewrite Wpos, broadcastable_refl in Er. cbn [bind] in Er.
  assert (HX0 : has_size B T (GPTConfig.n_embd config)
            (map (fun s => map2 add_rows s
                             (map (emb_row wp (GPTConfig.n_embd config)) (map
                                 Z.of_nat (seq 0 T))))
               (map (map (emb_row w (GPTConfig.n_embd config))) idx))).
  { apply has_size_map with (GPTConfig.n_embd config); [now apply tok_size|].
    intros s Hs.
    assert (Hpos : seq_size T (GPTConfig.n_embd config)
              (map (emb_row wp (GPTConfig.n_embd config)) (map Z.of_nat (seq 0
                  T)))).
    { split; [now rewrite !length_map, length_seq|].
      apply Forall_forall. intros row Hr. apply in_map_iff in Hr.
      destruct Hr as (k & <- & _). apply emb_row_length. }
    pose proof (seq_size_add Hs Hpos (broadcastable_refl (GPTConfig.n_embd
        config))) as Hadd.
    now rewrite bwidth_refl in Hadd. }
  destruct (@blocks_forward_ok st' config B T (GPT.h self) _ Hh Hn HB HT Hbs
              HX0) as (Y & EY & HY).
  rewrite EY in Er. cbn [bind] in Er.
  unfold LayerNorm_forward in Er. rewrite (width_size HY HB HT) in Er.
  destruct Hln as [Hlw Hlb].
  destruct (load_vector_ok Hlw) as (wf & Ewf).
  destruct (load_vector_ok Hlb) as (bf & Ebf).
  rewrite Ewf, Ebf in Er. cbn [bind] in Er.
  assert (HZ : has_size B T (GPTConfig.n_embd config) (map (map (layer_norm wf
      bf)) Y)).
  { apply has_size_map with (GPTConfig.n_embd config); [assumption|]. intros s
      Hs.
    apply seq_size_map with (GPTConfig.n_embd config); [assumption|]. intros
        row Hr.
    apply layer_norm_length; eauto using load_vector_length. }
  unfold Linear_forward in Er. rewrite (width_size HZ HB HT) in Er.
  destruct (load_linear_nobias _ Hlm Hlmb) as (W & c & El & LW & Lc).
  rewrite El in Er. cbn [bind] in Er. subst r.
  eexists. split; [reflexivity|].
  apply has_size_map with (GPTConfig.n_embd config); [assumption|]. intros s Hs.
  apply seq_size_map with (GPTConfig.n_embd config); [assumption|]. intros row
      _.
  rewrite linear_length. now apply combine_same_length.
Qed.

Lemma built_model_logits_witness :
  let rng := fun (_ : handle) (_ : nat) => Fin 1 in
  let config := GPTConfig.mk 2 3 1 1 1 in
  exists self st L,
    GPT.build rng config [] = (Ok self, st) /\
    logits RuntimeError st self [[0; 2]]%Z = Ok L /\
    has_size 1 2 3 L.
Proof.
  intros rng config.
  destruct (GPT.build rng config []) as [[self|e] st] eqn:E;
    [|cbn in E; discriminate].
  destruct (@built_model_logits RuntimeError rng config [] self st 1 2
              [[0; 2]]%Z E) as (_ & _ & H).
  - cbn. lia.
  - split; [reflexivity | repeat constructor].
  - lia.
  - lia.
  - destruct H as (L & EL & HL); [cbn; lia | reflexivity |].
    exists self, st, L. split; [reflexivity|]. split; [exact EL | exact HL].
Defined.

End BuiltFacts.

(** ** Information flows forwards only *)

Module CausalFacts.
Import Attention AttentionFacts Forward BlockFacts GPTForward ModelFacts.

(** *** Attention, at every position of the common prefix *)

Section Prefix.
Variable p : params.
Variables x x' : list (list scalar).
Variable i : nat.

Hypothesis Hlen : length x' = length x.
Hypothesis Hi : i < length x.
Hypothesis Hmask : causal_mask p (length x).
Hypothesis Hagree :
  forall t, t <= i -> nth t x [] = nth t x' [].
Hypothesis Hfin :
  forall j, i < j -> j < length x ->
    finite_row (v_row p (nth j x [])) /\
    finite_row (v_row p (nth j x' [])).

(** The masked scores of a position [t] of the prefix only read the
    keys up to [t]. *)
Lemma masked_scores_prefix hd t :
  t <= i ->
  masked_scores p (map (head_slice p hd) (map (q_row p) x))
    (map (head_slice p hd) (map (k_row p) x)) t
  = masked_scores p (map (head_slice p hd) (map (q_row p) x'))
      (map (head_slice p hd) (map (k_row p) x')) t.
Proof.
  intros Ht. unfold masked_scores. rewrite !length_map, Hlen.
  apply map_ext_in. intros j Hj. apply in_seq in Hj.
  rewrite Hmask by lia.
  destruct (Nat.ltb_spec t j) as [Hlt|Hge]; [reflexivity|].
  rewrite !map_map.
  rewrite !(nth_map_lt _ _ [] []) by lia.
  now rewrite !Hagree by lia.
Qed.

(** Position [t] of the output of one head: the positions up to [i]
    contribute the same terms, the later ones have weight zero (or NaN)
    and a finite value. *)
Lemma head_output_prefix hd t :
  t <= i ->
  nth t (head_output p (map (q_row p) x) (map (k_row p) x)
           (map (v_row p) x) hd) []
  = nth t (head_output p (map (q_row p) x') (map (k_row p) x')
             (map (v_row p) x') hd) [].
Proof.
  intros Ht. unfold head_output. rewrite !length_map, Hlen.
  rewrite !nth_map_seq by lia.
  rewrite <- (masked_scores_prefix hd Ht).
  set (row := masked_scores p _ _ t).
  assert (Hrow : length row = length x).
  { unfold row. now rewrite masked_scores_length, !length_map. }
  unfold weighted_sum. apply map_ext. intros d.
  unfold dot. apply dot_acc_ext.
  - now rewrite !length_map.
  - rewrite softmax_length, Hrow, !length_map. intros j Hj _.
    rewrite !map_map.
    rewrite !(nth_map_lt _ _ NaN []) by lia.
    destruct (Nat.le_gt_cases j i) as [Hle|Hgt].
    + now rewrite Hagree.
    + apply zero_or_nan_smul.
      * apply softmax_masked; [lia|].
        unfold row, masked_scores. rewrite !length_map.
        rewrite nth_map_seq by assumption.
        rewrite Hmask by lia.
        now destruct (Nat.ltb_spec t j); [|lia].
      * apply nth_is_finite. unfold head_slice.
        apply Forall_firstn, Forall_skipn. now apply Hfin.
      * apply nth_is_finite. unfold head_slice.
        apply Forall_firstn, Forall_skipn. now apply Hfin.
Qed.

Lemma attend_prefix t :
  t <= i -> nth t (attend p x) [] = nth t (attend p x') [].
Proof.
  intros Ht. unfold attend. rewrite Hlen.
  rewrite !(nth_map_lt _ _ [] []) by (rewrite length_map, length_seq; lia).
  rewrite !nth_map_seq by lia.
  f_equal. rewrite !flat_map_map.
  apply flat_map_ext. intros hd. now apply head_output_prefix.
Qed.
End Prefix.

(** *** One block *)

(** The value projections that the attention of block [blk] computes
    from the input [X] hold finite numbers at every position after
    [i]. *)
Definition later_values_finite (st : store) (blk : Block.t) (i : nat)
  (X : tensor3) : Prop :=
  forall A p b j,
    LayerNorm_forward st (Block.ln_1 blk) X = Ok A ->
    load st (Block.attn blk) (length X) (length (hd [] X)) (width X) = Ok p ->
    b < length X -> i < j -> j < length (hd [] X) ->
    finite_row (v_row p (nth j (nth b A []) [])).

Lemma block_seq_prefix w1 b1 p w2 b2 W1 c1 W2 c2 T s s' i t :
  length s = T -> length s' = T -> i < T -> t <= i ->
  causal_mask p T ->
  (forall u, u <= i -> nth u s [] = nth u s' []) ->
  (forall j, i < j -> j < T ->
     finite_row (v_row p (layer_norm w1 b1 (nth j s []))) /\
     finite_row (v_row p (layer_norm w1 b1 (nth j s' [])))) ->
  nth t (block_seq w1 b1 p w2 b2 W1 c1 W2 c2 s) []
  = nth t (block_seq w1 b1 p w2 b2 W1 c1 W2 c2 s') [].
Proof.
  intros Hs Hs' Hi Ht Hmask Hagree Hfin.
  set (ln := layer_norm w1 b1).
  assert (Hy : nth t (attend p (map ln s)) []
               = nth t (attend p (map ln s')) []).
  { apply attend_prefix with i; try assumption.
    - now rewrite !length_map, Hs, Hs'.
    - now rewrite length_map, Hs.
    - now rewrite length_map, Hs.
    - intros u Hu.
      rewrite !(nth_map_lt ln _ [] []) by lia. now rewrite Hagree.
    - intros j Hij Hj. rewrite length_map, Hs in Hj.
      rewrite !(nth_map_lt ln _ [] []) by lia.
      now apply Hfin. }
  assert (Hx1 : nth t (map2 add_rows s (attend p (map ln s))) []
                = nth t (map2 add_rows s' (attend p (map ln s'))) []).
  { rewrite !(nth_map2 add_rows [] [] [])
      by (rewrite ?attend_length, ?length_map; lia).
    now rewrite Hy, (Hagree t Ht). }
  assert (Hl1 : forall u, length u = T ->
            length (map2 add_rows u (attend p (map ln u))) = T).
  { intros u Hu.
    rewrite map2_length_combine, length_combine, attend_length, length_map.
    lia. }
  unfold block_seq. cbv zeta. fold ln.
  set (x1 := map2 add_rows s (attend p (map ln s))) in *.
  set (x1' := map2 add_rows s' (attend p (map ln s'))) in *.
  pose proof (Hl1 s Hs) as L1. pose proof (Hl1 s' Hs') as L1'.
  fold x1 in L1. fold x1' in L1'.
  rewrite !(nth_map2 add_rows [] [] [])
    by (rewrite ?length_map; lia).
  rewrite !(nth_map_lt _ _ [] []) by (rewrite ?length_map; lia).
  now rewrite Hx1.
Qed.

(** What a successful run of the checks of a block has read. *)
Lemma block_plan_parts st blk B T C f :
  block_plan st blk B T C = Ok f ->
  exists w1 b1 p w2 b2 W1 c1 W2 c2,
    f = block_seq w1 b1 p w2 b2 W1 c1 W2 c2 /\
    load_vector st (LayerNorm.weight (Block.ln_1 blk)) C = Ok w1 /\
    load_vector st (LayerNorm.bias (Block.ln_1 blk)) C = Ok b1 /\
    load st (Block.attn blk) B T C = Ok p /\
    broadcastable C (length (combine (W_proj p) (b_proj p))) = true /\
    length w2 = bwidth C (length (combine (W_proj p) (b_proj p))) /\
    length b2 = bwidth C (length (combine (W_proj p) (b_proj p))) /\
    broadcastable (bwidth C (length (combine (W_proj p) (b_proj p))))
      (length (combine W2 c2)) = true.
Proof.
  intros H. unfold block_plan in H.
  destruct (load_vector st (LayerNorm.weight (Block.ln_1 blk)) C)
    as [w1|e] eqn:Ew1; [|discriminate].
  destruct (load_vector st (LayerNorm.bias (Block.ln_1 blk)) C)
    as [b1|e] eqn:Eb1; [|discriminate].
  cbn [bind] in H.
  destruct (load st (Block.attn blk) B T C) as [p|e] eqn:Ep; [|discriminate].
  cbn [bind] in H.
  destruct (broadcastable C (length (combine (W_proj p) (b_proj p))))
    eqn:Hb1; [|discriminate].
  destruct (load_vector st (LayerNorm.weight (Block.ln_2 blk)) _)
    as [w2|e] eqn:Ew2; [|discriminate].
  destruct (load_vector st (LayerNorm.bias (Block.ln_2 blk)) _)
    as [b2|e] eqn:Eb2; [|discriminate].
  cbn [bind] in H.
  destruct (load_linear st (MLP.c_fc (Block.mlp blk)) _)
    as [[[W1 c1] out1]|e] eqn:E1; [|discriminate].
  cbn [bind] in H.
  destruct (load_linear st (MLP.c_proj (Block.mlp blk)) out1)
    as [[[W2 c2] out2]|e] eqn:E2; [|discriminate].
  cbn [bind] in H.
  destruct (broadcastable _ (length (combine W2 c2))) eqn:Hb2;
    [|discriminate].
  injection H as <-.
  exists w1, b1, p, w2, b2, W1, c1, W2, c2.
  repeat split; eauto using load_vector_length.
Qed.

(** A block keeps the number of positions and gives every position the
    same width. *)
Lemma block_seq_size w1 b1 p w2 b2 W1 c1 W2 c2 T C s :
  let out := length (combine (W_proj p) (b_proj p)) in
  let C1 := bwidth C out in
  length w1 = C -> length b1 = C ->
  broadcastable C out = true ->
  length w2 = C1 -> length b2 = C1 ->
  broadcastable C1 (length (combine W2 c2)) = true ->
  seq_size T C s ->
  seq_size T (bwidth C1 (length (combine W2 c2)))
    (block_seq w1 b1 p w2 b2 W1 c1 W2 c2 s).
Proof.
  intros out C1 Lw1 Lb1 Hb1 Lw2 Lb2 Hb2 Hs.
  unfold block_seq. cbv zeta.
  set (a := map (layer_norm w1 b1) s).
  assert (Ha : seq_size T C a).
  { apply seq_size_map with C; [assumption|]. intros row Hr.
    now apply layer_norm_length. }
  set (y := attend p a).
  assert (Hy : seq_size T out y) by now apply seq_size_attend with C.
  set (x1 := map2 add_rows s y).
  assert (Hx1 : seq_size T C1 x1) by now apply seq_size_add.
  set (a2 := map (layer_norm w2 b2) x1).
  assert (Ha2 : seq_size T C1 a2).
  { apply seq_size_map with C1; [assumption|]. intros row Hr.
    now apply layer_norm_length. }
  set (mlp := fun row => linear W2 c2 (map gelu (linear W1 c1 row))).
  set (y2 := map mlp a2).
  assert (Hy2 : seq_size T (length (combine W2 c2)) y2).
  { apply seq_size_map with C1; [assumption|]. intros row _.
    unfold mlp. apply linear_length. }
  now apply seq_size_add.
Qed.

Lemma has_size_hd B T C X :
  has_size B T C X -> 0 < B -> length (hd [] X) = T.
Proof.
  intros [HlenB HX] HB. destruct X as [|s X]; [cbn in HlenB; lia|].
  inversion HX as [|? ? [Hs _] _]. exact Hs.
Qed.

(** The value projections of [later_values_finite], written with the
    parameters the block has read. *)
Lemma later_values_rows st blk i B T C X w1 b1 p :
  has_size B T C X -> 0 < B -> 0 < T ->
  load_vector st (LayerNorm.weight (Block.ln_1 blk)) C = Ok w1 ->
  load_vector st (LayerNorm.bias (Block.ln_1 blk)) C = Ok b1 ->
  load st (Block.attn blk) B T C = Ok p ->
  later_values_finite st blk i X ->
  forall b j, b < B -> i < j -> j < T ->
    finite_row (v_row p (layer_norm w1 b1 (nth j (nth b X []) []))).
Proof.
  intros HX HB HT Ew1 Eb1 Ep Hv b j Hb Hij Hj.
  pose proof (has_size_hd HX HB) as Lhd.
  pose proof (width_size HX HB HT) as Lw.
  pose proof (has_size_nth HX Hb) as Lb.
  destruct HX as [HlenB _].
  specialize (Hv (map (map (layer_norm w1 b1)) X) p b j).
  rewrite HlenB, Lhd, Lw in Hv.
  unfold LayerNorm_forward in Hv. rewrite Lw, Ew1, Eb1 in Hv.
  specialize (Hv eq_refl Ep Hb Hij Hj).
  rewrite (nth_map_lt _ _ [] []) in Hv by lia.
  now rewrite (nth_map_lt _ _ [] []) in Hv by lia.
Qed.

Lemma block_prefix st blk bs B T C X X' Y i :
  read st (CausalSelfAttention.bias (Block.attn blk)) = Some (tril_ones bs) ->
  T <= bs -> 0 < B -> i < T ->
  has_size B T C X -> has_size B T C X' ->
  agree_upto i B X X' ->
  later_values_finite st blk i X -> later_values_finite st blk i X' ->
  Block_forward st blk X = Ok Y ->
  exists Y' C',
    Block_forward st blk X' = Ok Y' /\
    has_size B T C' Y /\ has_size B T C' Y' /\ agree_upto i B Y Y'.
Proof.
  intros Hbuf Hbs HB Hi HX HX' Hagree Hv Hv' Hrun.
  assert (HT : 0 < T) by lia.
  rewrite (Block_forward_plan st blk HX HB HT) in Hrun.
  rewrite (Block_forward_plan st blk HX' HB HT).
  destruct (block_plan st blk B T C) as [f|e] eqn:Ef; [|discriminate].
  cbn [bind] in *. injection Hrun as <-.
  destruct (block_plan_parts _ _ _ _ _ Ef)
    as (w1 & b1 & p & w2 & b2 & W1 & c1 & W2 & c2 & -> & Ew1 & Eb1 & Ep
        & Hb1 & Lw2 & Lb2 & Hb2).
  pose proof (load_vector_length _ _ _ Ew1) as Lw1.
  pose proof (load_vector_length _ _ _ Eb1) as Lb1.
  assert (Hmask : causal_mask p T).
  { unfold causal_mask. apply (load_mask_tril _ _ Hbuf Hbs).
    now apply load_masked with B C. }
  assert (Hsize : forall s, seq_size T C s ->
            seq_size T
              (bwidth (bwidth C (length (combine (W_proj p) (b_proj p))))
                 (length (combine W2 c2)))
              (block_seq w1 b1 p w2 b2 W1 c1 W2 c2 s)).
  { intros s Hs. now apply block_seq_size. }
  eexists _, _. split; [reflexivity|].
  split; [exact (has_size_map _ HX Hsize)|].
  split; [exact (has_size_map _ HX' Hsize)|].
  intros b t Hb Ht.
  rewrite !(nth_map_lt _ _ [] []) by (destruct HX, HX'; lia).
  apply block_seq_prefix with T i; try assumption.
  - exact (has_size_nth HX Hb).
  - exact (has_size_nth HX' Hb).
  - intros u Hu. now apply Hagree.
  - intros j Hij Hj. split.
    + now apply (later_values_rows HX HB HT Ew1 Eb1 Ep Hv).
    + now apply (later_values_rows HX' HB HT Ew1 Eb1 Ep Hv').
Qed.

(** In the arithmetic of this file, which neither rounds nor overflows,
    finite parameters and finite inputs give finite value projections. *)
Lemma later_values_finite_intro st blk i B T C X :
  store_finite st -> has_size B T C X -> 0 < B -> 0 < T ->
  all_finite X -> later_values_finite st blk i X.
Proof.
  intros Hst HX HB HT FX A p b j HA Hp Hb Hij Hj.
  pose proof (has_size_hd HX HB) as Lhd.
  pose proof (width_size HX HB HT) as Lw.
  rewrite Lhd in Hj.
  assert (Hb' : b < B) by (destruct HX; lia).
  pose proof (has_size_nth HX Hb') as Lb.
  unfold LayerNorm_forward in HA. rewrite Lw in HA.
  destruct (load_vector st (LayerNorm.weight (Block.ln_1 blk)) C)
    as [w1|e] eqn:Ew1; [|discriminate].
  destruct (load_vector st (LayerNorm.bias (Block.ln_1 blk)) C)
    as [b1|e] eqn:Eb1; [|discriminate].
  cbn [bind] in HA. injection HA as <-.
  rewrite (nth_map_lt _ _ [] []) by assumption.
  rewrite (nth_map_lt _ _ [] []) by lia.
  destruct (load_finite _ _ _ _ Hst Hp) as (FWa & Fba & _ & _).
  unfold v_row. apply Forall_firstn, Forall_skipn.
  apply linear_finite; try assumption.
  apply layer_norm_finite; eauto using load_vector_finite.
  apply Forall_nth_row. unfold all_finite in FX.
  rewrite Forall_forall in FX. apply FX, nth_In, Hb.
Qed.

(** X11.  A block passes information forwards only.  Let the mask
    buffer of its attention module be the lower triangle the constructor
    stores, and let [X] and [X'] be two inputs of size [(B, T, C)] with
    [T] at most the block size that agree on the positions [0..i] of
    every sequence.  If the value projections that the attention of the
    block computes at the positions after [i] hold finite numbers only,
    for both inputs, then whenever [Block.forward] returns on the first
    it returns on the second, and the two outputs are the same at the
    positions [0..i] of every sequence: the layer normalisations, the
    MLP and the residual additions work on each position alone. *)
Theorem block_causal st blk bs B T C X X' Y i :
  read st (CausalSelfAttention.bias (Block.attn blk)) = Some (tril_ones bs) ->
  T <= bs ->
  has_size B T C X -> has_size B T C X' -> 0 < B -> i < T ->
  (forall b t, b < B -> t <= i ->
     nth t (nth b X []) [] = nth t (nth b X' []) []) ->
  later_values_finite st blk i X ->
  later_values_finite st blk i X' ->
  Block_forward st blk X = Ok Y ->
  exists Y',
    Block_forward st blk X' = Ok Y' /\
    forall b t, b < B -> t <= i ->
      nth t (nth b Y []) [] = nth t (nth b Y' []) [].
Proof.
  intros Hbuf Hbs HX HX' HB Hi Hagree Hv Hv' Hrun.
  destruct (@block_prefix st blk bs B T C X X' Y i)
    as (Y' & C' & HY' & _ & _ & HA); try assumption.
  exists Y'. split; [exact HY' | exact HA].
Qed.

Lemma block_causal_witness :
  let rng := fun (h : handle) (k : nat) => Fin (INR (h + k * k)) in
  let config := GPTConfig.mk 2 3 1 1 3 in
  let X := [[[Fin 1; Fin 2; Fin 4]; [Fin 1; Fin 2; Fin 4]]] in
  let X' := [[[Fin 1; Fin 2; Fin 4]; [Fin 5; Fin 3; Fin 3]]] in
  exists blk st Y Y',
    Block.init rng config [] = (Ok blk, st) /\
    Block_forward st blk X = Ok Y /\ Block_forward st blk X' = Ok Y' /\
    nth 0 (nth 0 Y []) [] = nth 0 (nth 0 Y' []) [].
Proof.
  intros rng config X X'.
  destruct (Block.init rng config []) as [[blk|e] st] eqn:E;
    cbn in E; unfold ret in E; [|discriminate].
  injection E as <- <-.
  match goal with
  | |- exists blk st Y Y', (Ok ?b0, ?st0) = _ /\ _ =>
      set (blk := b0); set (st := st0)
  end.
  assert (HX : has_size 1 2 3 X) by (split; [reflexivity | repeat constructor]).
  assert (HX' : has_size 1 2 3 X') by (split; [reflexivity | repeat constructor]).
  assert (Hplan : is_ok (block_plan st blk 1 2 3) = true) by reflexivity.
  assert (EY : exists Y, Block_forward st blk X = Ok Y).
  { rewrite (@Block_forward_plan st blk 1 2 3 X HX) by lia.
    destruct (block_plan st blk 1 2 3) as [f|e]; [|discriminate].
    now eexists. }
  destruct EY as [Y EY].
  assert (Hst : store_finite st).
  { intros h v Hr k.
    do 13 (destruct h as [|h];
           [cbn in Hr; injection Hr as <-; unfold rng; cbn;
            try reflexivity;
            match goal with
            | |- context [if ?c then _ else _] => now destruct c
            end|]).
    destruct h; discriminate. }
  destruct (@block_causal st blk 2 1 2 3 X X' Y 0)
    as (Y' & HY' & Heq); try assumption; try lia.
  - reflexivity.
  - intros b t Hb Ht.
    assert (b = 0) by lia. assert (t = 0) by lia. subst. reflexivity.
  - apply later_values_finite_intro with 1 2 3; try assumption; try lia.
    repeat constructor.
  - apply later_values_finite_intro with 1 2 3; try assumption; try lia.
    repeat constructor.
  - exists blk, st, Y, Y'. split; [reflexivity|].
    split; [exact EY|]. split; [exact HY'|]. apply Heq; lia.
Defined.

(** *** The stack of blocks *)

(** The same for every block of the stack, each on the input it
    receives from the blocks before it. *)
Fixpoint values_finite (st : store) (h : list Block.t) (i : nat)
  (X : tensor3) : Prop :=
  match h with
  | [] => True
  | blk :: h' =>
      later_values_finite st blk i X /\
      forall X1, Block_forward st blk X = Ok X1 -> values_finite st h' i X1
  end.

Lemma blocks_prefix st bs B T i : forall h C X X' Y,
  Forall (fun blk =>
            read st (CausalSelfAttention.bias (Block.attn blk))
            = Some (tril_ones bs)) h ->
  T <= bs -> 0 < B -> i < T ->
  has_size B T C X -> has_size B T C X' -> agree_upto i B X X' ->
  values_finite st h i X -> values_finite st h i X' ->
  blocks_forward st h X = Ok Y ->
  exists Y' C',
    blocks_forward st h X' = Ok Y' /\
    has_size B T C' Y /\ has_size B T C' Y' /\ agree_upto i B Y Y'.
Proof.
  induction h as [|blk h IH];
    intros C X X' Y Hmask Hbs HB Hi HX HX' Hagree Hv Hv' Hrun.
  - cbn in Hrun. injection Hrun as <-. exists X', C.
    split; [reflexivity|]. repeat (split; [assumption|]). assumption.
  - inversion Hmask as [|? ? Hblk Hrest]; subst.
    cbn [blocks_forward] in Hrun |- *.
    destruct Hv as [Hv Hnext]. destruct Hv' as [Hv' Hnext'].
    destruct (Block_forward st blk X) as [X1|e] eqn:E1; [|discriminate].
    cbn [bind] in Hrun.
    destruct (@block_prefix st blk bs B T C X X' X1 i)
      as (X1' & C1 & E1' & H1 & H1' & A1); try assumption.
    rewrite E1'. cbn [bind].
    apply IH with C1 X1; try assumption.
    + now apply Hnext.
    + now apply Hnext'.
Qed.

(** *** From the tokens to the logits *)

(** Lines 106 to 112 of [GPT.forward]: the sum of the token and the
    position embeddings, which is the input of the first block. *)
Definition embedded (oob : exn) (st : store) (self : GPT.t)
  (idx : list (list Z)) : result tensor3 :=
  let T := length (hd [] idx) in
  py_assert (T <=? GPTConfig.block_size (GPT.config self)) ;;;
  pos_emb <- embedding oob st (GPT.wpe self) (map Z.of_nat (seq 0 T)) ;;
  tok_emb <- embedding2 oob st (GPT.wte self) idx ;;
  add_positions tok_emb pos_emb.

Lemma logits_embedded oob st self idx :
  logits oob st self idx
  = (x <- embedded oob st self idx ;;
     x <- blocks_forward st (GPT.h self) x ;;
     x <- LayerNorm_forward st (GPT.ln_f self) x ;;
     Linear_forward st (GPT.lm_head self) x).
Proof.
  unfold logits, embedded.
  destruct (py_assert _); [|reflexivity]. cbn [bind].
  destruct (embedding oob st (GPT.wpe self) _); [|reflexivity]. cbn [bind].
  destruct (embedding2 oob st (GPT.wte self) idx); [|reflexivity].
  reflexivity.
Qed.

Lemma embedded_size w wp n np B T idx :
  idx_size B T idx -> broadcastable n np = true ->
  has_size B T (bwidth n np)
    (map (fun s => map2 add_rows s
                     (map (emb_row wp np) (map Z.of_nat (seq 0 T))))
       (map (map (emb_row w n)) idx)).
Proof.
  intros Hidx Hb.
  apply has_size_map with n; [now apply tok_size|].
  intros s Hs. apply seq_size_add; [assumption | | assumption].
  split; [now rewrite !length_map, length_seq|].
  apply Forall_forall. intros r Hr. apply in_map_iff in Hr.
  destruct Hr as (k & <- & _). apply emb_row_length.
Qed.

Lemma positions_width wp np T :
  0 < T ->
  length (hd [] (map (emb_row wp np) (map Z.of_nat (seq 0 T)))) = np.
Proof.
  intros HT. destruct T as [|T']; [lia|]. cbn. apply emb_row_length.
Qed.

(** What a successful run of lines 106 to 112 has read and returns. *)
Lemma embedded_inv oob st self B T idx X0 :
  idx_size B T idx -> 0 < B -> 0 < T ->
  embedded oob st self idx = Ok X0 ->
  exists w N n wp Np np,
    read st (Embedding.weight (GPT.wte self)) = Some w /\
    shape w = [N; n] /\
    read st (Embedding.weight (GPT.wpe self)) = Some wp /\
    shape wp = [Np; np] /\
    T <= GPTConfig.block_size (GPT.config self) /\
    broadcastable n np = true /\
    embedding oob st (GPT.wpe self) (map Z.of_nat (seq 0 T))
    = Ok (map (emb_row wp np) (map Z.of_nat (seq 0 T))) /\
    X0 = map (fun s => map2 add_rows s
                         (map (emb_row wp np) (map Z.of_nat (seq 0 T))))
           (map (map (emb_row w n)) idx).
Proof.
  intros Hidx HB HT Hrun. unfold embedded in Hrun.
  rewrite (idx_size_hd Hidx HB) in Hrun.
  destruct (Nat.leb_spec T (GPTConfig.block_size (GPT.config self)))
    as [Hbs|]; [|discriminate].
  cbn [py_assert bind] in Hrun.
  destruct (embedding oob st (GPT.wpe self) (map Z.of_nat (seq 0 T)))
    as [pos|e] eqn:Epos; [|discriminate].
  cbn [bind] in Hrun.
  destruct (embedding2 oob st (GPT.wte self) idx) as [tok|e] eqn:Etok;
    [|discriminate].
  cbn [bind] in Hrun.
  destruct (@embedding_inv oob st _ _ pos Epos)
    as (wp & Np & np & Hrp & Hsp & Hpos).
  assert (Hne : idx <> []).
  { destruct Hidx as [Hl _]. destruct idx; [cbn in Hl; lia | discriminate]. }
  destruct (@embedding2_read oob st _ idx tok Etok Hne)
    as (w & N & n & Hrw & Hsw).
  pose proof (@embedding2_inv oob st _ w N n idx tok Hrw Hsw Etok) as ->.
  subst pos. unfold add_positions in Hrun.
  rewrite (width_size (tok_size w n Hidx) HB HT) in Hrun.
  rewrite (positions_width wp np HT) in Hrun.
  destruct (broadcastable n np) eqn:Hb; [|discriminate].
  injection Hrun as <-.
  exists w, N, n, wp, Np, np. repeat split; assumption.
Qed.

(** Two batches of tokens that agree on the positions [0..i] give
    embeddings that agree there. *)
Lemma embedded_pair oob st self B T idx idx' X0 tok' i :
  idx_size B T idx -> idx_size B T idx' -> 0 < B -> i < T ->
  (forall b t, b < B -> t <= i ->
     nth t (nth b idx []) 0%Z = nth t (nth b idx' []) 0%Z) ->
  embedded oob st self idx = Ok X0 ->
  embedding2 oob st (GPT.wte self) idx' = Ok tok' ->
  T <= GPTConfig.block_size (GPT.config self) /\
  exists X0' C,
    embedded oob st self idx' = Ok X0' /\
    has_size B T C X0 /\ has_size B T C X0' /\ agree_upto i B X0 X0'.
Proof.
  intros Hidx Hidx' HB Hi Hagree Hrun Htok'.
  assert (HT : 0 < T) by lia.
  destruct (@embedded_inv oob st self B T idx X0 Hidx HB HT Hrun)
    as (w & N & n & wp & Np & np & Hrw & Hsw & Hrp & Hsp & Hbs & Hb
        & Epos & ->).
  split; [assumption|].
  pose proof (@embedding2_inv oob st _ w N n idx' tok' Hrw Hsw Htok') as ->.
  eexists _, (bwidth n np). split; [|split; [|split]].
  - unfold embedded. rewrite (idx_size_hd Hidx' HB).
    destruct (Nat.leb_spec T (GPTConfig.block_size (GPT.config self)));
      [|lia].
    cbn [py_assert bind]. rewrite Epos, Htok'. cbn [bind].
    unfold add_positions.
    rewrite (width_size (tok_size w n Hidx') HB HT).
    rewrite (positions_width wp np HT), Hb. reflexivity.
  - now apply embedded_size.
  - now apply embedded_size.
  - apply embedded_agree with T; try assumption.
    now rewrite !length_map, length_seq.
Qed.

(** In the arithmetic of this file, finite parameters give finite
    value projections in every block. *)
Lemma values_finite_intro st bs B T i : forall h C X,
  store_finite st ->
  Forall (fun blk =>
            read st (CausalSelfAttention.bias (Block.attn blk))
            = Some (tril_ones bs)) h ->
  T <= bs -> 0 < B -> 0 < T ->
  has_size B T C X -> all_finite X ->
  values_finite st h i X.
Proof.
  induction h as [|blk h IH]; intros C X Hst Hmask Hbs HB HT HX FX;
    [exact I|].
  inversion Hmask as [|? ? Hbuf Hrest]; subst.
  split; [now apply later_values_finite_intro with B T C|].
  intros X1 Hrun.
  rewrite (Block_forward_plan st blk HX HB HT) in Hrun.
  destruct (block_plan st blk B T C) as [f|e] eqn:Ef; [|discriminate].
  cbn [bind] in Hrun. injection Hrun as <-.
  destruct (block_plan_inv _ _ _ _ Hst Ef)
    as (w1 & b1 & p & w2 & b2 & W1 & c1 & W2 & c2 & -> & Ep & Lw1 & Lb1
        & Hb1 & Lw2 & Lb2 & Hb2 & Fw1 & Fb1 & Fw2 & Fb2 & FW1 & Fc1
        & FW2 & Fc2).
  destruct (load_finite _ _ _ _ Hst Ep) as (FWa & Fba & FWp & Fbp).
  assert (Hcm : causal_mask p T).
  { unfold causal_mask. apply (load_mask_tril _ _ Hbuf Hbs).
    now apply load_masked with B C. }
  assert (Hgood : forall s, seq_size T C s -> Forall finite_row s ->
            seq_size T
              (bwidth (bwidth C (length (combine (W_proj p) (b_proj p))))
                 (length (combine W2 c2)))
              (block_seq w1 b1 p w2 b2 W1 c1 W2 c2 s) /\
            Forall finite_row (block_seq w1 b1 p w2 b2 W1 c1 W2 c2 s)).
  { intros s Hs Fs. now apply block_seq_good. }
  destruct (map_good _ HX FX Hgood) as [HY FY].
  now apply IH
    with (C := bwidth (bwidth C (length (combine (W_proj p) (b_proj p))))
                 (length (combine W2 c2))).
Qed.

Lemma embedded_values_finite oob st self B T idx i X0 :
  store_finite st ->
  Forall (fun blk =>
            read st (CausalSelfAttention.bias (Block.attn blk))
            = Some (tril_ones (GPTConfig.block_size (GPT.config self))))
    (GPT.h self) ->
  idx_size B T idx -> 0 < B -> 0 < T ->
  embedded oob st self idx = Ok X0 ->
  values_finite st (GPT.h self) i X0.
Proof.
  intros Hst Hmask Hidx HB HT Hrun.
  destruct (@embedded_inv oob st self B T idx X0 Hidx HB HT Hrun)
    as (w & N & n & wp & Np & np & Hrw & Hsw & Hrp & Hsp & Hbs & Hb
        & _ & ->).
  destruct (@embedded_good st _ _ w wp n np B T idx Hst Hrw Hrp Hidx Hb)
    as [HX0 FX0].
  now apply values_finite_intro
    with (GPTConfig.block_size (GPT.config self)) B T (bwidth n np).
Qed.

(** X12.  The model is autoregressive.  Let the mask buffer of every
    block be the lower triangle of the block size, and let [idx] and
    [idx'] be two batches of token indices of size [(B, T)] that agree
    on the positions [0..i] of every sequence.  Suppose that in both
    runs the value projections that every block computes at the
    positions after [i] hold finite numbers only.  If the forward pass
    returns logits for [idx] and the tokens of [idx'] can be looked up
    in the embedding table, the forward pass returns logits for [idx']
    too, and the two are the same at the positions [0..i] of every
    sequence: the logits of a position depend on no later token. *)
Theorem logits_causal oob st self B T idx idx' L tok' i :
  Forall (fun blk =>
            read st (CausalSelfAttention.bias (Block.attn blk))
            = Some (tril_ones (GPTConfig.block_size (GPT.config self))))
    (GPT.h self) ->
  idx_size B T idx -> idx_size B T idx' -> 0 < B -> i < T ->
  (forall b t, b < B -> t <= i ->
     nth t (nth b idx []) 0%Z = nth t (nth b idx' []) 0%Z) ->
  (forall X0, embedded oob st self idx = Ok X0 ->
     values_finite st (GPT.h self) i X0) ->
  (forall X0, embedded oob st self idx' = Ok X0 ->
     values_finite st (GPT.h self) i X0) ->
  logits oob st self idx = Ok L ->
  embedding2 oob st (GPT.wte self) idx' = Ok tok' ->
  exists L',
    logits oob st self idx' = Ok L' /\
    forall b t, b < B -> t <= i ->
      nth t (nth b L []) [] = nth t (nth b L' []) [].
Proof.
  intros Hmask Hidx Hidx' HB Hi Hagree Hv Hv' Hrun Htok'.
  assert (HT : 0 < T) by lia.
  rewrite logits_embedded in Hrun. rewrite logits_embedded.
  destruct (embedded oob st self idx) as [X0|e] eqn:E0; [|discriminate].
  cbn [bind] in Hrun.
  destruct (@embedded_pair oob st self B T idx idx' X0 tok' i
              Hidx Hidx' HB Hi Hagree E0 Htok')
    as (Hbs & X0' & C & E0' & HX0 & HX0' & HA0).
  rewrite E0'. cbn [bind].
  destruct (blocks_forward st (GPT.h self) X0) as [Y|e] eqn:EY;
    [|discriminate].
  destruct (@blocks_prefix st _ B T i (GPT.h self) C X0 X0' Y Hmask Hbs HB Hi
              HX0 HX0' HA0 (Hv X0 eq_refl) (Hv' X0' E0') EY)
    as (Y' & C' & EY' & HY & HY' & HA).
  rewrite EY'. cbn [bind] in *.
  unfold LayerNorm_forward in *.
  rewrite (width_size HY HB HT) in Hrun. rewrite (width_size HY' HB HT).
  destruct (load_vector st (LayerNorm.weight (GPT.ln_f self)) C')
    as [wf|e] eqn:Ewf; [|discriminate].
  destruct (load_vector st (LayerNorm.bias (GPT.ln_f self)) C')
    as [bf|e] eqn:Ebf; [|discriminate].
  cbn [bind] in *.
  assert (Hln : forall Z0, has_size B T C' Z0 ->
            has_size B T C' (map (map (layer_norm wf bf)) Z0)).
  { intros Z0 HZ. apply has_size_map with C'; [assumption|]. intros s Hs.
    apply seq_size_map with C'; [assumption|]. intros row Hr.
    apply layer_norm_length; eauto using load_vector_length. }
  unfold Linear_forward in *.
  rewrite (width_size (Hln _ HY) HB HT) in Hrun.
  rewrite (width_size (Hln _ HY') HB HT).
  destruct (load_linear st (GPT.lm_head self) C') as [[[W c] out]|e];
    [|discriminate].
  cbn [bind] in *. injection Hrun as <-.
  eexists. split; [reflexivity|].
  intros b t Hb' Ht.
  assert (E : forall Z0, has_size B T C' Z0 ->
            nth t (nth b (map (map (linear W c))
                            (map (map (layer_norm wf bf)) Z0)) []) []
            = linear W c (layer_norm wf bf (nth t (nth b Z0 []) []))).
  { intros Z0 HZ. pose proof (has_size_nth HZ Hb') as LZ.
    rewrite map_map.
    rewrite (nth_map_lt _ _ [] []) by (destruct HZ; lia).
    rewrite map_map.
    now rewrite (nth_map_lt _ _ [] []) by lia. }
  rewrite (E _ HY), (E _ HY').
  now rewrite (HA b t Hb' Ht).
Qed.

Lemma logits_causal_witness :
  let rng := fun (h : handle) (k : nat) => Fin (INR (h + k * k)) in
  let config := GPTConfig.mk 2 3 2 1 3 in
  exists self st L L',
    GPT.build rng config [] = (Ok self, st) /\
    logits RuntimeError st self [[0; 1]]%Z = Ok L /\
    logits RuntimeError st self [[0; 2]]%Z = Ok L' /\
    nth 0 (nth 0 L []) [] = nth 0 (nth 0 L' []) [].
Proof.
  intros rng config.
  destruct (GPT.build rng config []) as [[self|e] st] eqn:E;
    cbn in E; unfold ret in E; [|discriminate].
  injection E as <- <-.
  match goal with
  | |- exists self st L L', (Ok ?s0, ?st0) = _ /\ _ =>
      set (self := s0); set (st := st0)
  end.
  assert (Hok : is_ok (logits RuntimeError st self [[0; 1]]%Z) = true)
    by reflexivity.
  destruct (logits RuntimeError st self [[0; 1]]%Z) as [L|e] eqn:EL;
    [|discriminate].
  destruct (embedding2 RuntimeError st (GPT.wte self) [[0; 2]]%Z)
    as [tok'|e] eqn:Etok; [|cbn in Etok; discriminate].
  assert (Hst : store_finite st).
  { intros h v Hr k.
    do 31 (destruct h as [|h];
           [cbn in Hr; injection Hr as <-; unfold rng; cbn;
            try reflexivity;
            match goal with
            | |- context [if ?c then _ else _] => now destruct c
            end|]).
    destruct h; discriminate. }
  assert (Hmask : Forall (fun blk =>
            read st (CausalSelfAttention.bias (Block.attn blk))
            = Some (tril_ones (GPTConfig.block_size (GPT.config self))))
            (GPT.h self)) by (repeat constructor).
  assert (Hidx : idx_size 1 2 [[0; 1]]%Z)
    by (split; [reflexivity | repeat constructor]).
  assert (Hidx' : idx_size 1 2 [[0; 2]]%Z)
    by (split; [reflexivity | repeat constructor]).
  destruct (@logits_causal RuntimeError st self 1 2 [[0; 1]]%Z [[0; 2]]%Z
              L tok' 0)
    as (L' & EL' & Heq); try exact EL; try exact Etok; try assumption;
    try lia.
  - intros b t Hb Ht.
    assert (b = 0) by lia. assert (t = 0) by lia. subst. reflexivity.
  - intros X0 HX0.
    apply embedded_values_finite with RuntimeError 1 2 [[0; 1]]%Z;
      try assumption; lia.
  - intros X0 HX0.
    apply embedded_values_finite with RuntimeError 1 2 [[0; 2]]%Z;
      try assumption; lia.
  - exists self, st, L, L'. split; [reflexivity|].
    split; [exact EL|]. split; [exact EL'|]. apply Heq; lia.
Defined.

End CausalFacts.
